(** * Pixellator: ASCII video pipeline, differential renderer and audio sync

    A shallow embedding of [main.py] and [audio_player.py].

    - [Py]        : the Python / NumPy numeric and string primitives the
                    program relies on (IEEE doubles are Rocq's primitive
                    floats, so [int(h / w * new_width * 0.5)] is computed
                    with the very same roundings as in CPython);
    - [Converter] : [frame_to_ascii], [frame_to_ascii_curses],
                    [frame_to_ascii_curses_color];
    - [Pipeline]  : [extract_frames] and [convert_frames] over explicit
                    queues, a stop flag and an event log;
    - [Renderer]  : [fast_diff_lines] and the body of
                    [render_frames_sys_partial], with the terminal that
                    reads what is written (cursor moves, colour
                    sequences, a right margin);
    - [Audio]     : [AudioPlayer] with [_audio_callback],
                    [update_video_time] and [stop];
    - [Calibration]    : [generate_calibration_frame] on lists of code
                         points, with Python's indexing;
    - [CursesRenderer] : [render_frames_curses], the calls it makes on
                         the window and what they do to a character grid;
    - [ColorRenderer]  : [render_frames_curses_color] with
                         [get_color_attr] and its cache of colour pairs. *)

From Stdlib Require Import ZArith Bool Ascii String List Lia Floats.
From Stdlib Require Import Sorted.
Import ListNotations.
Open Scope Z_scope.

(* ===================================================================== *)
(** ** Python primitives *)
(* ===================================================================== *)

Module Py.

(** Python [str]: a sequence of characters. *)
Definition str := list ascii.

Definition s (x : string) : str := list_ascii_of_string x.

Definition NL : ascii := "010"%char.
Definition ESC : ascii := "027"%char.
Definition SPACE : ascii := " "%char.

(** Failing computations (a raised exception) are [None]. *)
Definition bind {A B} (x : option A) (k : A -> option B) : option B :=
  match x with
  | Some a => k a
  | None => None
  end.

Fixpoint mapM {A B} (f : A -> option B) (l : list A) : option (list B) :=
  match l with
  | [] => Some []
  | a :: l' =>
      match f a with
      | None => None
      | Some b =>
          match mapM f l' with
          | None => None
          | Some bs => Some (b :: bs)
          end
      end
  end.

(** [float(z)]: the double nearest to the integer [z]. *)
Definition float_of_int (z : Z) : float :=
  SF2Prim (binary_normalize 53 1024 z 0 false).

(** [a / b] on two [int]s: true division, [ZeroDivisionError] on 0. *)
Definition truediv (a b : Z) : option float :=
  if b =? 0 then None
  else Some (PrimFloat.div (float_of_int a) (float_of_int b)).

(** Integer part of a finite double, rounded toward zero and toward
    minus infinity; [None] on NaN and infinities, where [int()] and
    [math.floor] raise. *)
Definition trunc_sf (x : spec_float) : option Z :=
  match x with
  | S754_zero _ => Some 0
  | S754_finite sg m e =>
      let v := if 0 <=? e then Z.pos m * 2 ^ e
               else Z.pos m / 2 ^ (- e) in
      Some (if sg then - v else v)
  | _ => None
  end.

Definition floor_sf (x : spec_float) : option Z :=
  match x with
  | S754_zero _ => Some 0
  | S754_finite sg m e =>
      Some (if 0 <=? e
            then (if sg then - (Z.pos m * 2 ^ e) else Z.pos m * 2 ^ e)
            else (if sg then (- Z.pos m) / 2 ^ (- e)
                  else Z.pos m / 2 ^ (- e)))
  | _ => None
  end.

(** [int(x)] for a float [x]. *)
Definition int_of_float (x : float) : option Z := trunc_sf (Prim2SF x).

(** [math.floor(x)]. *)
Definition floor_of_float (x : float) : option Z := floor_sf (Prim2SF x).

(** Sign bit clear (or zero): the double is [>= 0]. *)
Definition nonneg_sf (x : spec_float) : bool :=
  match x with
  | S754_zero _ => true
  | S754_finite sg _ _ => negb sg
  | S754_infinity sg => negb sg
  | S754_nan => false
  end.

Definition float_nonneg (x : float) : bool := nonneg_sf (Prim2SF x).

(** Fixed-width NumPy integers: wrap-around written out. *)
Definition u8 (z : Z) : Z := z mod 2 ^ 8.
Definition u16 (z : Z) : Z := z mod 2 ^ 16.

Definition is_u8 (z : Z) : Prop := 0 <= z < 256.

(** [astype(np.uint8)] on a float64 value. *)
Definition float_astype_u8 (x : float) : Z :=
  match int_of_float x with
  | Some z => u8 z
  | None => 0
  end.

(** ["%d" % n]. *)
Definition digit (n : nat) : ascii := ascii_of_nat (48 + n).

Fixpoint dec_nat (fuel n : nat) (acc : str) : str :=
  match fuel with
  | O => acc
  | S fuel' =>
      let acc' := digit (n mod 10) :: acc in
      if (n <? 10)%nat then acc' else dec_nat fuel' (n / 10) acc'
  end.

Definition fmt_d (z : Z) : str :=
  if z <? 0 then "-"%char :: dec_nat (S (Z.to_nat (- z))) (Z.to_nat (- z)) []
  else dec_nat (S (Z.to_nat z)) (Z.to_nat z) [].

(** [sep.join(parts)]. *)
Fixpoint join (sep : str) (parts : list str) : str :=
  match parts with
  | [] => []
  | [p] => p
  | p :: rest => p ++ sep ++ join sep rest
  end.

(** [text.split("\n")]: the current line is accumulated in [cur]. *)
Fixpoint split_nl (text : str) (cur : str) : list str :=
  match text with
  | [] => [rev cur]
  | c :: text' =>
      if Ascii.eqb c NL then rev cur :: split_nl text' []
      else split_nl text' (c :: cur)
  end.

Definition split_lines (text : str) : list str := split_nl text [].

(** A text without a line break, and a decimal digit. *)
Definition no_newline (text : str) : Prop := ~ In NL text.

Definition is_digit (c : ascii) : bool :=
  (48 <=? nat_of_ascii c)%nat && (nat_of_ascii c <=? 57)%nat.

(** [a[i] if 0 <= i < len(a)], as an [option]. *)
Definition index {A} (l : list A) (i : Z) : option A :=
  if i <? 0 then None else nth_error l (Z.to_nat i).

End Py.

Notation "x <- e ;; k" := (Py.bind e (fun x => k))
  (at level 61, e at next level, right associativity).

(* ===================================================================== *)
(** ** Converter: pixel to glyph, three variants *)
(* ===================================================================== *)

Module Converter.
Import Py.

(** A pixel is three 8-bit channels; an image is a row-major grid. A
    decoded frame stores the channels in B,G,R order. *)
Definition Pixel : Type := Z * Z * Z.
Definition Image : Type := list (list Pixel).

Definition pixel_ok (p : Pixel) : Prop :=
  let '(c0, c1, c2) := p in is_u8 c0 /\ is_u8 c1 /\ is_u8 c2.

(** [frame.shape[:2]] is (height, width). *)
Definition shape (img : Image) : Z * Z :=
  (Z.of_nat (length img), Z.of_nat (length (hd [] img))).

(** An [h] x [w] image of 8-bit pixels. *)
Definition has_shape (img : Image) (h w : Z) : Prop :=
  Z.of_nat (length img) = h /\
  Forall (fun row => Z.of_nat (length row) = w /\ Forall pixel_ok row) img.

(** The ramp, lightest to darkest. *)
Definition ASCII_CHARS : str :=
  s " .'`^" ++ ["034"%char]
    ++ s ",:;Il!i~+_-?][}{1)(|\/tfjrxnuvczXYUJCLQ0OZmwqpdbkhao*#MW&8%B@".

Definition ASCII_LUT : list ascii := ASCII_CHARS.

Definition cvtColor_BGR2RGB (img : Image) : Image :=
  map (map (fun p : Pixel => let '(b, g, r) := p in (r, g, b))) img.

(** [int(aspect_ratio * new_width * 0.5)] with
    [aspect_ratio = height / width], in double precision. *)
Definition scaled_height (height width new_width : Z) : option Z :=
  aspect_ratio <- truediv height width ;;
  int_of_float
    (PrimFloat.mul (PrimFloat.mul aspect_ratio (float_of_int new_width))
                   0.5%float).

(** [np.mean(rgb, axis=2)]: the float64 mean of the three channels
    (the sum of three 8-bit values is exact in a double). *)
Definition np_mean_axis2 (p : Pixel) : float :=
  let '(r, g, b) := p in
  PrimFloat.div (float_of_int (r + g + b)) (float_of_int 3).

(** [np.mean(rgb_frame, axis=2).astype(np.uint8)]. *)
Definition brightness (p : Pixel) : Z := float_astype_u8 (np_mean_axis2 p).

(** [(brightness.astype(np.uint16) * (len(ASCII_CHARS) - 1) // 255)
     .astype(np.uint8)]. *)
Definition char_index (bright : Z) : Z :=
  u8 (u16 (u16 bright * (Z.of_nat (length ASCII_CHARS) - 1)) / 255).

(** [ASCII_LUT[idx]]; an index past the table raises. *)
Definition lut (idx : Z) : option ascii := index ASCII_LUT idx.

Definition pixel_glyph (p : Pixel) : option ascii :=
  lut (char_index (brightness p)).

(** ANSI variant, one pixel:
    ["\033[38;2;{r};{g};{b}m{char}\033[0m"]. *)
Definition ansi_prefix : str := ESC :: s "[38;2;".
Definition ansi_suffix : str := ESC :: s "[0m".

Definition ansi_text (r g b : Z) (c : ascii) : str :=
  ansi_prefix ++ fmt_d r ++ s ";" ++ fmt_d g ++ s ";" ++ fmt_d b
    ++ s "m" ++ [c] ++ ansi_suffix.

Definition ansi_cell (p : Pixel) : option str :=
  let '(r, g, b) := p in
  c <- pixel_glyph p ;;
  Some (ansi_text r g b c).

(** Colour variant: the xterm-256 index, computed in uint16. *)
Definition quant6 (c : Z) : Z := u16 (u16 c * 6) / 256.

Definition color_index (p : Pixel) : Z :=
  let '(r, g, b) := p in
  let r6 := quant6 r in
  let g6 := quant6 g in
  let b6 := quant6 b in
  u16 (u16 (u16 (16 + u16 (36 * r6)) + u16 (6 * g6)) + b6).

Definition color_cell (p : Pixel) : option (ascii * Z) :=
  c <- pixel_glyph p ;;
  Some (c, color_index p).

Section WithResize.

(** [cv2.resize(frame, (new_width, new_height))], an OpenCV call:
    [None] when it raises. *)
Variable resize : Image -> Z -> Z -> option Image.

Definition frame_to_ascii (frame_data : Image * Z) : option str :=
  let '(frame, new_width) := frame_data in
  let '(height, width) := shape frame in
  new_height <- scaled_height height width new_width ;;
  resized <- resize frame new_width new_height ;;
  let rgb_frame := cvtColor_BGR2RGB resized in
  ansi <- mapM (mapM ansi_cell) rgb_frame ;;
  Some (join [NL] (map (@concat ascii) ansi)).

Definition frame_to_ascii_curses (frame_data : Image * Z) : option str :=
  let '(frame, new_width) := frame_data in
  let '(height, width) := shape frame in
  new_height <- scaled_height height width new_width ;;
  resized <- resize frame new_width new_height ;;
  let rgb_frame := cvtColor_BGR2RGB resized in
  ascii_chars <- mapM (mapM pixel_glyph) rgb_frame ;;
  Some (join [NL] ascii_chars).

Definition frame_to_ascii_curses_color (frame_data : Image * Z)
  : option (list (list (ascii * Z))) :=
  let '(frame, new_width) := frame_data in
  let '(height, width) := shape frame in
  h0 <- scaled_height height width new_width ;;
  let new_height := Z.max h0 1 in
  resized <- resize frame new_width new_height ;;
  let rgb_frame := cvtColor_BGR2RGB resized in
  mapM (fun i =>
          mapM (fun j =>
                  row <- nth_error rgb_frame i ;;
                  p <- nth_error row j ;;
                  color_cell p)
               (seq 0 (Z.to_nat new_width)))
       (seq 0 (Z.to_nat new_height)).

End WithResize.

(** A stand-in for OpenCV's resize, for running the converters on
    concrete frames: an empty source or target size is rejected, as
    OpenCV does, and the samples are taken at the nearest source pixel
    (the claims depend on the shape of the result only). *)
Definition cv2_resize (img : Image) (w h : Z) : option Image :=
  let '(H, W) := shape img in
  if (w <=? 0) || (h <=? 0) || (W <=? 0) || (H <=? 0) then None
  else
    Some (map (fun i =>
                 map (fun j =>
                        nth (j * Z.to_nat W / Z.to_nat w)%nat
                            (nth (i * Z.to_nat H / Z.to_nat h)%nat img [])
                            (0, 0, 0))
                     (seq 0 (Z.to_nat w)))
              (seq 0 (Z.to_nat h))).

(** Number of terminal cells a line occupies: characters outside the
    [ESC ... m] colour sequences. *)
Fixpoint visible (in_escape : bool) (line : str) : nat :=
  match line with
  | [] => O
  | c :: rest =>
      if in_escape then visible (negb (Ascii.eqb c "m"%char)) rest
      else if Ascii.eqb c ESC then visible true rest
           else S (visible false rest)
  end.

Definition visible_width (line : str) : nat := visible false line.

End Converter.

(* ===================================================================== *)
(** ** Pipeline: extractor and converter stages *)
(* ===================================================================== *)

Module Pipeline.
Import Py.

Section Stages.

(** Decoded frames and converted frames are opaque to the plumbing. *)
Variables Frame Ascii : Type.

(** *** Extractor *)

(** [cv2.VideoCapture(video_path)]: whether the source opened, and
    the frames [read()] delivers before it returns [ret = False]. *)
Record VideoCapture : Type := {
  isOpened : bool;
  stream : list Frame
}.

(** An exception that leaves [extract_frames]. *)
Inductive PyError : Type :=
| ZeroDivisionError      (* 1 / fps with fps = 0 *)
| ValueError.            (* time.sleep of a negative length *)

(** What the extractor leaves behind: the queue (oldest item first,
    [None] is the end-of-stream marker), the texts given to [print],
    whether [cap.release()] ran, and the exception it ended with, if
    any. *)
Record Extracted : Type := {
  raw_queue : list (option Frame);
  printed : list string;
  released : bool;
  raised : option PyError
}.

(** How the [while] loop is left. *)
Inductive Ending : Type :=
| Exhausted        (* [ret] was false: [break] *)
| Interrupted      (* KeyboardInterrupt *)
| SleepRaised.     (* [time.sleep(frame_time)] raised *)

(** The text printed on a KeyboardInterrupt; it starts with a line
    break. *)
Definition INTERRUPTED : string :=
  String "010"%char "[!] Interruzione nell'estrazione dei frame.".

(** The [while cap.isOpened()] loop: one [read()], one [put] and one
    [time.sleep(1 / fps)] per round, the sleep raising when [fps] is
    negative; [interrupt = Some n] is a KeyboardInterrupt arriving
    after [n] rounds. Returns the queue and how the loop was left. *)
Fixpoint read_loop (fps : Z) (frames : list Frame) (interrupt : option nat)
         (q : list (option Frame)) : list (option Frame) * Ending :=
  match interrupt with
  | Some O => (q, Interrupted)
  | _ =>
      match frames with
      | [] => (q, Exhausted)
      | frame :: rest =>
          if fps <? 0 then (q ++ [Some frame], SleepRaised)
          else read_loop fps rest (option_map Nat.pred interrupt)
                         (q ++ [Some frame])
      end
  end.

(** [extract_frames(video_path, raw_queue, fps)]. [frame_time = 1 / fps]
    is computed before the [try], so with [fps = 0] the function is
    left by the ZeroDivisionError before anything is enqueued or
    released. *)
Definition extract_frames (cap : VideoCapture) (fps : Z)
           (interrupt : option nat) (q : list (option Frame)) : Extracted :=
  if negb (isOpened cap) then
    {| raw_queue := q;
       printed := ["Errore: impossibile aprire il video."%string];
       released := false;
       raised := None |}
  else if fps =? 0 then
    {| raw_queue := q;
       printed := [];
       released := false;
       raised := Some ZeroDivisionError |}
  else
    let '(q1, ending) := read_loop fps (stream cap) interrupt q in
    {| raw_queue := q1 ++ [None];
       printed := match ending with
                  | Interrupted => [INTERRUPTED]
                  | _ => []
                  end;
       released := true;
       raised := match ending with
                 | SleepRaised => Some ValueError
                 | _ => None
                 end |}.

(** *** Converter *)

(** Outcome of one [raw_queue.get(timeout=0.01)]: [queue.Empty], or
    an item, [None] being the end-of-stream marker. *)
Inductive Got : Type :=
| Empty
| Item (x : option Frame).

(** What the stage does to the world, in program order (no other
    thread sets the stop flag in the runs described here). *)
Inductive Event : Type :=
| SetStop
| Put (af : Ascii) (conversion_time_ms : float)
| PrintError.

Record Conv : Type := {
  gets : list Got;        (* outcomes of the coming [get] calls *)
  stop_event : bool;
  trace : list Event;     (* oldest first *)
  batch_no : nat          (* batches converted so far *)
}.

(** The items the stage has put on [ascii_queue]. *)
Fixpoint ascii_queue (tr : list Event) : list (Ascii * float) :=
  match tr with
  | [] => []
  | Put af ms :: tr' => (af, ms) :: ascii_queue tr'
  | _ :: tr' => ascii_queue tr'
  end.

(** The frames a script of [get] outcomes hands over. *)
Fixpoint items (g : list Got) : list (option Frame) :=
  match g with
  | [] => []
  | Empty :: g' => items g'
  | Item x :: g' => x :: items g'
  end.

Variable conversion_function : Frame * Z -> option Ascii.
Variable new_width : Z.

(** Seconds between [conv_start] and [conv_end] for each batch. *)
Variable elapsed : nat -> float.

(** [for _ in range(batch_size)]: the batch, whether the marker was
    met (and the stop flag set), and the outcomes not consumed. An
    exhausted script stands for a queue that stays empty. *)
Fixpoint collect (n : nat) (g : list Got) (batch : list (Frame * Z))
  : list (Frame * Z) * bool * list Got :=
  match n with
  | O => (batch, false, g)
  | S n' =>
      match g with
      | [] => (batch, false, [])
      | Empty :: g' => (batch, false, g')
      | Item None :: g' => (batch, true, g')
      | Item (Some frame) :: g' =>
          collect n' g' (batch ++ [(frame, new_width)])
      end
  end.

(** [pool.map(conversion_function, batch, chunksize=len(batch))]:
    results in input order, or the exception of a failed item. *)
Definition pool_map (batch : list (Frame * Z)) : option (list Ascii) :=
  mapM conversion_function batch.

Definition conversion_time_ms (st : Conv) (batch : list (Frame * Z))
  : float :=
  PrimFloat.div
    (PrimFloat.mul (elapsed (batch_no st)) (float_of_int 1000))
    (float_of_int (Z.of_nat (length batch))).

(** The [while not stop_event.is_set()] loop; [None] when [fuel]
    rounds were not enough to leave it. *)
Fixpoint convert_loop (batch_size : Z) (fuel : nat) (st : Conv)
  : option Conv :=
  match fuel with
  | O => None
  | S fuel' =>
      if stop_event st then Some st
      else
        let '(batch, eos, rest) :=
          collect (Z.to_nat batch_size) (gets st) [] in
        let st1 :=
          {| gets := rest;
             stop_event := eos;
             trace := if eos then trace st ++ [SetStop] else trace st;
             batch_no := batch_no st |} in
        match batch with
        | [] => convert_loop batch_size fuel' st1
        | _ :: _ =>
            match pool_map batch with
            | None =>
                Some {| gets := rest;
                        stop_event := eos;
                        trace := trace st1 ++ [PrintError];
                        batch_no := batch_no st |}
            | Some ascii_frames =>
                let ms := conversion_time_ms st batch in
                convert_loop batch_size fuel'
                  {| gets := rest;
                     stop_event := eos;
                     trace := trace st1
                              ++ map (fun af => Put af ms) ascii_frames;
                     batch_no := S (batch_no st) |}
            end
        end
  end.

Definition convert_frames (batch_size : Z) (fuel : nat) (g : list Got)
  : option Conv :=
  convert_loop batch_size fuel
    {| gets := g; stop_event := false; trace := []; batch_no := O |}.

(** The batch the [for] loop builds from [frames]. *)
Definition batch_of (frames : list Frame) : list (Frame * Z) :=
  map (fun frame => (frame, new_width)) frames.

(** The converted frames enqueued, in order. *)
Definition enqueued (st : Conv) : list Ascii :=
  map fst (ascii_queue (trace st)).

End Stages.

Arguments Empty {Frame}.
Arguments Item {Frame} x.
Arguments SetStop {Ascii}.
Arguments Put {Ascii} af conversion_time_ms.
Arguments PrintError {Ascii}.
Arguments isOpened {Frame}.
Arguments stream {Frame}.
Arguments raw_queue {Frame}.
Arguments printed {Frame}.
Arguments released {Frame}.
Arguments raised {Frame}.
Arguments extract_frames {Frame}.
Arguments read_loop {Frame}.
Arguments gets {Frame Ascii}.
Arguments stop_event {Frame Ascii}.
Arguments trace {Frame Ascii}.
Arguments batch_no {Frame Ascii}.
Arguments ascii_queue {Ascii}.
Arguments items {Frame}.
Arguments collect {Frame}.
Arguments pool_map {Frame Ascii}.
Arguments conversion_time_ms {Frame Ascii}.
Arguments convert_loop {Frame Ascii}.
Arguments convert_frames {Frame Ascii}.
Arguments enqueued {Frame Ascii}.
Arguments batch_of {Frame}.

(** "Flush, and only then stop": nothing is put on [ascii_queue] once
    the stop signal is set. *)
Definition flush_precedes_stop {Ascii} (tr : list (Event Ascii)) : Prop :=
  forall pre post, tr = pre ++ SetStop :: post -> ascii_queue post = [].

End Pipeline.

(* ===================================================================== *)
(** ** Renderer: line diff and ANSI direct write *)
(* ===================================================================== *)

Module Renderer.
Import Py.

(** The inner [for j in range(len(new_line))] loop of the diff: is
    there a column where the old line is over or the characters differ? *)
Definition chars_differ (new_line old_line : str) : bool :=
  existsb (fun j =>
             (length old_line <=? j)%nat
             || negb (Ascii.eqb (nth j new_line SPACE) (nth j old_line SPACE)))
          (seq 0 (length new_line)).

(** One round of [for i in range(max_lines)]. *)
Definition diff_round (new_lines old_lines : list str)
           (diff_indices : list nat) (i : nat) : list nat :=
  let n_new := length new_lines in
  let n_old := length old_lines in
  if (n_new <=? i)%nat && (n_old <=? i)%nat then diff_indices
  else
    let new_line := if (i <? n_new)%nat then nth i new_lines [] else [] in
    let old_line := if (i <? n_old)%nat then nth i old_lines [] else [] in
    if negb (length new_line =? length old_line)%nat
    then diff_indices ++ [i]
    else if chars_differ new_line old_line then diff_indices ++ [i]
         else diff_indices.

(** [fast_diff_lines] is compiled by Numba ([@jit(nopython=True)]),
    which has to give each argument a type before the body runs: a
    list without elements has none, and the call raises a ValueError
    ([None] here). *)
Definition fast_diff_lines (new_lines old_lines : list str)
           (max_lines : nat) : option (list nat) :=
  match new_lines, old_lines with
  | [], _ => None
  | _, [] => None
  | _, _ =>
      Some (fold_left (diff_round new_lines old_lines) (seq 0 max_lines) [])
  end.

(** The test one round applies to index [i], as one boolean (used to
    state what the diff returns). *)
Definition differs (new_lines old_lines : list str) (i : nat) : bool :=
  let n_new := length new_lines in
  let n_old := length old_lines in
  negb ((n_new <=? i)%nat && (n_old <=? i)%nat)
  && (let new_line := if (i <? n_new)%nat then nth i new_lines [] else [] in
      let old_line := if (i <? n_old)%nat then nth i old_lines [] else [] in
      negb (length new_line =? length old_line)%nat
      || chars_differ new_line old_line).

(** One element handed to [sys.stdout.write]. *)
Inductive Chunk : Type :=
| HideCursor                         (* HIDE_CURSOR *)
| ShowCursor                         (* SHOW_CURSOR *)
| Clear                              (* CLEAR_SCREEN *)
| Newlines (n : nat)                 (* "\n" * n *)
| Whole (ascii_frame : str)          (* the full frame *)
| At (row : nat) (text : str).       (* GOTO_FORMAT.format(row) + text *)

Definition HIDE_CURSOR : str := ESC :: s "[?25l".
Definition SHOW_CURSOR : str := ESC :: s "[?25h".
Definition CLEAR_SCREEN : str := (ESC :: s "[2J") ++ (ESC :: s "[H").

Definition GOTO_FORMAT (row : nat) : str :=
  (ESC :: s "[") ++ fmt_d (Z.of_nat row) ++ s ";1H".

(** The characters a chunk stands for. *)
Definition chunk_text (c : Chunk) : str :=
  match c with
  | HideCursor => HIDE_CURSOR
  | ShowCursor => SHOW_CURSOR
  | Clear => CLEAR_SCREEN
  | Newlines n => repeat NL n
  | Whole f => f
  | At row text => GOTO_FORMAT row ++ text
  end.

(** What the renderer keeps between two frames. *)
Record Mirror : Type := {
  prev_frame_lines : option (list str);
  prev_terminal_size : Z * Z
}.

(** [new_line += " " * (len(old_line) - len(new_line))] when the old
    line exists and is longer. *)
Definition pad_line (prev : list str) (i : nat) (new_line : str) : str :=
  if (i <? length prev)%nat then
    let old_line := nth i prev [] in
    if (length new_line <? length old_line)%nat
    then new_line ++ repeat SPACE (length old_line - length new_line)
    else new_line
  else new_line.

(** The [for i in diff_indices] loop filling [output_buffer]; [None]
    when the diff raises. *)
Definition diff_writes (frame_lines prev : list str) : option (list Chunk) :=
  let max_lines := Nat.max (length frame_lines) (length prev) in
  diff_indices <- fast_diff_lines frame_lines prev max_lines ;;
  Some (flat_map (fun i =>
                    if (i <? length frame_lines)%nat
                    then [At (i + 1) (pad_line prev i (nth i frame_lines []))]
                    else [])
                 diff_indices).

(** One round of the loop of [render_frames_sys_partial], from the
    dequeued [ascii_frame] to [prev_frame_lines = frame_lines]: the
    chunks written to the terminal, in order, and the new mirror;
    [None] when the round is left by the exception of the diff (which
    can only happen without a resize, so before anything is written in
    the round). *)
Definition render_frame (m : Mirror) (current_terminal_size : Z * Z)
           (ascii_frame : str) : option (list Chunk * Mirror) :=
  let frame_lines := split_lines ascii_frame in
  let terminal_resized :=
    negb ((fst current_terminal_size =? fst (prev_terminal_size m))
          && (snd current_terminal_size =? snd (prev_terminal_size m))) in
  let cleared := if terminal_resized then [Clear] else [] in
  let prev := if terminal_resized then None else prev_frame_lines m in
  let size := if terminal_resized then current_terminal_size
              else prev_terminal_size m in
  output_buffer <-
    match prev with
    | None => Some [Whole ascii_frame]
    | Some old => diff_writes frame_lines old
    end ;;
  Some (cleared ++ output_buffer,
        {| prev_frame_lines := Some frame_lines; prev_terminal_size := size |}).

(** The [while] loop on the frames it dequeues, each with the terminal
    size seen in its round: what is written, and whether the loop was
    left by an exception. *)
Fixpoint render_loop (m : Mirror) (rounds : list ((Z * Z) * str))
  : list Chunk * bool :=
  match rounds with
  | [] => ([], false)
  | (size, ascii_frame) :: rest =>
      match render_frame m size ascii_frame with
      | None => ([], true)
      | Some (out, m') =>
          let '(later, raised) := render_loop m' rest in
          (out ++ later, raised)
      end
  end.

(** The whole of [render_frames_sys_partial]; the [finally] clause
    writes its line breaks and shows the cursor either way.
    [term_height] is the terminal height read on the way out. *)
Definition render_frames_sys_partial (initial_size : Z * Z)
           (rounds : list ((Z * Z) * str)) (term_height : nat)
  : list Chunk * bool :=
  let '(out, raised) :=
    render_loop {| prev_frame_lines := None;
                   prev_terminal_size := initial_size |} rounds in
  ([HideCursor] ++ out ++ [Newlines term_height; ShowCursor], raised).

(** *** A character grid *)

(** Cell contents by (row, column), both from 0, and the cursor. *)
Definition Grid : Type := nat -> nat -> ascii.

Record Term : Type := {
  cells : Grid;
  cur_row : nat;
  cur_col : nat
}.

Definition blank : Grid := fun _ _ => SPACE.

(** The grid that shows [lines] from the top-left corner. *)
Definition grid_of_lines (lines : list str) : Grid :=
  fun r k => nth k (nth r lines []) SPACE.

(** A character lands in the cell under the cursor, which moves one to
    the right; a newline moves to the start of the next row. *)
Definition put_char (t : Term) (c : ascii) : Term :=
  if Ascii.eqb c NL then
    {| cells := cells t; cur_row := S (cur_row t); cur_col := O |}
  else
    {| cells := fun r k =>
                  if (r =? cur_row t)%nat && (k =? cur_col t)%nat then c
                  else cells t r k;
       cur_row := cur_row t;
       cur_col := S (cur_col t) |}.

Definition write (t : Term) (text : str) : Term := fold_left put_char text t.

(** *** The terminal *)

(** What [sys.stdout] is connected to: a grid of [lines] rows and
    [columns] columns that interprets the characters it is sent. Text
    goes to the cell under the cursor; past the last column it goes on
    at the start of the next row; a line feed on the last row scrolls.
    [ESC [ parameters letter] is a control sequence: [H] places the
    cursor, [2J] blanks the grid, the colour sequences ([m]) and the
    others take no cell and change nothing on the grid. *)
Inductive Parser : Type :=
| Ground                                      (* plain text *)
| Escape                                      (* after ESC *)
| Csi (params : list nat) (current : nat).    (* after ESC [ *)

Record Tty : Type := {
  screen : Term;
  columns : nat;
  lines : nat;
  parser : Parser
}.

Definition with_screen (t : Tty) (scr : Term) : Tty :=
  {| screen := scr; columns := columns t; lines := lines t;
     parser := parser t |}.

Definition with_parser (t : Tty) (p : Parser) : Tty :=
  {| screen := screen t; columns := columns t; lines := lines t;
     parser := p |}.

(** To the start of the next row; on the last row the rows move up by
    one and the last one is blanked. *)
Definition line_feed (lines : nat) (scr : Term) : Term :=
  if (S (cur_row scr) <? lines)%nat then
    {| cells := cells scr; cur_row := S (cur_row scr); cur_col := O |}
  else
    {| cells := fun r k =>
                  if (S r <? lines)%nat then cells scr (S r) k
                  else if (S r =? lines)%nat then SPACE
                       else cells scr r k;
       cur_row := lines - 1;
       cur_col := O |}.

(** A character that takes a cell. *)
Definition print (t : Tty) (c : ascii) : Tty :=
  let scr := if (cur_col (screen t) <? columns t)%nat then screen t
             else line_feed (lines t) (screen t) in
  with_screen t
    {| cells := fun r k =>
                  if (r =? cur_row scr)%nat && (k =? cur_col scr)%nat then c
                  else cells scr r k;
       cur_row := cur_row scr;
       cur_col := S (cur_col scr) |}.

(** Parameter [n] of a control sequence, a missing one or 0 counting
    as 1. *)
Definition arg (params : list nat) (n : nat) : nat :=
  match nth n params O with
  | O => 1%nat
  | v => v
  end.

(** The last character of a control sequence. *)
Definition dispatch (t : Tty) (final : ascii) (params : list nat) : Tty :=
  if Ascii.eqb final "H" || Ascii.eqb final "f" then
    with_screen t
      {| cells := cells (screen t);
         cur_row := Nat.min (arg params 0) (lines t) - 1;
         cur_col := Nat.min (arg params 1) (columns t) - 1 |}
  else if Ascii.eqb final "J" && (nth 0 params O =? 2)%nat then
    with_screen t
      {| cells := blank;
         cur_row := cur_row (screen t);
         cur_col := cur_col (screen t) |}
  else t.

Definition feed_char (t : Tty) (c : ascii) : Tty :=
  if Ascii.eqb c ESC then with_parser t Escape
  else
    match parser t with
    | Ground =>
        if Ascii.eqb c NL then with_screen t (line_feed (lines t) (screen t))
        else if (32 <=? nat_of_ascii c)%nat then print t c
             else t
    | Escape =>
        if Ascii.eqb c "[" then with_parser t (Csi [] O)
        else with_parser t Ground
    | Csi params current =>
        if is_digit c
        then with_parser t (Csi params (10 * current + (nat_of_ascii c - 48)))
        else if Ascii.eqb c ";"
             then with_parser t (Csi (params ++ [current]) O)
             else if (64 <=? nat_of_ascii c)%nat
                  then dispatch (with_parser t Ground) c (params ++ [current])
                  else t
    end.

Definition feed (t : Tty) (text : str) : Tty := fold_left feed_char text t.

(** [sys.stdout.write] of one chunk, and of a list of chunks. *)
Definition emit (t : Tty) (c : Chunk) : Tty := feed t (chunk_text c).

Definition emit_all (t : Tty) (out : list Chunk) : Tty :=
  fold_left emit out t.

End Renderer.

(* ===================================================================== *)
(** ** Audio player *)
(* ===================================================================== *)

Module Audio.
Import Py.

(** A message of [sync_queue]: [{"type": ..., "time": ...}]. *)
Record Cmd : Type := {
  cmd_type : string;
  cmd_time : float
}.

Definition set_time (t : float) : Cmd :=
  {| cmd_type := "set_time"; cmd_time := t |}.

(** [abs(a - b) > tol] on doubles. *)
Definition drift_exceeds (a b tol : float) : bool :=
  PrimFloat.ltb tol (PrimFloat.abs (PrimFloat.sub a b)).

(** A hint within tolerance of the clock, or a message of another type,
    changes nothing. *)
Definition quiet (tol clock : float) (cmd : Cmd) : Prop :=
  cmd_type cmd = "set_time"%string ->
  drift_exceeds clock (cmd_time cmd) tol = false.

(** [a[lo:hi]] with Python's treatment of negative and overlong bounds. *)
Definition clamp_index (len i : Z) : Z :=
  if i <? 0 then Z.max (i + len) 0 else Z.min i len.

Definition py_slice {A} (a : list A) (lo hi : Z) : list A :=
  let len := Z.of_nat (length a) in
  let lo' := clamp_index len lo in
  let hi' := clamp_index len hi in
  firstn (Z.to_nat (hi' - lo')) (skipn (Z.to_nat lo') a).

Definition py_slice_from {A} (a : list A) (lo : Z) : list A :=
  py_slice a lo (Z.of_nat (length a)).

(** [target[...] = src] over [n] slots: the shapes must agree, a
    single row is broadcast, anything else raises. *)
Definition assign {A} (n : nat) (src : list A) : option (list A) :=
  if (length src =? n)%nat then Some src
  else match src with
       | [x] => Some (repeat x n)
       | _ => None
       end.

(** What [stop] does besides updating the fields. *)
Inductive Effect : Type :=
| LogInfo (msg : string)
| JoinThread
| AbortStream.

Section Player.

(** One audio frame (a mono value or a stereo pair) and silence. *)
Variable Sample : Type.
Variable silence : Sample.
(** Handles owned by the external libraries. *)
Variables Clip Stream : Type.

Record AudioPlayer : Type := {
  should_stop : bool;
  audio_thread_alive : bool;
  sync_queue : list Cmd;
  audio_time : float;
  video_time : float;
  sync_tolerance : float;
  playback_started : bool;
  audio_clip : option Clip;
  stream : option Stream;
  audio_array : option (list Sample);
  samplerate : Z;
  initialized : bool
}.

(** [__init__]. *)
Definition init : AudioPlayer :=
  {| should_stop := false;
     audio_thread_alive := false;
     sync_queue := [];
     audio_time := 0%float;
     video_time := 0%float;
     sync_tolerance := 0x1.999999999999ap-4%float;  (* 0.1 *)
     playback_started := false;
     audio_clip := None;
     stream := None;
     audio_array := None;
     samplerate := 0;
     initialized := false |}.

Definition with_clock (p : AudioPlayer) (q : list Cmd) (t : float)
           (stopped : bool) : AudioPlayer :=
  {| should_stop := stopped;
     audio_thread_alive := audio_thread_alive p;
     sync_queue := q;
     audio_time := t;
     video_time := video_time p;
     sync_tolerance := sync_tolerance p;
     playback_started := playback_started p;
     audio_clip := audio_clip p;
     stream := stream p;
     audio_array := audio_array p;
     samplerate := samplerate p;
     initialized := initialized p |}.

(** The [while not self.sync_queue.empty()] loop: the clock and the
    start index after every pending command was taken. *)
Fixpoint drain (tol : float) (rate : Z) (q : list Cmd)
         (clock : float) (start_idx : Z) : option (float * Z) :=
  match q with
  | [] => Some (clock, start_idx)
  | cmd :: q' =>
      if String.eqb (cmd_type cmd) "set_time" then
        let new_time := cmd_time cmd in
        if drift_exceeds clock new_time tol then
          idx <- int_of_float
                   (PrimFloat.mul new_time (float_of_int rate)) ;;
          drain tol rate q' new_time idx
        else drain tol rate q' clock start_idx
      else drain tol rate q' clock start_idx
  end.

Record Callback : Type := {
  player : AudioPlayer;
  outdata : list Sample;
  callback_stop : bool       (* [sd.CallbackStop] was returned *)
}.

(** [_audio_callback(outdata, frames, ...)]; [None] when it raises. *)
Definition _audio_callback (p : AudioPlayer) (frames : Z)
  : option Callback :=
  let n := Z.to_nat frames in
  let rate := float_of_int (samplerate p) in
  start_idx0 <- int_of_float (PrimFloat.mul (audio_time p) rate) ;;
  data <- audio_array p ;;
  let len := Z.of_nat (length data) in
  if len <=? start_idx0 then
    Some {| player := with_clock p (sync_queue p) (audio_time p) true;
            outdata := repeat silence n;
            callback_stop := true |}
  else
    step <- truediv frames (samplerate p) ;;
    let advanced := PrimFloat.add (audio_time p) step in
    r <- drain (sync_tolerance p) (samplerate p) (sync_queue p)
               advanced start_idx0 ;;
    let '(clock, start_idx) := r in
    let end_idx := start_idx + frames in
    if end_idx <=? len then
      out <- assign n (py_slice data start_idx end_idx) ;;
      Some {| player := with_clock p [] clock (should_stop p);
              outdata := out;
              callback_stop := false |}
    else
      let remaining := len - start_idx in
      out <- (if 0 <? remaining then
                let m := Nat.min (Z.to_nat remaining) n in
                head <- assign m (py_slice_from data start_idx) ;;
                Some (head ++ repeat silence (n - m))
              else Some (repeat silence n)) ;;
      Some {| player := with_clock p [] clock true;
              outdata := out;
              callback_stop := true |}.

(** [update_video_time(current_time)]. *)
Definition update_video_time (p : AudioPlayer) (current_time : float)
  : AudioPlayer :=
  {| should_stop := should_stop p;
     audio_thread_alive := audio_thread_alive p;
     sync_queue :=
       if drift_exceeds (audio_time p) current_time (sync_tolerance p)
       then sync_queue p ++ [set_time current_time]
       else sync_queue p;
     audio_time := audio_time p;
     video_time := current_time;
     sync_tolerance := sync_tolerance p;
     playback_started := playback_started p;
     audio_clip := audio_clip p;
     stream := stream p;
     audio_array := audio_array p;
     samplerate := samplerate p;
     initialized := initialized p |}.

(** [stop()]: the player afterwards and the calls made on the way. *)
Definition stop (p : AudioPlayer) : AudioPlayer * list Effect :=
  if should_stop p then (p, [])
  else
    ({| should_stop := true;
        audio_thread_alive := audio_thread_alive p;
        sync_queue := sync_queue p;
        audio_time := audio_time p;
        video_time := video_time p;
        sync_tolerance := sync_tolerance p;
        playback_started := false;
        audio_clip := None;
        stream := None;
        audio_array := None;
        samplerate := samplerate p;
        initialized := false |},
     [LogInfo "Arresto riproduzione audio"]
       ++ (if audio_thread_alive p then [JoinThread] else [])
       ++ (match stream p with Some _ => [AbortStream] | None => [] end)
       ++ [LogInfo "Risorse audio rilasciate"]).

End Player.

Arguments should_stop {Sample Clip Stream}.
Arguments sync_queue {Sample Clip Stream}.
Arguments audio_time {Sample Clip Stream}.
Arguments video_time {Sample Clip Stream}.
Arguments sync_tolerance {Sample Clip Stream}.
Arguments playback_started {Sample Clip Stream}.
Arguments audio_clip {Sample Clip Stream}.
Arguments stream {Sample Clip Stream}.
Arguments audio_array {Sample Clip Stream}.
Arguments samplerate {Sample Clip Stream}.
Arguments initialized {Sample Clip Stream}.
Arguments audio_thread_alive {Sample Clip Stream}.
Arguments player {Sample Clip Stream}.
Arguments outdata {Sample Clip Stream}.
Arguments callback_stop {Sample Clip Stream}.
Arguments stop {Sample Clip Stream}.
Arguments update_video_time {Sample Clip Stream}.
Arguments _audio_callback {Sample} silence {Clip Stream}.
Arguments init {Sample Clip Stream}.

End Audio.

(* ===================================================================== *)
(** ** Sample inputs *)
(* ===================================================================== *)

Module Samples.
Import Py Converter Pipeline Renderer.

(** A 16 x 9 frame (W = 16, H = 9) and a 2 x 2 frame, mid grey. *)
Definition grey : Pixel := (128, 128, 128).
Definition wide_frame : Image := repeat (repeat grey 16) 9.
Definition square_frame : Image := [[grey; grey]; [grey; grey]].

(** Pure red and pure blue as a frame holds them (blue first), and a
    2 x 2 frame with a red and a blue column. *)
Definition red : Pixel := (0, 0, 255).
Definition blue : Pixel := (255, 0, 0).
Definition two_tone_frame : Image := [[red; blue]; [red; blue]].

(** The curses converter as the pipeline's [conversion_function]. *)
Definition to_curses : Image * Z -> option str :=
  frame_to_ascii_curses cv2_resize.

(** Every batch takes half a second to convert. *)
Definition half_second (_ : nat) : float := 0.5%float.

(** Scripts of [get] outcomes: two good frames with a timeout in
    between, the same without the timeout, a good frame followed by
    one the converter rejects, and a single frame before the marker. *)
Definition paused_script : list (Got Image) :=
  [Item (Some square_frame); Empty; Item (Some square_frame); Item None].
Definition prompt_script : list (Got Image) :=
  [Item (Some square_frame); Item (Some square_frame); Item None].
Definition mixed_script : list (Got Image) :=
  [Item (Some square_frame); Item (Some wide_frame); Item None].
Definition short_script : list (Got Image) :=
  [Item (Some square_frame); Item None].

(** A two-line mirror and two frames to paint over it: one whose
    second line got shorter, one that lost its second line. *)
Definition old_mirror : Mirror :=
  {| prev_frame_lines := Some [s "abc"; s "de"];
     prev_terminal_size := (80, 24) |}.
Definition shorter_line : str := s "abc" ++ [NL] ++ s "d".
Definition blank_mirror : Mirror :=
  {| prev_frame_lines := Some [s "  "; s "  "];
     prev_terminal_size := (80, 24) |}.
Definition one_glyph : str := s "@ " ++ [NL] ++ s "  ".
Definition old_screen : Term :=
  {| cells := grid_of_lines [s "abc"; s "de"]; cur_row := O; cur_col := O |}.

(** An 80 x 24 terminal that shows the two-line mirror. *)
Definition old_tty : Tty :=
  {| screen := old_screen; columns := 80; lines := 24; parser := Ground |}.

(** A terminal of 10 columns whose first row holds two white cells and
    whose second row holds [##]; the mirror of what it shows (the first
    line as the colour converter writes it), and the next frame, in
    which the two cells of the first row are black, the glyph of black
    being the space. *)
Definition white_row : str :=
  ansi_text 255 255 255 "@" ++ ansi_text 255 255 255 "@".
Definition black_row : str :=
  ansi_text 0 0 0 " " ++ ansi_text 0 0 0 " ".
Definition darker_frame : str := black_row ++ [NL] ++ s "##".
Definition white_frame : str := white_row ++ [NL] ++ s "##".


(** A mono player at 8 Hz holding 32 samples [0 .. 31], half a second
    in; the same after the renderer reported video second 2; and a
    player that already stopped. *)
Definition ramp32 : list Z := map Z.of_nat (seq 0 32).

Definition playing_player : Audio.AudioPlayer Z unit unit :=
  {| Audio.should_stop := false;
     Audio.audio_thread_alive := true;
     Audio.sync_queue := [];
     Audio.audio_time := 0.5%float;
     Audio.video_time := 0.5%float;
     Audio.sync_tolerance := Audio.sync_tolerance (@Audio.init Z unit unit);
     Audio.playback_started := true;
     Audio.audio_clip := Some tt;
     Audio.stream := Some tt;
     Audio.audio_array := Some ramp32;
     Audio.samplerate := 8;
     Audio.initialized := true |}.

Definition drifting_player : Audio.AudioPlayer Z unit unit :=
  Audio.update_video_time playing_player 2%float.

(** Two video times before the start of the clip: -0.05 s and
    -0.5 s. *)
Definition just_before_start : float :=
  PrimFloat.opp 0x1.999999999999ap-5%float.
Definition before_start : float := PrimFloat.opp 0.5%float.

Definition stopped_player : Audio.AudioPlayer Z unit unit :=
  {| Audio.should_stop := true;
     Audio.audio_thread_alive := false;
     Audio.sync_queue := [];
     Audio.audio_time := 4%float;
     Audio.video_time := 4%float;
     Audio.sync_tolerance := 0x1.999999999999ap-4%float;
     Audio.playback_started := true;
     Audio.audio_clip := Some tt;
     Audio.stream := Some tt;
     Audio.audio_array := Some ramp32;
     Audio.samplerate := 8;
     Audio.initialized := true |}.

End Samples.

(* ===================================================================== *)
(** ** Further notions used to state properties of the stages *)
(* ===================================================================== *)

Module Notions.
Import Py Converter Renderer.

(** The characters of a line that land in a cell: what is left once
    the [ESC ... m] colour sequences are taken out. *)
Fixpoint strip_ansi (in_escape : bool) (line : str) : str :=
  match line with
  | [] => []
  | c :: rest =>
      if in_escape then strip_ansi (negb (Ascii.eqb c "m"%char)) rest
      else if Ascii.eqb c ESC then strip_ansi true rest
           else c :: strip_ansi false rest
  end.

(** A terminal that was just reset: blank, cursor at the top left. *)
Definition fresh_term : Term :=
  {| cells := blank; cur_row := O; cur_col := O |}.

Definition fresh_tty (columns lines : nat) : Tty :=
  {| screen := fresh_term; columns := columns; lines := lines;
     parser := Ground |}.

(** Colour text: characters that take a cell (code 32 and up) and
    colour sequences [ESC [ digits and semicolons m], which is what the
    lines of a frame of [frame_to_ascii] are made of. The scan is in
    plain text, after an ESC, or among the parameters of a sequence. *)
Inductive Scan : Type :=
| InText
| AfterEsc
| InParams.

Fixpoint colour_scan (st : Scan) (line : str) : bool :=
  match line with
  | [] => match st with InText => true | _ => false end
  | c :: rest =>
      match st with
      | InText =>
          if Ascii.eqb c ESC then colour_scan AfterEsc rest
          else (32 <=? nat_of_ascii c)%nat && colour_scan InText rest
      | AfterEsc => Ascii.eqb c "[" && colour_scan InParams rest
      | InParams =>
          if Ascii.eqb c "m" then colour_scan InText rest
          else (is_digit c || Ascii.eqb c ";") && colour_scan InParams rest
      end
  end.

Definition colour_text (line : str) : bool := colour_scan InText line.

(** Plain text: characters that take a cell and no escape, which is
    what the lines of a frame of [frame_to_ascii_curses] are made
    of. *)
Definition plain_text (line : str) : bool :=
  forallb (fun c => negb (Ascii.eqb c ESC) && (32 <=? nat_of_ascii c)%nat)
          line.

(** Whether the characters that come next are inside a colour
    sequence, and the state of the terminal's parser at that point. *)
Definition in_escape (st : Scan) : bool :=
  match st with
  | InText => false
  | _ => true
  end.

Definition scanning (st : Scan) (p : Parser) : Prop :=
  match st with
  | InText => p = Ground
  | AfterEsc => p = Escape
  | InParams => exists params current, p = Csi params current
  end.

(** A text that, written from the first column, stays on its row:
    colour text that is, on the screen, no wider than the terminal. *)
Definition one_row (t : Tty) (text : str) : Prop :=
  colour_text text = true /\ (visible_width text <= columns t)%nat.

(** What is written over [old_line] stays on its row and covers the
    old line: it is, on the screen, at least as wide. *)
Definition covers (t : Tty) (old_line text : str) : Prop :=
  one_row t text /\ (visible_width old_line <= visible_width text)%nat.

(** The terminal shows the lines: every cell holds the visible
    character of the line of its row, a blank where there is none. *)
Definition shows (t : Tty) (frame_lines : list str) : Prop :=
  forall r k,
    cells (screen t) r k
    = grid_of_lines (map (strip_ansi false) frame_lines) r k.

(** Frames none of which has fewer lines than the one before, the
    first having at least [n]. *)
Fixpoint growing (n : nat) (frames : list str) : Prop :=
  match frames with
  | [] => True
  | f :: rest =>
      (n <= length (split_lines f))%nat
      /\ growing (length (split_lines f)) rest
  end.

(** What a converter run has done when it ends in state [st'], started
    in [st0] with [frames] still to come: it has enqueued the conversion
    of a prefix of [frames], and either that is all of them and the stop
    signal is set, or a conversion raised and the error was printed
    last. *)
Definition ended {Frame Ascii : Type}
           (conversion_function : Frame * Z -> option Ascii) (new_width : Z)
           (frames : list Frame) (st0 st' : Pipeline.Conv Frame Ascii)
  : Prop :=
  exists done rest afs,
    frames = done ++ rest /\
    Pipeline.pool_map conversion_function
      (Pipeline.batch_of new_width done) = Some afs /\
    Pipeline.enqueued st' = Pipeline.enqueued st0 ++ afs /\
    ((rest = [] /\ Pipeline.stop_event st' = true)
     \/ (Pipeline.pool_map conversion_function
           (Pipeline.batch_of new_width frames) = None
         /\ exists tr, Pipeline.trace st' = tr ++ [Pipeline.PrintError])).

(** A frame that, written whole from the top left corner, stays
    within the terminal: it has no more lines than the terminal has
    rows, and each of its lines stays on its row. *)
Definition whole_fits (t : Tty) (ascii_frame : str) : Prop :=
  (length (split_lines ascii_frame) <= lines t)%nat
  /\ Forall (one_row t) (split_lines ascii_frame).

(** Frames that, diffed one after the other from the mirror [prev],
    stay within the terminal: each has no more lines than the terminal
    has rows, and each line written for it stays on its row and covers
    the old line. *)
Fixpoint stays_put (t : Tty) (prev : list str) (frames : list str) : Prop :=
  match frames with
  | [] => True
  | f :: rest =>
      (length (split_lines f) <= lines t)%nat
      /\ (forall i,
             (i < length (split_lines f))%nat ->
             nth i (split_lines f) [] <> nth i prev [] ->
             covers t (nth i prev [])
                    (pad_line prev i (nth i (split_lines f) [])))
      /\ stays_put t (split_lines f) rest
  end.

(** The rounds of a run in a terminal whose size stays [size]. *)
Definition steady (size : Z * Z) (frames : list str)
  : list ((Z * Z) * str) :=
  map (fun f => (size, f)) frames.

(** The glyph and the palette index of a pixel as the frame holds it,
    blue first. *)
Definition glyph_for (p : Pixel) (c : ascii) : Prop :=
  let '(b, g, r) := p in
  nth_error ASCII_CHARS (Z.to_nat ((r + g + b) / 3 * 66 / 255)) = Some c.

Definition palette_for (p : Pixel) (idx : Z) : Prop :=
  let '(b, g, r) := p in
  idx = 16 + 36 * (r * 6 / 256) + 6 * (g * 6 / 256) + b * 6 / 256.

End Notions.

(* ===================================================================== *)
(** ** Calibration frame *)
(* ===================================================================== *)

Module Calibration.
Import Py.

(** The frame holds a character outside ASCII, so its text is a list
    of code points. *)
Definition BORDER_CHAR : Z := 35.    (* # *)
Definition CROSS_CHAR : Z := 43.     (* + *)
Definition WHITE_CHAR : Z := 9608.   (* U+2588, full block *)
Definition NEWLINE : Z := 10.

(** [range(n)], and [[x] * n]: both empty for [n <= 0]. *)
Definition range (n : Z) : list Z := map Z.of_nat (seq 0 (Z.to_nat n)).
Definition times {A} (x : A) (n : Z) : list A := repeat x (Z.to_nat n).

(** Position of index [i] in a list of length [len]: negative indices
    count from the end, [None] is Python's [IndexError]. *)
Definition norm_index (len i : Z) : option nat :=
  if (i <? - len) || (len <=? i) then None
  else Some (Z.to_nat (if i <? 0 then i + len else i)).

Fixpoint update {A} (l : list A) (k : nat) (v : A) : list A :=
  match l, k with
  | [], _ => []
  | _ :: t, O => v :: t
  | a :: t, S k' => a :: update t k' v
  end.

(** [l[i]] and [l[i] = v]. *)
Definition getitem {A} (l : list A) (i : Z) : option A :=
  k <- norm_index (Z.of_nat (length l)) i ;;
  nth_error l k.

Definition setitem {A} (l : list A) (i : Z) (v : A) : option (list A) :=
  k <- norm_index (Z.of_nat (length l)) i ;;
  Some (update l k v).

(** [m[y][x] = v] on a list of rows. The rows come from a list
    comprehension, so each is a list of its own and writing into one
    leaves the others alone. *)
Definition set2 {A} (m : list (list A)) (y x : Z) (v : A)
  : option (list (list A)) :=
  row <- getitem m y ;;
  row' <- setitem row x v ;;
  setitem m y row'.

(** A [for] loop whose body may raise. *)
Fixpoint for_each {S A} (body : S -> A -> option S) (l : list A) (st : S)
  : option S :=
  match l with
  | [] => Some st
  | a :: l' =>
      st' <- body st a ;;
      for_each body l' st'
  end.

(** [sep.join(parts)] on code points. *)
Fixpoint join_text (sep : list Z) (parts : list (list Z)) : list Z :=
  match parts with
  | [] => []
  | [p] => p
  | p :: rest => p ++ sep ++ join_text sep rest
  end.

Definition generate_calibration_frame (width height : Z) : option (list Z) :=
  let ascii_frame0 := map (fun _ => times WHITE_CHAR width) (range height) in
  ascii_frame1 <-
    for_each (fun m x =>
                m' <- set2 m 0 x BORDER_CHAR ;;
                set2 m' (-1) x BORDER_CHAR)
             (range width) ascii_frame0 ;;
  ascii_frame2 <-
    for_each (fun m y =>
                m' <- set2 m y 0 BORDER_CHAR ;;
                set2 m' y (-1) BORDER_CHAR)
             (range height) ascii_frame1 ;;
  let center_y := height / 2 in
  let center_x := width / 2 in
  ascii_frame3 <-
    for_each (fun m x => set2 m center_y x CROSS_CHAR)
             (range width) ascii_frame2 ;;
  ascii_frame4 <-
    for_each (fun m y => set2 m y center_x CROSS_CHAR)
             (range height) ascii_frame3 ;;
  Some (join_text [NEWLINE] ascii_frame4).

End Calibration.

(** Notions for the calibration frame: a grid given cell by cell, and
    the character the finished frame has at row [y], column [x]. *)
Module Layout.
Import Calibration.

Definition table (h w : Z) (f : Z -> Z -> Z) : list (list Z) :=
  map (fun y => map (f y) (range w)) (range h).

Definition calibration_cell (width height y x : Z) : Z :=
  if (y =? height / 2) || (x =? width / 2) then CROSS_CHAR
  else if (y =? 0) || (y =? height - 1) || (x =? 0) || (x =? width - 1)
       then BORDER_CHAR
       else WHITE_CHAR.

End Layout.

(* ===================================================================== *)
(** ** Renderer on a curses window, one colour *)
(* ===================================================================== *)

Module CursesRenderer.
Import Py Renderer.

(** A call on [stdscr] (or on [curses]) that [curses_loop] makes. *)
Inductive Call : Type :=
| CursSet (visibility : Z)            (* curses.curs_set *)
| NoDelay (flag : bool)               (* stdscr.nodelay *)
| MoveTo (y x : nat)                  (* stdscr.move *)
| ClrToEol                            (* stdscr.clrtoeol *)
| AddStr (y x : nat) (text : str)     (* stdscr.addstr *)
| Refresh.                            (* stdscr.refresh *)

(** [a == b] on two strings. *)
Fixpoint str_eqb (a b : str) : bool :=
  match a, b with
  | [], [] => true
  | x :: a', y :: b' => Ascii.eqb x y && str_eqb a' b'
  | _, _ => false
  end.

(** [line[lo:hi]] for bounds that are not negative. *)
Definition slice (line : str) (lo hi : nat) : str :=
  firstn (hi - lo) (skipn lo line).

(** [while start_diff < min_len and
           new_line[start_diff] == old_line[start_diff]: start_diff += 1],
    at most [fuel] rounds of it. *)
Fixpoint scan_start (new_line old_line : str) (min_len fuel start_diff : nat)
  : nat :=
  match fuel with
  | O => start_diff
  | S fuel' =>
      if (start_diff <? min_len)%nat
         && Ascii.eqb (nth start_diff new_line SPACE)
                      (nth start_diff old_line SPACE)
      then scan_start new_line old_line min_len fuel' (S start_diff)
      else start_diff
  end.

(** [while end_diff > start_diff and
           new_line[end_diff] == old_line[end_diff]: end_diff -= 1]. *)
Fixpoint scan_end (new_line old_line : str) (start_diff fuel end_diff : nat)
  : nat :=
  match fuel with
  | O => end_diff
  | S fuel' =>
      if (start_diff <? end_diff)%nat
         && Ascii.eqb (nth end_diff new_line SPACE)
                      (nth end_diff old_line SPACE)
      then scan_end new_line old_line start_diff fuel' (end_diff - 1)
      else end_diff
  end.

Section Window.

(** Whether a call raises [curses.error]. *)
Variable curses_error : Call -> bool.

(** A [try] block around a sequence of calls: the calls made, up to
    and including the first that raises, and whether none did. *)
Fixpoint attempt (calls : list Call) : list Call * bool :=
  match calls with
  | [] => ([], true)
  | c :: rest =>
      if curses_error c then ([c], false)
      else let '(made, ok) := attempt rest in (c :: made, ok)
  end.

(** The character-by-character part of the body of
    [for i in range(num_lines)]. Each [addstr] sits in a [try] of its
    own, so the call is made whether it raises or not. *)
Definition update_chars (max_width : Z) (i : nat) (new_line old_line : str)
  : list Call :=
  let min_len := Nat.min (length new_line) (length old_line) in
  let start_diff := scan_start new_line old_line min_len min_len 0 in
  let middle :=
    if (start_diff <? min_len)%nat then
      let end_diff :=
        scan_end new_line old_line start_diff min_len (min_len - 1) in
      if (start_diff <=? end_diff)%nat && (Z.of_nat end_diff <? max_width)
      then [AddStr i start_diff (slice new_line start_diff (end_diff + 1))]
      else []
    else [] in
  let excess :=
    if (length old_line <? length new_line)%nat then
      let segment_start := Nat.max (length old_line) start_diff in
      if (segment_start <? length new_line)%nat
         && (Z.of_nat segment_start <? max_width)
      then [AddStr i segment_start
                   (slice new_line segment_start
                          (Z.to_nat (Z.min max_width
                                           (Z.of_nat (length new_line)))))]
      else []
    else if (length new_line <? length old_line)%nat then
      let clear_length :=
        Z.min (max_width - Z.of_nat (length new_line))
              (Z.of_nat (length old_line) - Z.of_nat (length new_line)) in
      if 0 <? clear_length
      then [AddStr i (length new_line) (repeat SPACE (Z.to_nat clear_length))]
      else []
    else [] in
  middle ++ excess.

(** The body of [for i in range(num_lines)]: the calls made for row
    [i]. *)
Definition update_row (max_x : Z) (i : nat) (new_line old_line : str)
  : list Call :=
  if str_eqb new_line old_line then []
  else
    let max_width := max_x - 1 in
    if (Z.of_nat (length new_line) <=? max_width)
       && (Z.of_nat (length new_line / 2)
           <? Z.abs (Z.of_nat (length new_line)
                     - Z.of_nat (length old_line)))
    then
      let '(made, ok) :=
        attempt ([MoveTo i 0; ClrToEol]
                   ++ match new_line with
                      | [] => []
                      | _ => [AddStr i 0 new_line]
                      end) in
      if ok then made
      else made ++ update_chars max_width i new_line old_line
    else update_chars max_width i new_line old_line.

(** The row loop of one frame. *)
Definition draw_rows (max_y max_x : Z) (frame_lines prev_frame_lines : list str)
  : list Call :=
  let num_lines :=
    Z.min (Z.of_nat (Nat.max (length frame_lines) (length prev_frame_lines)))
          max_y in
  flat_map (fun i =>
              let new_line :=
                if (i <? length frame_lines)%nat then nth i frame_lines []
                else [] in
              let old_line :=
                if (i <? length prev_frame_lines)%nat
                then nth i prev_frame_lines [] else [] in
              update_row max_x i new_line old_line)
           (seq 0 (Z.to_nat num_lines)).

(** One round of the [while] loop. [None] is the [queue.Empty] of a
    [get] that timed out; otherwise the round has the frame, and the
    window size [getmaxyx] returns. [key] is what [getch] returns at
    the end of the round. *)
Record Round : Type := {
  dequeued : option (str * (Z * Z));
  key : Z
}.

Definition KEY_Q : Z := 113.   (* ord('q') *)

(** [curses_loop] from the first [while] test on: the calls made, and
    whether [stop_event] is set when the rounds are used up. *)
Fixpoint curses_rounds (prev_frame_lines : list str) (rounds : list Round)
  : list Call * bool :=
  match rounds with
  | [] => ([], false)
  | r :: rest =>
      let '(calls, prev') :=
        match dequeued r with
        | None => ([], prev_frame_lines)
        | Some (ascii_frame, (curr_max_y, curr_max_x)) =>
            let frame_lines := split_lines ascii_frame in
            (draw_rows curr_max_y curr_max_x frame_lines prev_frame_lines
               ++ [Refresh],
             match frame_lines with [] => [] | _ => frame_lines end)
        end in
      if key r =? KEY_Q then (calls, true)
      else let '(later, stopped) := curses_rounds prev' rest in
           (calls ++ later, stopped)
  end.

Definition render_frames_curses (rounds : list Round) : list Call * bool :=
  let '(calls, stopped) := curses_rounds [] rounds in
  ([CursSet 0; NoDelay true] ++ calls, stopped).

End Window.

(** *** What the calls do to the screen *)

(** The window as a character grid with a cursor. [addstr] puts the
    text at the given cell and to its right, [clrtoeol] blanks the
    row from the cursor on. *)
Definition perform (t : Term) (c : Call) : Term :=
  match c with
  | CursSet _ | NoDelay _ | Refresh => t
  | MoveTo y x => {| cells := cells t; cur_row := y; cur_col := x |}
  | ClrToEol =>
      {| cells := fun r k =>
                    if (r =? cur_row t)%nat && (cur_col t <=? k)%nat
                    then SPACE else cells t r k;
         cur_row := cur_row t;
         cur_col := cur_col t |}
  | AddStr y x text =>
      write {| cells := cells t; cur_row := y; cur_col := x |} text
  end.

Definition perform_all (t : Term) (calls : list Call) : Term :=
  fold_left perform calls t.

End CursesRenderer.

(** Notions for the curses renderer: a line that fits the window, a
    round whose frame does, and the lines of the last frame the loop
    took before it stopped. *)
Module CursesNotions.
Import Py CursesRenderer.

Definition fits (max_x : Z) (line : str) : Prop :=
  no_newline line /\ Z.of_nat (length line) <= max_x - 1.

Fixpoint last_drawn (prev_frame_lines : list str) (rounds : list Round)
  : list str :=
  match rounds with
  | [] => prev_frame_lines
  | r :: rest =>
      let prev' := match dequeued r with
                   | None => prev_frame_lines
                   | Some (ascii_frame, _) => split_lines ascii_frame
                   end in
      if key r =? KEY_Q then prev' else last_drawn prev' rest
  end.

Definition fits_window (max_y max_x : Z) (r : Round) : Prop :=
  match dequeued r with
  | None => True
  | Some (ascii_frame, size) =>
      size = (max_y, max_x) /\
      Z.of_nat (length (split_lines ascii_frame)) <= max_y /\
      Forall (fun l => Z.of_nat (length l) <= max_x - 1)
             (split_lines ascii_frame)
  end.

(** Two frames, an idle round in which [q] is pressed, and a frame
    that is not taken any more. *)
Definition two_frames_then_q : list Round :=
  [ {| dequeued := Some (s "ab" ++ [NL] ++ s "cd", (24, 80)); key := -1 |};
    {| dequeued := Some (s "xy", (24, 80)); key := -1 |};
    {| dequeued := None; key := KEY_Q |};
    {| dequeued := Some (s "zz", (24, 80)); key := -1 |} ].

End CursesNotions.

(* ===================================================================== *)
(** ** Renderer on a curses window, 256 colours *)
(* ===================================================================== *)

Module ColorRenderer.
Import Py.

(** A cell of a frame: [(character, color_index)]. *)
Definition Cell : Type := (str * Z)%type.

(** [('', -1)], what [prev_frame] is filled with after a resize. *)
Definition NO_CELL : Cell := ([], -1).

Definition cell_eqb (a b : Cell) : bool :=
  CursesRenderer.str_eqb (fst a) (fst b) && (snd a =? snd b).

(** How a piece of the loop ends: normally, with an exception that
    nothing in [curses_loop] catches ([IndexError],
    [ZeroDivisionError]), or cut short by the bound on the number of
    rounds. *)
Inductive Outcome (A : Type) : Type :=
| Done (a : A)
| Raised
| OutOfFuel.

Arguments Done {A} a.
Arguments Raised {A}.
Arguments OutOfFuel {A}.

(** A call on [stdscr] or [curses]; [AddStr y x segment_chars attr] is
    [stdscr.addstr(y, x, "".join(segment_chars), attr)]. *)
Inductive Call : Type :=
| StartColor
| UseDefaultColors
| NoDelay (flag : bool)
| CursSet (visibility : Z)
| ClearWindow
| AddStr (y x : nat) (segment_chars : list str) (attr : Z)
| Refresh.

(** [color_pair_cache] and [next_pair_number]. *)
Record Pairs : Type := {
  color_pair_cache : Z -> option Z;
  next_pair_number : Z
}.

Definition no_pairs : Pairs :=
  {| color_pair_cache := fun _ => None; next_pair_number := 1 |}.

(** The two states of the row loop: between segments, and inside the
    inner [while] that extends a segment. *)
Inductive Mode : Type :=
| Scanning
| InSegment (start : nat) (current_attr : Z) (segment_chars : list str).

Section Curses.

(** [curses.COLORS], [curses.COLOR_PAIRS], [curses.A_NORMAL],
    [curses.color_pair], and whether [curses.init_pair(n, fg, -1)]
    raises [curses.error]. *)
Variables COLORS COLOR_PAIRS A_NORMAL : Z.
Variable color_pair : Z -> Z.
Variable init_pair_error : Z -> Z -> bool.

(** [get_color_attr(color_index)]: the attribute and the cache
    afterwards; [None] is the [ZeroDivisionError] of
    [color_index % curses.COLORS]. *)
Definition get_color_attr (st : Pairs) (color_index : Z)
  : option (Z * Pairs) :=
  mapped_color <-
    (if COLORS <? 256
     then if COLORS =? 0 then None else Some (color_index mod COLORS)
     else Some color_index) ;;
  match color_pair_cache st color_index with
  | Some n => Some (color_pair n, st)
  | None =>
      if COLOR_PAIRS <=? next_pair_number st then Some (A_NORMAL, st)
      else if init_pair_error (next_pair_number st) mapped_color
           then Some (A_NORMAL, st)
           else Some (color_pair (next_pair_number st),
                      {| color_pair_cache :=
                           fun c => if c =? color_index
                                    then Some (next_pair_number st)
                                    else color_pair_cache st c;
                         next_pair_number := next_pair_number st + 1 |})
  end.

(** The two nested [while j < min(len(new_row), max_x)] loops over
    row [i], one test of a loop condition per unit of [fuel]; [limit]
    is [min(len(new_row), max_x)]. *)
Fixpoint row_loop (fuel : nat) (i : nat) (new_row old_row : list Cell)
         (limit j : nat) (mode : Mode) (st : Pairs) (calls : list Call)
  : Outcome (list Call * Pairs) :=
  match fuel with
  | O => OutOfFuel
  | S fuel' =>
      match mode with
      | Scanning =>
          if (j <? limit)%nat then
            match nth_error new_row j, nth_error old_row j with
            | Some n, Some o =>
                if cell_eqb n o
                then row_loop fuel' i new_row old_row limit (S j)
                              Scanning st calls
                else
                  match get_color_attr st (snd n) with
                  | None => Raised
                  | Some (current_attr, st') =>
                      row_loop fuel' i new_row old_row limit (S j)
                               (InSegment j current_attr [fst n]) st' calls
                  end
            | _, _ => Raised
            end
          else Done (calls, st)
      | InSegment start current_attr segment_chars =>
          let written :=
            calls ++ [AddStr i start segment_chars current_attr] in
          if (j <? limit)%nat then
            match nth_error new_row j, nth_error old_row j with
            | Some n, Some o =>
                if cell_eqb n o
                then row_loop fuel' i new_row old_row limit j
                              Scanning st written
                else
                  match get_color_attr st (snd n) with
                  | None => Raised
                  | Some (next_attr, st') =>
                      if next_attr =? current_attr
                      then row_loop fuel' i new_row old_row limit (S j)
                                    (InSegment start current_attr
                                               (segment_chars ++ [fst n]))
                                    st' calls
                      else row_loop fuel' i new_row old_row limit j
                                    Scanning st' written
                  end
            | _, _ => Raised
            end
          else row_loop fuel' i new_row old_row limit j Scanning st written
      end
  end.

(** The body of [for i in range(min(len(new_frame), max_y))]. *)
Definition update_color_row (max_x : Z) (i : nat) (new_row : list Cell)
           (prev_frame : list (list Cell)) (st : Pairs)
  : Outcome (list Call * Pairs) :=
  let old_row :=
    if (i <? length prev_frame)%nat then nth i prev_frame []
    else repeat NO_CELL (length new_row) in
  let limit := Z.to_nat (Z.min (Z.of_nat (length new_row)) max_x) in
  row_loop (2 * limit + 1) i new_row old_row limit 0 Scanning st [].

(** The [for] loop over the rows. *)
Fixpoint color_rows (max_x : Z) (new_frame prev_frame : list (list Cell))
         (rows : list nat) (st : Pairs) (calls : list Call)
  : Outcome (list Call * Pairs) :=
  match rows with
  | [] => Done (calls, st)
  | i :: rest =>
      match update_color_row max_x i (nth i new_frame []) prev_frame st with
      | Done (made, st') =>
          color_rows max_x new_frame prev_frame rest st' (calls ++ made)
      | Raised => Raised
      | OutOfFuel => OutOfFuel
      end
  end.

(** What [curses_loop] keeps from one frame to the next. *)
Record View : Type := {
  prev_frame : list (list Cell);
  max_y : Z;
  max_x : Z;
  pairs : Pairs
}.

(** One round of the [while] loop that took [new_frame] from the
    queue, [size] being what [getmaxyx] returns in it: the calls made
    and the state afterwards. *)
Definition draw_color_frame (v : View) (size : Z * Z)
           (new_frame : list (list Cell)) : Outcome (list Call * View) :=
  let '(curr_max_y, curr_max_x) := size in
  let resized :=
    negb (curr_max_y =? max_y v) || negb (curr_max_x =? max_x v) in
  let cleared := if resized then [ClearWindow] else [] in
  let prev :=
    if resized
    then map (fun _ => repeat NO_CELL (Z.to_nat curr_max_x))
             (seq 0 (Z.to_nat curr_max_y))
    else prev_frame v in
  let num_rows :=
    Z.to_nat (Z.min (Z.of_nat (length new_frame)) curr_max_y) in
  match color_rows curr_max_x new_frame prev (seq 0 num_rows) (pairs v) []
  with
  | Done (made, st') =>
      Done (cleared ++ made ++ [Refresh],
            {| prev_frame := new_frame;
               max_y := curr_max_y;
               max_x := curr_max_x;
               pairs := st' |})
  | Raised => Raised
  | OutOfFuel => OutOfFuel
  end.

(** One round of the [while] loop: what the [get] gave ([None] for
    [queue.Empty]) with the window size of that round, and the key
    [getch] returns at its end. *)
Record Round : Type := {
  dequeued : option (list (list Cell) * (Z * Z));
  key : Z
}.

(** The [while] loop: the calls made, and whether [stop_event] is set
    when the rounds are used up. *)
Fixpoint color_rounds (v : View) (rounds : list Round)
  : Outcome (list Call * bool) :=
  match rounds with
  | [] => Done ([], false)
  | r :: rest =>
      let this :=
        match dequeued r with
        | None => Done ([], v)
        | Some (new_frame, size) => draw_color_frame v size new_frame
        end in
      match this with
      | Done (calls, v') =>
          if key r =? CursesRenderer.KEY_Q then Done (calls, true)
          else match color_rounds v' rest with
               | Done (later, stopped) => Done (calls ++ later, stopped)
               | Raised => Raised
               | OutOfFuel => OutOfFuel
               end
      | Raised => Raised
      | OutOfFuel => OutOfFuel
      end
  end.

(** [curses_loop] in a window that is [initial_size] when it starts. *)
Definition render_frames_curses_color (initial_size : Z * Z)
           (rounds : list Round) : Outcome (list Call * bool) :=
  match color_rounds {| prev_frame := [];
                        max_y := fst initial_size;
                        max_x := snd initial_size;
                        pairs := no_pairs |} rounds with
  | Done (calls, stopped) =>
      Done ([StartColor; UseDefaultColors; NoDelay true; CursSet 0] ++ calls,
            stopped)
  | Raised => Raised
  | OutOfFuel => OutOfFuel
  end.

End Curses.

End ColorRenderer.

(** Notions for the colour renderer. *)
Module ColorNotions.
Import Py ColorRenderer.

(** Column [j] holds a different cell in the new row. *)
Definition changed (new_row old_row : list Cell) (j : nat) : bool :=
  negb (cell_eqb (nth j new_row NO_CELL) (nth j old_row NO_CELL)).

(** The columns a list of calls writes in row [i], each with the
    character string put there. *)
Definition painted (c : Call) : list (nat * str) :=
  match c with
  | AddStr _ x segment_chars _ =>
      combine (seq x (length segment_chars)) segment_chars
  | _ => []
  end.

(** The same for the segment the loop is in the middle of, and the
    columns from [j] on, [n] of them, where the rows differ. *)
Definition pending (mode : Mode) : list (nat * str) :=
  match mode with
  | Scanning => []
  | InSegment start _ segment_chars =>
      combine (seq start (length segment_chars)) segment_chars
  end.

Definition changes (new_row old_row : list Cell) (j n : nat)
  : list (nat * str) :=
  map (fun k => (k, fst (nth k new_row NO_CELL)))
      (filter (changed new_row old_row) (seq j n)).

(** Book-keeping for the row loop: the cells of the segment being
    built end at the current column, and a bound on the loop tests
    still to come. *)
Definition ready (mode : Mode) (j : nat) : Prop :=
  match mode with
  | Scanning => True
  | InSegment start _ segment_chars => (start + length segment_chars = j)%nat
  end.

Definition cost (limit j : nat) (mode : Mode) : nat :=
  (2 * (limit - j) + match mode with Scanning => 0 | _ => 1 end)%nat.


(** An [addstr] on row [i] with at least one character string. *)
Definition on_row (i : nat) (c : Call) : Prop :=
  match c with
  | AddStr y _ segment_chars _ => y = i /\ segment_chars <> []
  | _ => False
  end.

(** The cache is in order. *)
Definition pairs_ok (COLOR_PAIRS : Z) (st : Pairs) : Prop :=
  1 <= next_pair_number st /\
  (forall c n, color_pair_cache st c = Some n ->
               1 <= n < next_pair_number st /\ n < COLOR_PAIRS) /\
  (forall c1 c2 n, color_pair_cache st c1 = Some n ->
                   color_pair_cache st c2 = Some n -> c1 = c2).

(** [curses.color_pair] as ncurses has it, and two rows that differ
    in their second and third cell. *)
Definition shifted (n : Z) : Z := n * 256.
Definition new_cells : list Cell := [(s "a", 16); (s "b", 16); (s "c", 20)].
Definition old_cells : list Cell := [(s "a", 16); (s "x", 16); (s "c", 21)].

End ColorNotions.

(* ===================================================================== *)
(** * Properties *)
(* ===================================================================== *)

(** ** Generic helpers *)

Section Helpers.

Lemma forallb_upto (P : Z -> bool) (n : nat) :
  forallb P (map Z.of_nat (seq 0 n)) = true ->
  forall z, 0 <= z < Z.of_nat n -> P z = true.
Proof.
  intros H z Hz.
  rewrite forallb_forall in H. apply H.
  apply in_map_iff. exists (Z.to_nat z). split; [lia|].
  apply in_seq. lia.
Qed.

Lemma u16_small z : 0 <= z < 65536 -> Py.u16 z = z.
Proof. intros H. unfold Py.u16. apply Z.mod_small. simpl. lia. Qed.

Lemma u8_small z : 0 <= z < 256 -> Py.u8 z = z.
Proof. intros H. unfold Py.u8. apply Z.mod_small. simpl. lia. Qed.

End Helpers.

(** ** Converter *)

Module ConverterFacts.
Import Py Converter.

Lemma ramp_length : length ASCII_CHARS = 67%nat.
Proof. reflexivity. Qed.

Lemma ramp_starts_with_space : nth_error ASCII_CHARS 0 = Some SPACE.
Proof. reflexivity. Qed.

(** The float64 mean of three channels, cut to uint8, is the integer
    quotient of their sum: checked on each of the 766 possible sums. *)
Lemma mean_of_sum (t : Z) :
  0 <= t < 766 ->
  float_astype_u8 (PrimFloat.div (float_of_int t) (float_of_int 3)) = t / 3.
Proof.
  intros Ht.
  apply Z.eqb_eq.
  revert t Ht.
  apply (forallb_upto
           (fun t => float_astype_u8
                       (PrimFloat.div (float_of_int t) (float_of_int 3))
                     =? t / 3) 766).
  vm_compute. reflexivity.
Qed.

Lemma brightness_is_mean r g b :
  is_u8 r -> is_u8 g -> is_u8 b -> brightness (r, g, b) = (r + g + b) / 3.
Proof.
  unfold is_u8, brightness, np_mean_axis2. intros Hr Hg Hb.
  apply mean_of_sum. lia.
Qed.

Lemma char_index_small v :
  0 <= v < 256 -> char_index v = v * 66 / 255 /\ 0 <= v * 66 / 255 <= 66.
Proof.
  intros Hv. unfold char_index. rewrite ramp_length.
  change (Z.of_nat 67 - 1) with 66.
  assert (Hq : 0 <= v * 66 / 255 <= 66).
  { split.
    - apply Z.div_pos; lia.
    - apply Z.div_le_upper_bound; lia. }
  rewrite (u16_small v) by lia.
  rewrite (u16_small (v * 66)) by lia.
  rewrite u8_small by lia. auto.
Qed.

Lemma quant6_small c :
  is_u8 c -> quant6 c = c * 6 / 256 /\ 0 <= c * 6 / 256 <= 5.
Proof.
  unfold is_u8, quant6. intros Hc.
  rewrite (u16_small c) by lia.
  rewrite (u16_small (c * 6)) by lia.
  split; [reflexivity|]. split.
  - apply Z.div_pos; lia.
  - enough (c * 6 / 256 < 6) by lia.
    apply Z.div_lt_upper_bound; lia.
Qed.

Lemma luma_range r g b :
  is_u8 r -> is_u8 g -> is_u8 b -> 0 <= (r + g + b) / 3 < 256.
Proof.
  unfold is_u8. intros Hr Hg Hb. split.
  - apply Z.div_pos; lia.
  - apply Z.div_lt_upper_bound; lia.
Qed.

Lemma lut_defined idx :
  0 <= idx <= 66 ->
  exists c, lut idx = Some c /\ nth_error ASCII_CHARS (Z.to_nat idx) = Some c.
Proof.
  intros Hidx. unfold lut, index, ASCII_LUT.
  destruct (Z.ltb_spec idx 0) as [Hneg|_]; [lia|].
  destruct (nth_error ASCII_CHARS (Z.to_nat idx)) as [c|] eqn:E.
  - exists c. auto.
  - apply nth_error_None in E. rewrite ramp_length in E. lia.
Qed.

Lemma pixel_glyph_index (r g b : Z) :
  is_u8 r -> is_u8 g -> is_u8 b ->
  exists c,
    nth_error ASCII_CHARS (Z.to_nat ((r + g + b) / 3 * 66 / 255)) = Some c /\
    pixel_glyph (r, g, b) = Some c.
Proof.
  intros Hr Hg Hb.
  pose proof (luma_range r g b Hr Hg Hb) as Hl.
  destruct (char_index_small _ Hl) as [Hci Hq].
  destruct (lut_defined _ Hq) as [c [Hlut Hnth]].
  exists c. split; [exact Hnth|].
  unfold pixel_glyph. rewrite brightness_is_mean by assumption.
  now rewrite Hci.
Qed.

(** For a pixel with 8-bit channels R, G, B the glyph is
    [ASCII_CHARS[luma * 66 / 255]] with [luma = (R + G + B) / 3] (both
    quotients truncated), the lookup never fails, and the same glyph is
    what each of the three per-pixel emitters yields: bare, wrapped in
    the colour escape, paired with the palette index. *)
Lemma pixel_emitters (r g b : Z) :
  is_u8 r -> is_u8 g -> is_u8 b ->
  let luma := (r + g + b) / 3 in
  exists c,
    nth_error ASCII_CHARS (Z.to_nat (luma * 66 / 255)) = Some c /\
    pixel_glyph (r, g, b) = Some c /\
    ansi_cell (r, g, b) =
      Some (ansi_prefix ++ fmt_d r ++ s ";" ++ fmt_d g ++ s ";" ++ fmt_d b
              ++ s "m" ++ [c] ++ ansi_suffix) /\
    color_cell (r, g, b) = Some (c, color_index (r, g, b)) /\
    length ASCII_CHARS = 67%nat /\
    nth_error ASCII_CHARS 0 = Some SPACE.
Proof.
  intros Hr Hg Hb luma.
  destruct (pixel_glyph_index r g b Hr Hg Hb) as [c [Hnth Hglyph]].
  exists c. repeat split; try assumption; try reflexivity.
  - unfold ansi_cell. rewrite Hglyph. reflexivity.
  - unfold color_cell. rewrite Hglyph. reflexivity.
Qed.

(** Brighter pixels never get an earlier glyph. *)
Lemma glyph_index_monotone (l1 l2 : Z) :
  0 <= l1 -> l1 <= l2 -> l2 < 256 -> char_index l1 <= char_index l2.
Proof.
  intros H0 H12 H2.
  destruct (char_index_small l1) as [-> _]; [lia|].
  destruct (char_index_small l2) as [-> _]; [lia|].
  apply Z.div_le_mono; lia.
Qed.

(** For a triple of 8-bit channels the palette index is
    [16 + 36 * (R*6/256) + 6 * (G*6/256) + (B*6/256)] (floor
    quotients; the uint16 arithmetic never wraps), it lies in 16..231,
    and it is the index [color_cell] pairs with the glyph. *)
Lemma color_index_formula (r g b : Z) :
  is_u8 r -> is_u8 g -> is_u8 b ->
  color_index (r, g, b)
    = 16 + 36 * (r * 6 / 256) + 6 * (g * 6 / 256) + b * 6 / 256 /\
  16 <= color_index (r, g, b) <= 231 /\
  (forall c idx, color_cell (r, g, b) = Some (c, idx) ->
                 idx = 16 + 36 * (r * 6 / 256) + 6 * (g * 6 / 256)
                       + b * 6 / 256).
Proof.
  intros Hr Hg Hb.
  destruct (quant6_small r Hr) as [Er Br].
  destruct (quant6_small g Hg) as [Eg Bg].
  destruct (quant6_small b Hb) as [Eb Bb].
  assert (E : color_index (r, g, b)
              = 16 + 36 * (r * 6 / 256) + 6 * (g * 6 / 256) + b * 6 / 256).
  { unfold color_index. rewrite Er, Eg, Eb.
    rewrite (u16_small (36 * _)) by lia.
    rewrite (u16_small (6 * _)) by lia.
    rewrite (u16_small (16 + _)) by lia.
    rewrite (u16_small (16 + _ + _)) by lia.
    rewrite u16_small by lia. reflexivity. }
  split; [exact E|]. split; [rewrite E; lia|].
  intros c idx H. unfold color_cell in H.
  destruct (pixel_glyph (r, g, b)); simpl in H; [|discriminate].
  injection H as _ <-. exact E.
Qed.

End ConverterFacts.

(** ** Pipeline *)

Module PipelineFacts.
Import Py Pipeline.

Section Extractor.

Variable Frame : Type.

Lemma read_loop_all fps (frames : list Frame) q :
  0 < fps ->
  read_loop fps frames None q = (q ++ map Some frames, Exhausted).
Proof.
  intros Hfps. revert q.
  induction frames as [|f frames IH]; intros q; cbn [read_loop map].
  - now rewrite app_nil_r.
  - destruct (Z.ltb_spec fps 0); [lia|]. cbn [option_map].
    rewrite IH. now rewrite <- app_assoc.
Qed.

(** A source that opens and is read to its end at a positive rate: the
    frames in capture order, then exactly one end-of-stream marker. *)
Lemma extract_frames_opened fps (frames : list Frame) q :
  0 < fps ->
  raw_queue
    (extract_frames {| isOpened := true; stream := frames |} fps None q)
  = q ++ map Some frames ++ [None].
Proof.
  intros Hfps. unfold extract_frames. cbn [isOpened negb stream].
  destruct (Z.eqb_spec fps 0); [lia|].
  rewrite read_loop_all by assumption. cbn [raw_queue].
  now rewrite <- app_assoc.
Qed.

(** C6 (the code departs from it). When the source does not open,
    [extract_frames] prints the error and returns at once, whatever
    [fps] is: the queue is left as it was, so on an empty queue no
    end-of-stream marker (and nothing else) is enqueued, and
    [cap.release()] is not reached either. The marker comes from the
    [finally] clause only: a source that opens gets it as the last
    item on every path through the [try] (end of stream, keyboard
    interrupt, a sleep that raises), that is whenever [fps] is not 0;
    with [fps = 0] the division before the [try] raises and again
    nothing is enqueued. *)
Theorem extract_frames_unopened (frames : list Frame) fps interrupt q :
  extract_frames {| isOpened := false; stream := frames |} fps interrupt q
  = {| raw_queue := q;
       printed := ["Errore: impossibile aprire il video."%string];
       released := false;
       raised := None |}
  /\ raw_queue
       (extract_frames {| isOpened := false; stream := frames |}
                       fps interrupt [])
     = []
  /\ (fps <> 0 ->
      exists before,
        raw_queue
          (extract_frames {| isOpened := true; stream := frames |}
                          fps interrupt q)
        = before ++ [None])
  /\ extract_frames {| isOpened := true; stream := frames |} 0 interrupt q
     = {| raw_queue := q;
          printed := [];
          released := false;
          raised := Some ZeroDivisionError |}.
Proof.
  split; [reflexivity|]. split; [reflexivity|]. split; [|reflexivity].
  intros Hfps. unfold extract_frames. cbn [isOpened negb stream].
  destruct (Z.eqb_spec fps 0); [contradiction|].
  destruct (read_loop fps frames interrupt q) as [q1 ending].
  cbn [raw_queue]. now exists q1.
Qed.

End Extractor.

Section ConverterLoop.

Variables Frame Ascii : Type.
Variable conversion_function : Frame * Z -> option Ascii.
Variable new_width : Z.

Lemma mapM_app {A B} (f : A -> option B) (l1 l2 : list A) r :
  mapM f (l1 ++ l2) = Some r ->
  exists r1 r2, mapM f l1 = Some r1 /\ mapM f l2 = Some r2 /\ r = r1 ++ r2.
Proof.
  revert r. induction l1 as [|a l1 IH]; intros r H; simpl in *.
  - exists [], r. auto.
  - destruct (f a) as [b|]; [|discriminate].
    destruct (mapM f (l1 ++ l2)) as [r'|] eqn:E; [|discriminate].
    injection H as <-.
    destruct (IH r' eq_refl) as [r1 [r2 [H1 [H2 ->]]]].
    exists (b :: r1), r2. rewrite H1. auto.
Qed.

Lemma ascii_queue_app (tr1 tr2 : list (Event Ascii)) :
  ascii_queue (tr1 ++ tr2) = ascii_queue tr1 ++ ascii_queue tr2.
Proof.
  induction tr1 as [|e tr1 IH]; simpl; [reflexivity|].
  destruct e; simpl; now rewrite IH.
Qed.

Lemma ascii_queue_puts (afs : list Ascii) ms :
  map fst (ascii_queue (map (fun af => Put af ms) afs)) = afs.
Proof.
  induction afs as [|a afs IH]; simpl; [reflexivity|]. now rewrite IH.
Qed.

(** What one pass of the [for] loop takes from the script. *)
Lemma collect_spec n : forall g batch batch' eos rest,
  collect new_width n g batch = (batch', eos, rest) ->
  exists fs : list Frame,
    batch' = batch ++ batch_of new_width fs /\
    items g = map Some fs ++ (if eos then [None] else []) ++ items rest /\
    (length rest <= length g)%nat /\
    ((0 < n)%nat -> g <> [] -> (length rest < length g)%nat).
Proof.
  induction n as [|n IH]; intros g batch batch' eos rest H; simpl in H.
  - injection H as <- <- <-. exists []. simpl.
    rewrite app_nil_r. repeat split; auto; lia.
  - destruct g as [|[|[frame|]] g'].
    + injection H as <- <- <-. exists []. simpl.
      rewrite app_nil_r. repeat split; auto. congruence.
    + injection H as <- <- <-. exists []. simpl.
      rewrite app_nil_r. repeat split; auto; simpl; lia.
    + apply IH in H. destruct H as [fs [Hb [Hi [Hle _]]]].
      exists (frame :: fs). simpl. rewrite Hi, Hb, <- app_assoc.
      repeat split; auto; simpl; lia.
    + injection H as <- <- <-. exists []. simpl.
      rewrite app_nil_r. repeat split; auto; simpl; lia.
Qed.

(** The pass that meets the marker with [fs] already collected. *)
Lemma collect_until_eos (fs : list Frame) : forall n rest batch,
  (length fs < n)%nat ->
  collect new_width n (map (fun f => Item (Some f)) fs ++ Item None :: rest)
          batch
  = (batch ++ batch_of new_width fs, true, rest).
Proof.
  induction fs as [|f fs IH]; intros n rest batch Hn;
    (destruct n as [|n]; [simpl in Hn; lia|]); simpl.
  - now rewrite app_nil_r.
  - rewrite IH by (simpl in Hn; lia). now rewrite <- app_assoc.
Qed.

Lemma somes_then_none (a b : list Frame) x y :
  map Some a ++ None :: x = map Some b ++ None :: y -> a = b /\ x = y.
Proof.
  revert b. induction a as [|u a IH]; intros [|v b] H; simpl in H;
    try discriminate.
  - injection H as <-. auto.
  - injection H as <- H. destruct (IH b H) as [-> ->]. auto.
Qed.

Lemma somes_prefix (a b : list Frame) x :
  map Some a ++ x = map Some b ++ [None] ->
  exists b', b = a ++ b' /\ x = map Some b' ++ [None].
Proof.
  revert b. induction a as [|u a IH]; intros b H; simpl in H.
  - exists b. auto.
  - destruct b as [|v b]; simpl in H.
    + destruct a; discriminate.
    + injection H as <- H. destruct (IH b H) as [b' [-> ->]].
      exists b'. auto.
Qed.

(** One round of the loop, spelled out. *)
Lemma convert_loop_round (elapsed : nat -> float) (k : Z) fuel st
      batch eos rest :
  stop_event st = false ->
  collect new_width (Z.to_nat k) (gets st) [] = (batch, eos, rest) ->
  convert_loop conversion_function new_width elapsed k (S fuel) st
  = let tr := if eos then trace st ++ [SetStop] else trace st in
    match batch with
    | [] =>
        convert_loop conversion_function new_width elapsed k fuel
          {| gets := rest; stop_event := eos; trace := tr;
             batch_no := batch_no st |}
    | _ :: _ =>
        match pool_map conversion_function batch with
        | None =>
            Some {| gets := rest; stop_event := eos;
                    trace := tr ++ [PrintError];
                    batch_no := batch_no st |}
        | Some ascii_frames =>
            convert_loop conversion_function new_width elapsed k fuel
              {| gets := rest; stop_event := eos;
                 trace := tr ++ map (fun af =>
                                       Put af (conversion_time_ms elapsed st
                                                 batch)) ascii_frames;
                 batch_no := S (batch_no st) |}
        end
    end.
Proof.
  intros Hs Hc. cbn [convert_loop]. rewrite Hs, Hc. reflexivity.
Qed.

Lemma convert_loop_stopped (elapsed : nat -> float) (k : Z) fuel st :
  stop_event st = true ->
  convert_loop conversion_function new_width elapsed k (S fuel) st = Some st.
Proof. intros Hs. cbn [convert_loop]. now rewrite Hs. Qed.

Lemma enqueued_stop (st : Conv Frame Ascii) (g : list (Got Frame)) b n :
  enqueued {| gets := g; stop_event := b;
              trace := trace st ++ [SetStop]; batch_no := n |}
  = enqueued st.
Proof.
  unfold enqueued. cbn [trace]. rewrite ascii_queue_app. cbn [ascii_queue].
  now rewrite app_nil_r.
Qed.

Lemma enqueued_puts (tr : list (Event Ascii)) (g : list (Got Frame)) b n
      afs ms :
  enqueued {| gets := g; stop_event := b;
              trace := tr ++ map (fun af => Put af ms) afs; batch_no := n |}
  = map fst (ascii_queue tr) ++ afs.
Proof.
  unfold enqueued. cbn [trace].
  now rewrite ascii_queue_app, map_app, ascii_queue_puts.
Qed.

(** The loop from any state whose script still holds [frames] and
    then the marker: it terminates, sets the stop flag, and adds the
    converted [frames] to the queue, in order. *)
Lemma convert_loop_complete (elapsed : nat -> float) (k : Z) :
  1 <= k ->
  forall fuel st frames afs,
    stop_event st = false ->
    items (gets st) = map Some frames ++ [None] ->
    (length (gets st) < fuel)%nat ->
    pool_map conversion_function (batch_of new_width frames) = Some afs ->
    exists st',
      convert_loop conversion_function new_width elapsed k fuel st
        = Some st' /\
      stop_event st' = true /\
      enqueued st' = enqueued st ++ afs.
Proof.
  intros Hk.
  induction fuel as [|fuel IH]; intros st frames afs Hs Hi Hf Hc; [lia|].
  destruct (collect new_width (Z.to_nat k) (gets st) []) as [[batch eos] rest]
    eqn:Ec.
  rewrite (convert_loop_round elapsed k fuel st _ _ _ Hs Ec). cbv zeta.
  destruct (collect_spec _ _ _ _ _ _ Ec) as [fs [Hb [Hit [_ Hlt]]]].
  cbn [app] in Hb. subst batch.
  assert (Hne : gets st <> []).
  { intros E. rewrite E in Hi. destruct frames; discriminate. }
  specialize (Hlt ltac:(lia) Hne).
  destruct fuel as [|fuel]; [lia|].
  rewrite Hi in Hit.
  destruct eos.
  - (* the marker was met: [fs] is everything that was left *)
    cbn [app] in Hit.
    destruct (somes_then_none _ _ _ _ Hit) as [<- _].
    destruct frames as [|f frames]; cbn [batch_of map] in *.
    + rewrite convert_loop_stopped by reflexivity.
      eexists. split; [reflexivity|]. split; [reflexivity|].
      cbn in Hc. injection Hc as <-.
      now rewrite enqueued_stop, app_nil_r.
    + rewrite Hc. rewrite convert_loop_stopped by reflexivity.
      eexists. split; [reflexivity|]. split; [reflexivity|].
      rewrite enqueued_puts, ascii_queue_app. cbn [ascii_queue].
      now rewrite app_nil_r.
  - (* a partial or full batch, more to come *)
    cbn [app] in Hit. symmetry in Hit.
    destruct (somes_prefix _ _ _ Hit) as [more [-> Hrest]].
    unfold pool_map, batch_of in Hc. rewrite map_app in Hc.
    destruct (mapM_app _ _ _ _ Hc) as [r1 [r2 [H1 [H2 ->]]]].
    destruct fs as [|f fs]; cbn [batch_of map] in *.
    + injection H1 as <-.
      edestruct (IH {| gets := rest; stop_event := false;
                       trace := trace st; batch_no := batch_no st |}
                    more r2)
        as [st' [Hrun [Hstop Hq]]]; try eassumption; try reflexivity.
      { cbn [gets]. lia. }
      exists st'. auto.
    + unfold pool_map. rewrite H1.
      edestruct (IH {| gets := rest; stop_event := false;
                       trace := trace st
                                ++ map (fun af =>
                                          Put af
                                            (conversion_time_ms elapsed st
                                               ((f, new_width)
                                                  :: map (fun frame =>
                                                            (frame, new_width))
                                                         fs))) r1;
                       batch_no := S (batch_no st) |} more r2)
        as [st' [Hrun [Hstop Hq]]]; try eassumption; try reflexivity.
      { cbn [gets]. lia. }
      exists st'. split; [exact Hrun|]. split; [exact Hstop|].
      rewrite Hq, enqueued_puts. now rewrite app_assoc.
Qed.

(** C5, amended. Whenever the conversion raises on none of the
    frames, a run with [batch_size = k >= 1] and a run with
    [batch_size = 1] both terminate and enqueue the same converted
    frames in the same order (the frames converted in input order),
    whatever the timing of the [get] calls and of the conversions. *)
Theorem batch_size_irrelevant
        (elapsed_k elapsed_1 : nat -> float) (k : Z)
        (frames : list Frame) (afs : list Ascii)
        (g_k g_1 : list (Got Frame)) (fuel_k fuel_1 : nat) :
  1 <= k ->
  items g_k = map Some frames ++ [None] ->
  items g_1 = map Some frames ++ [None] ->
  pool_map conversion_function (batch_of new_width frames) = Some afs ->
  (length g_k < fuel_k)%nat ->
  (length g_1 < fuel_1)%nat ->
  exists st_k st_1,
    convert_frames conversion_function new_width elapsed_k k fuel_k g_k
      = Some st_k /\
    convert_frames conversion_function new_width elapsed_1 1 fuel_1 g_1
      = Some st_1 /\
    enqueued st_k = afs /\
    enqueued st_1 = afs /\
    enqueued st_k = enqueued st_1.
Proof.
  intros Hk Hik Hi1 Hc Hfk Hf1.
  destruct (convert_loop_complete elapsed_k k Hk fuel_k
              {| gets := g_k; stop_event := false; trace := [];
                 batch_no := O |} frames afs)
    as [st_k [Rk [_ Qk]]]; auto.
  destruct (convert_loop_complete elapsed_1 1 ltac:(lia) fuel_1
              {| gets := g_1; stop_event := false; trace := [];
                 batch_no := O |} frames afs)
    as [st_1 [R1 [_ Q1]]]; auto.
  exists st_k, st_1. unfold convert_frames.
  rewrite Rk, R1, Qk, Q1. auto.
Qed.

(** C7, amended. In the round that dequeues the marker after [fs]
    (fewer than [batch_size] frames), the stop signal is set first;
    the frames of the partial batch are converted and enqueued after
    it, in order, and the loop is then left. *)
Theorem stop_then_flush
        (elapsed : nat -> float) (k : Z) (st : Conv Frame Ascii)
        (fs : list Frame) (rest : list (Got Frame)) (afs : list Ascii)
        (fuel : nat) :
  stop_event st = false ->
  gets st = map (fun f => Item (Some f)) fs ++ Item None :: rest ->
  (length fs < Z.to_nat k)%nat ->
  pool_map conversion_function (batch_of new_width fs) = Some afs ->
  exists st',
    convert_loop conversion_function new_width elapsed k (S (S fuel)) st
      = Some st' /\
    stop_event st' = true /\
    trace st' = trace st ++ SetStop
                  :: map (fun af =>
                            Put af (conversion_time_ms elapsed st
                                      (batch_of new_width fs))) afs.
Proof.
  intros Hs Hg Hn Hc.
  cbn [convert_loop]. rewrite Hs, Hg.
  rewrite collect_until_eos by assumption. simpl app.
  destruct fs as [|f fs].
  - simpl in Hc. injection Hc as <-. simpl.
    eexists. split; [reflexivity|]. auto.
  - change (batch_of new_width (f :: fs))
      with ((f, new_width) :: batch_of new_width fs) in *.
    rewrite Hc. cbn [stop_event].
    eexists. split; [reflexivity|]. split; [reflexivity|].
    cbn [trace]. now rewrite <- app_assoc.
Qed.

End ConverterLoop.

Import Samples.

Lemma batch_size_irrelevant_witness :
  exists st_k st_1,
    convert_frames to_curses 2 half_second 2 5 paused_script = Some st_k /\
    convert_frames to_curses 2 half_second 1 4 prompt_script = Some st_1 /\
    enqueued st_k = [s "nn"; s "nn"] /\
    enqueued st_1 = [s "nn"; s "nn"] /\
    enqueued st_k = enqueued st_1.
Proof.
  apply (batch_size_irrelevant Converter.Image str to_curses 2
           half_second half_second 2 [square_frame; square_frame]
           [s "nn"; s "nn"] paused_script prompt_script 5 4).
  - lia.
  - reflexivity.
  - reflexivity.
  - vm_compute. reflexivity.
  - simpl. lia.
  - simpl. lia.
Defined.

(** C5 as stated fails when a conversion raises: with [batch_size = 2]
    the good frame shares a batch with the rejected one and is lost with
    it, with [batch_size = 1] it has already been enqueued. *)
Lemma batch_size_matters_on_failure :
  exists st_2 st_1,
    convert_frames to_curses 2 half_second 2 4 mixed_script = Some st_2 /\
    convert_frames to_curses 2 half_second 1 4 mixed_script = Some st_1 /\
    enqueued st_2 = [] /\
    enqueued st_1 = [s "nn"] /\
    enqueued st_2 <> enqueued st_1.
Proof.
  eexists. eexists.
  split; [vm_compute; reflexivity|].
  split; [vm_compute; reflexivity|].
  split; [reflexivity|]. split; [reflexivity|]. discriminate.
Defined.

Lemma stop_then_flush_witness :
  exists st',
    convert_loop to_curses 2 half_second 2 2
      {| gets := short_script; stop_event := false; trace := [];
         batch_no := O |} = Some st' /\
    stop_event st' = true /\
    trace st' = [SetStop; Put (s "nn") 500%float].
Proof.
  apply (stop_then_flush Converter.Image str to_curses 2 half_second 2
           {| gets := short_script; stop_event := false; trace := [];
              batch_no := O |}
           [square_frame] [] [s "nn"] 0).
  - reflexivity.
  - reflexivity.
  - simpl. lia.
  - vm_compute. reflexivity.
Defined.

(** C7 as stated fails: in the run below the stop signal is set before
    the frame of the partial batch is put on the queue. *)
Lemma stop_set_before_flush :
  exists st,
    convert_frames to_curses 2 half_second 2 3 short_script = Some st /\
    trace st = [SetStop; Put (s "nn") 500%float] /\
    ~ flush_precedes_stop (trace st).
Proof.
  eexists. split; [vm_compute; reflexivity|].
  split; [reflexivity|].
  intros H. specialize (H [] [Put (s "nn") 500%float] eq_refl).
  discriminate H.
Defined.

End PipelineFacts.

(** ** Renderer *)

Module RendererFacts.
Import Py Converter Renderer Notions.

(** *** The line diff *)

Lemma diff_round_differs new_lines old_lines acc i :
  diff_round new_lines old_lines acc i
  = if differs new_lines old_lines i then acc ++ [i] else acc.
Proof.
  unfold diff_round, differs.
  destruct ((length new_lines <=? i)%nat && (length old_lines <=? i)%nat);
    simpl; [reflexivity|].
  destruct (negb (_ =? _)%nat); simpl; [reflexivity|].
  destruct (chars_differ _ _); reflexivity.
Qed.

(** On two lists that are not empty the diff returns, and what it
    returns is the indices that pass the test of a round. *)
Lemma fast_diff_lines_filter new_lines old_lines max_lines :
  new_lines <> [] -> old_lines <> [] ->
  fast_diff_lines new_lines old_lines max_lines
  = Some (filter (differs new_lines old_lines) (seq 0 max_lines)).
Proof.
  intros Hn Ho. unfold fast_diff_lines.
  destruct new_lines as [|n new_lines]; [congruence|].
  destruct old_lines as [|o old_lines]; [congruence|].
  f_equal.
  enough (H : forall l acc,
             fold_left (diff_round (n :: new_lines) (o :: old_lines)) l acc
             = acc ++ filter (differs (n :: new_lines) (o :: old_lines)) l)
    by (now rewrite H).
  induction l as [|i l IH]; intros acc; simpl fold_left; simpl filter.
  - now rewrite app_nil_r.
  - rewrite IH, diff_round_differs.
    destruct (differs (n :: new_lines) (o :: old_lines) i); [|reflexivity].
    now rewrite <- app_assoc.
Qed.

Lemma chars_differ_same a : chars_differ a a = false.
Proof.
  unfold chars_differ. apply not_true_is_false. intros H.
  apply existsb_exists in H. destruct H as [j [Hj H]].
  apply in_seq in Hj. rewrite Ascii.eqb_refl in H. simpl in H.
  rewrite orb_false_r in H. apply Nat.leb_le in H. lia.
Qed.

Lemma chars_differ_none a b :
  length a = length b -> chars_differ a b = false -> a = b.
Proof.
  intros Hlen H.
  apply (nth_ext a b SPACE SPACE Hlen). intros j Hj.
  unfold chars_differ in H.
  destruct (Ascii.eqb_spec (nth j a SPACE) (nth j b SPACE)) as [E|N];
    [exact E|].
  exfalso.
  assert (Hex : existsb
                  (fun j => (length b <=? j)%nat
                            || negb (Ascii.eqb (nth j a SPACE) (nth j b SPACE)))
                  (seq 0 (length a)) = true).
  { apply existsb_exists. exists j. split; [apply in_seq; lia|].
    apply Ascii.eqb_neq in N. rewrite N. apply orb_true_r. }
  congruence.
Qed.

Lemma default_line (lines : list str) i :
  (if (i <? length lines)%nat then nth i lines [] else []) = nth i lines [].
Proof.
  destruct (Nat.ltb_spec i (length lines)); [reflexivity|].
  now rewrite nth_overflow.
Qed.

(** An index passes the test exactly when the two lines there differ,
    a missing line counting as empty. *)
Lemma differs_iff new_lines old_lines i :
  differs new_lines old_lines i = true
  <-> nth i new_lines [] <> nth i old_lines [].
Proof.
  unfold differs. rewrite !default_line. split.
  - intros H E. apply andb_prop in H. destruct H as [_ H].
    rewrite E, Nat.eqb_refl, chars_differ_same in H. discriminate.
  - intros N.
    destruct ((length new_lines <=? i)%nat && (length old_lines <=? i)%nat)
      eqn:Eout; simpl.
    + apply andb_prop in Eout. destruct Eout as [E1 E2].
      apply Nat.leb_le in E1, E2.
      rewrite !nth_overflow in N by assumption. congruence.
    + destruct (Nat.eqb_spec (length (nth i new_lines []))
                             (length (nth i old_lines []))) as [El|]; simpl;
        [|reflexivity].
      destruct (chars_differ (nth i new_lines []) (nth i old_lines []))
        eqn:Ec; [reflexivity|].
      exfalso. apply N. now apply chars_differ_none.
Qed.

Lemma differing_In new_lines old_lines max_lines i :
  In i (filter (differs new_lines old_lines) (seq 0 max_lines))
  <-> (i < max_lines)%nat /\ nth i new_lines [] <> nth i old_lines [].
Proof.
  rewrite filter_In, in_seq, differs_iff. intuition lia.
Qed.

Lemma differing_NoDup new_lines old_lines max_lines :
  NoDup (filter (differs new_lines old_lines) (seq 0 max_lines)).
Proof. apply NoDup_filter, seq_NoDup. Qed.

(** *** Writing to the grid *)

Lemma write_cells text : forall t,
  no_newline text ->
  cur_row (write t text) = cur_row t /\
  cur_col (write t text) = (cur_col t + length text)%nat /\
  forall r k,
    cells (write t text) r k
    = if (r =? cur_row t)%nat && (cur_col t <=? k)%nat
         && (k <? cur_col t + length text)%nat
      then nth (k - cur_col t) text SPACE
      else cells t r k.
Proof.
  induction text as [|c text IH]; intros t Hnl.
  - simpl. repeat split; try lia. intros r k.
    destruct (r =? cur_row t)%nat; simpl; [|reflexivity].
    destruct (Nat.leb_spec (cur_col t) k); simpl; [|reflexivity].
    destruct (Nat.ltb_spec k (cur_col t + 0)); [lia|reflexivity].
  - assert (Hc : Ascii.eqb c NL = false).
    { apply Ascii.eqb_neq. intros ->. apply Hnl. now left. }
    assert (Hnl' : no_newline text).
    { intros H. apply Hnl. now right. }
    assert (Hput : cur_row (put_char t c) = cur_row t /\
                   cur_col (put_char t c) = S (cur_col t) /\
                   forall r k, cells (put_char t c) r k
                               = if (r =? cur_row t)%nat && (k =? cur_col t)%nat
                                 then c else cells t r k).
    { unfold put_char. rewrite Hc. simpl. auto. }
    destruct Hput as [Pr [Pk Pc]].
    change (write t (c :: text)) with (write (put_char t c) text).
    destruct (IH (put_char t c) Hnl') as [Hr [Hk Hcells]].
    rewrite Hr, Hk, Pr, Pk. simpl length.
    repeat split; try lia. intros r k. rewrite Hcells, Pr, Pk, Pc.
    destruct (Nat.eqb_spec r (cur_row t)) as [->|]; cbn [andb];
      [|reflexivity].
    destruct (Nat.leb_spec (S (cur_col t)) k);
      destruct (Nat.leb_spec (cur_col t) k); try lia; cbn [andb].
    + destruct (Nat.ltb_spec k (S (cur_col t) + length text));
        destruct (Nat.ltb_spec k (cur_col t + S (length text))); try lia.
      * replace (k - cur_col t)%nat with (S (k - S (cur_col t))) by lia.
        reflexivity.
      * destruct (Nat.eqb_spec k (cur_col t)); [lia|reflexivity].
    + assert (k = cur_col t) as -> by lia.
      rewrite Nat.eqb_refl, Nat.sub_diag.
      destruct (Nat.ltb_spec (cur_col t) (cur_col t + S (length text)));
        [reflexivity|lia].
    + destruct (Nat.eqb_spec k (cur_col t)); [lia|reflexivity].
Qed.

(** *** The terminal *)

Lemma feed_app t a b : feed t (a ++ b) = feed (feed t a) b.
Proof. apply fold_left_app. Qed.

Lemma feed_char_size t c :
  columns (feed_char t c) = columns t /\ lines (feed_char t c) = lines t.
Proof.
  unfold feed_char, print, dispatch, with_screen, with_parser.
  destruct (Ascii.eqb c ESC); [split; reflexivity|].
  destruct (parser t) as [| |params current].
  - destruct (Ascii.eqb c NL); [split; reflexivity|].
    destruct (32 <=? nat_of_ascii c)%nat; split; reflexivity.
  - destruct (Ascii.eqb c "["); split; reflexivity.
  - destruct (is_digit c); [split; reflexivity|].
    destruct (Ascii.eqb c ";"); [split; reflexivity|].
    destruct (64 <=? nat_of_ascii c)%nat; [|split; reflexivity].
    cbn [columns lines screen parser].
    destruct (_ || _); [split; reflexivity|].
    destruct (_ && _); split; reflexivity.
Qed.

Lemma feed_size text : forall t,
  columns (feed t text) = columns t /\ lines (feed t text) = lines t.
Proof.
  induction text as [|c text IH]; intros t; [split; reflexivity|].
  change (feed t (c :: text)) with (feed (feed_char t c) text).
  destruct (IH (feed_char t c)) as [-> ->]. apply feed_char_size.
Qed.

Lemma emit_all_size out : forall t,
  columns (emit_all t out) = columns t /\ lines (emit_all t out) = lines t.
Proof.
  induction out as [|c out IH]; intros t; [split; reflexivity|].
  change (emit_all t (c :: out)) with (emit_all (emit t c) out).
  destruct (IH (emit t c)) as [-> ->]. apply feed_size.
Qed.

(** **** The decimal row number of the cursor move *)

Lemma digit_is_digit d : (d < 10)%nat -> is_digit (digit d) = true.
Proof.
  intros H. do 10 (destruct d as [|d]; [reflexivity|]). lia.
Qed.

Lemma digit_value d : (d < 10)%nat -> (nat_of_ascii (digit d) - 48 = d)%nat.
Proof.
  intros H. do 10 (destruct d as [|d]; [reflexivity|]). lia.
Qed.

Lemma digit_not_esc d : (d < 10)%nat -> Ascii.eqb (digit d) ESC = false.
Proof.
  intros H. do 10 (destruct d as [|d]; [reflexivity|]). lia.
Qed.

Lemma feed_digit t params current d :
  (d < 10)%nat ->
  parser t = Csi params current ->
  feed_char t (digit d) = with_parser t (Csi params (10 * current + d)).
Proof.
  intros Hd Hp. unfold feed_char.
  rewrite digit_not_esc, Hp, digit_is_digit, digit_value by assumption.
  reflexivity.
Qed.

(** Reading the digits of [n], as [dec_nat] produces them, leaves [n]
    as the current parameter. *)
Lemma feed_dec_nat : forall fuel n acc t params,
  (n < fuel)%nat ->
  parser t = Csi params 0 ->
  feed t (dec_nat fuel n acc) = feed (with_parser t (Csi params n)) acc.
Proof.
  induction fuel as [|fuel IH]; intros n acc t params Hn Hp; [lia|].
  cbn [dec_nat].
  assert (Hmod : (n mod 10 < 10)%nat) by (apply Nat.mod_upper_bound; lia).
  destruct (Nat.ltb_spec n 10) as [Hsmall|Hbig].
  - change (feed t (digit (n mod 10) :: acc))
      with (feed (feed_char t (digit (n mod 10))) acc).
    rewrite (feed_digit t params 0) by assumption.
    rewrite Nat.mod_small by assumption.
    now replace (10 * 0 + n)%nat with n by lia.
  - assert (Hdiv : (n / 10 < fuel)%nat).
    { apply Nat.Div0.div_lt_upper_bound. lia. }
    rewrite (IH (n / 10)%nat _ t params Hdiv Hp).
    change (feed (with_parser t (Csi params (n / 10)))
                 (digit (n mod 10) :: acc))
      with (feed (feed_char (with_parser t (Csi params (n / 10)))
                            (digit (n mod 10))) acc).
    rewrite (feed_digit _ params (n / 10)%nat) by (assumption || reflexivity).
    unfold with_parser. cbn [screen columns lines parser].
    do 3 f_equal. pose proof (Nat.div_mod_eq n 10). lia.
Qed.

Lemma feed_semicolon t params current :
  parser t = Csi params current ->
  feed_char t ";"%char = with_parser t (Csi (params ++ [current]) O).
Proof. intros Hp. unfold feed_char. rewrite Hp. reflexivity. Qed.

Lemma feed_final t params current (c : ascii) :
  parser t = Csi params current ->
  Ascii.eqb c ESC = false -> is_digit c = false ->
  Ascii.eqb c ";" = false -> (64 <=? nat_of_ascii c)%nat = true ->
  feed_char t c = dispatch (with_parser t Ground) c (params ++ [current]).
Proof.
  intros Hp H1 H2 H3 H4. unfold feed_char. now rewrite H1, Hp, H2, H3, H4.
Qed.

Lemma feed_bracket t :
  parser t = Escape -> feed_char t "["%char = with_parser t (Csi [] O).
Proof. intros Hp. unfold feed_char. rewrite Hp. reflexivity. Qed.

Lemma feed_csi t :
  feed t (ESC :: s "[") = with_parser t (Csi [] O).
Proof.
  unfold s, feed. cbn [list_ascii_of_string fold_left].
  unfold feed_char at 2. rewrite Ascii.eqb_refl.
  unfold feed_char, with_parser. reflexivity.
Qed.

(** The cursor move [ESC [ row ; 1 H], from any state of the parser:
    to the first column of the row, or of the last row when the
    terminal has fewer. *)
Lemma feed_goto t row :
  (1 <= row)%nat ->
  feed t (GOTO_FORMAT row)
  = {| screen := {| cells := cells (screen t);
                    cur_row := (Nat.min row (lines t) - 1)%nat;
                    cur_col := O |};
       columns := columns t; lines := lines t; parser := Ground |}.
Proof.
  intros Hrow. unfold GOTO_FORMAT, fmt_d.
  destruct (Z.ltb_spec (Z.of_nat row) 0) as [|_]; [lia|].
  rewrite Nat2Z.id, !feed_app, feed_csi.
  rewrite (feed_dec_nat (S row) row [] _ []) by (lia || reflexivity).
  unfold s, feed. cbn [list_ascii_of_string fold_left].
  rewrite (feed_semicolon _ [] row) by reflexivity.
  rewrite (feed_digit _ [row] 0 1) by (lia || reflexivity).
  rewrite (feed_final _ [row] (10 * 0 + 1)%nat "H"%char) by reflexivity.
  unfold dispatch, with_parser, with_screen, arg.
  cbn [screen columns lines parser app nth Ascii.eqb Bool.eqb orb].
  replace (10 * 0 + 1)%nat with 1%nat by reflexivity.
  destruct row as [|row']; [lia|].
  destruct (columns t) as [|w]; reflexivity.
Qed.

(** **** Colour text *)

Lemma visible_strip line : forall b,
  visible b line = length (strip_ansi b line).
Proof.
  induction line as [|c line IH]; intros b; [reflexivity|].
  cbn [visible strip_ansi]. destruct b; [apply IH|].
  destruct (Ascii.eqb c ESC); [apply IH|]. cbn [length]. now rewrite IH.
Qed.

Lemma visible_width_strip line :
  visible_width line = length (strip_ansi false line).
Proof. apply visible_strip. Qed.

Lemma strip_ansi_In c line : forall b,
  In c (strip_ansi b line) -> In c line.
Proof.
  induction line as [|a line IH]; intros b H; [exact H|].
  cbn [strip_ansi] in H. destruct b; [right; exact (IH _ H)|].
  destruct (Ascii.eqb a ESC); [right; exact (IH _ H)|].
  destruct H as [->|H]; [now left|right; exact (IH _ H)].
Qed.

Lemma strip_ansi_clean line b :
  no_newline line -> no_newline (strip_ansi b line).
Proof. intros Hn H. apply Hn. exact (strip_ansi_In _ _ _ H). Qed.

(** Spaces appended to colour text are appended to what it shows. *)
Lemma strip_ansi_padded line n : forall st,
  colour_scan st line = true ->
  strip_ansi (in_escape st) (line ++ repeat SPACE n)
  = strip_ansi (in_escape st) line ++ repeat SPACE n.
Proof.
  induction line as [|c line IH]; intros st H.
  - destruct st; try discriminate. cbn [app in_escape strip_ansi].
    induction n as [|n IHn]; [reflexivity|].
    cbn [repeat strip_ansi]. change (Ascii.eqb SPACE ESC) with false.
    cbv iota. now rewrite IHn.
  - cbn [app]. cbn [colour_scan] in H. destruct st; cbn [in_escape strip_ansi].
    + destruct (Ascii.eqb c ESC).
      * exact (IH AfterEsc H).
      * apply andb_prop in H. destruct H as [_ H].
        cbn [app]. f_equal. exact (IH InText H).
    + apply andb_prop in H. destruct H as [Hc H].
      apply Ascii.eqb_eq in Hc. subst c. exact (IH InParams H).
    + destruct (Ascii.eqb c "m").
      * exact (IH InText H).
      * apply andb_prop in H. destruct H as [_ H]. exact (IH InParams H).
Qed.

Lemma colour_scan_padded line n : forall st,
  colour_scan st (line ++ repeat SPACE n) = true ->
  n = O \/ colour_scan st line = true.
Proof.
  destruct n as [|n]; [now left|]. right. revert st H.
  induction line as [|c line IH]; intros st H.
  - destruct st; [reflexivity|discriminate H|discriminate H].
  - cbn [app colour_scan] in *. destruct st.
    + destruct (Ascii.eqb c ESC); [exact (IH _ H)|].
      apply andb_prop in H. destruct H as [Hc H].
      rewrite Hc. exact (IH _ H).
    + apply andb_prop in H. destruct H as [Hc H].
      rewrite Hc. exact (IH _ H).
    + destruct (Ascii.eqb c "m"); [exact (IH _ H)|].
      apply andb_prop in H. destruct H as [Hc H].
      rewrite Hc. exact (IH _ H).
Qed.

Lemma print_put_char t c :
  Ascii.eqb c NL = false ->
  (cur_col (screen t) < columns t)%nat ->
  print t c = with_screen t (put_char (screen t) c).
Proof.
  intros Hc Hk. unfold print, put_char.
  rewrite (proj2 (Nat.ltb_lt _ _) Hk), Hc. reflexivity.
Qed.

Lemma printable_not_control c :
  (32 <=? nat_of_ascii c)%nat = true ->
  Ascii.eqb c NL = false.
Proof.
  intros H. apply Ascii.eqb_neq. intros ->. discriminate H.
Qed.

Lemma parameter_not_esc c :
  is_digit c || Ascii.eqb c ";" = true -> Ascii.eqb c ESC = false.
Proof.
  intros H. apply Ascii.eqb_neq. intros ->. discriminate H.
Qed.

(** Colour text that fits in what is left of the cursor's row: its
    visible characters are written from the cursor on, as [write]
    does, and the parser is back in plain text. *)
Lemma feed_colour_text line : forall st t,
  colour_scan st line = true ->
  scanning st (parser t) ->
  (cur_col (screen t) + length (strip_ansi (in_escape st) line)
   <= columns t)%nat ->
  feed t line
  = {| screen := write (screen t) (strip_ansi (in_escape st) line);
       columns := columns t; lines := lines t; parser := Ground |}.
Proof.
  induction line as [|c line IH]; intros st t Hscan Hst Hfit.
  - destruct st; try discriminate. cbn in Hst. cbn.
    destruct t as [scr w h p]. cbn in *. now subst p.
  - change (feed t (c :: line)) with (feed (feed_char t c) line).
    cbn [colour_scan] in Hscan. destruct st; cbn [in_escape strip_ansi] in *.
    + (* plain text *)
      unfold feed_char. destruct (Ascii.eqb c ESC) eqn:Ec.
      * rewrite (IH AfterEsc (with_parser t Escape) Hscan eq_refl Hfit).
        reflexivity.
      * apply andb_prop in Hscan. destruct Hscan as [Hc Hscan].
        rewrite Hst, (printable_not_control c Hc), Hc.
        cbn [length] in Hfit.
        rewrite print_put_char
          by (apply (printable_not_control c Hc) || lia).
        rewrite (IH InText _ Hscan); cbn [with_screen parser screen columns
                                           lines in_escape].
        -- reflexivity.
        -- exact Hst.
        -- unfold put_char. rewrite (printable_not_control c Hc).
           cbn [cur_col]. lia.
    + (* after ESC *)
      apply andb_prop in Hscan. destruct Hscan as [Hc Hscan].
      apply Ascii.eqb_eq in Hc. subst c.
      rewrite (feed_bracket t Hst).
      change (negb (Ascii.eqb "[" "m")) with true in *.
      rewrite (IH InParams (with_parser t (Csi [] O)) Hscan); cbn; eauto.
    + (* among the parameters *)
      destruct Hst as [params [current Hp]].
      destruct (Ascii.eqb c "m") eqn:Em.
      * apply Ascii.eqb_eq in Em. subst c.
        rewrite (feed_final t params current "m"%char Hp) by reflexivity.
        unfold dispatch. cbn [Ascii.eqb Bool.eqb orb andb negb].
        rewrite (IH InText (with_parser t Ground) Hscan eq_refl Hfit).
        reflexivity.
      * apply andb_prop in Hscan. destruct Hscan as [Hc Hscan].
        cbn [negb]. unfold feed_char.
        rewrite (parameter_not_esc c Hc), Hp.
        destruct (is_digit c).
        -- rewrite (IH InParams _ Hscan); cbn; eauto.
        -- cbn [orb] in Hc. rewrite Hc.
           rewrite (IH InParams _ Hscan); cbn; eauto.
Qed.

(** A cursor move to row [i + 1] followed by a text that stays on its
    row replaces the first cells of one row, as many as the text has
    visible characters, and nothing else: row [i] when the terminal
    has it, its last row otherwise. *)
Lemma emit_at t i text :
  one_row t text -> no_newline text ->
  emit t (At (i + 1) text)
  = {| screen := write {| cells := cells (screen t);
                          cur_row := Nat.min (i + 1) (lines t) - 1;
                          cur_col := O |}
                       (strip_ansi false text);
       columns := columns t; lines := lines t; parser := Ground |}.
Proof.
  intros [Hcol Hw] Hnl. unfold emit. cbn [chunk_text].
  rewrite feed_app, feed_goto by lia.
  rewrite (feed_colour_text text InText) by
    (exact Hcol || reflexivity
     || (cbn; rewrite <- visible_width_strip; exact Hw)).
  reflexivity.
Qed.

Lemma emit_at_cells t i text r k :
  one_row t text -> no_newline text ->
  cells (screen (emit t (At (i + 1) text))) r k
  = if (r =? Nat.min (i + 1) (lines t) - 1)%nat
       && (k <? visible_width text)%nat
    then nth k (strip_ansi false text) SPACE
    else cells (screen t) r k.
Proof.
  intros H1 Hnl. rewrite (emit_at t i text H1 Hnl). cbn [screen].
  destruct (write_cells (strip_ansi false text)
              {| cells := cells (screen t);
                 cur_row := Nat.min (i + 1) (lines t) - 1; cur_col := O |}
              (strip_ansi_clean text false Hnl)) as [_ [_ H]].
  rewrite H. cbn [cur_row cur_col cells].
  rewrite Nat.sub_0_r, andb_true_r, visible_width_strip. reflexivity.
Qed.

Lemma one_row_emit t c text : one_row t text -> one_row (emit t c) text.
Proof.
  intros [Hc Hw]. unfold one_row, emit.
  destruct (feed_size (chunk_text c) t) as [-> _]. auto.
Qed.

Lemma emit_lines t c : lines (emit t c) = lines t.
Proof. unfold emit. apply feed_size. Qed.

Section Rows.

(** The text written at each index. *)
Variable text_at : nat -> str.
Hypothesis text_clean : forall i, no_newline (text_at i).

Lemma emit_rows_other idxs : forall t r k,
  (forall i, In i idxs -> one_row t (text_at i)) ->
  (forall i, In i idxs -> (Nat.min (i + 1) (lines t) - 1)%nat <> r) ->
  cells (screen (emit_all t (map (fun i => At (i + 1) (text_at i)) idxs)))
        r k
  = cells (screen t) r k.
Proof.
  induction idxs as [|i idxs IH]; intros t r k Hok Hr; [reflexivity|].
  change (emit_all t (map (fun i => At (i + 1) (text_at i)) (i :: idxs)))
    with (emit_all (emit t (At (i + 1) (text_at i)))
                   (map (fun i => At (i + 1) (text_at i)) idxs)).
  rewrite IH.
  - rewrite emit_at_cells
      by (apply Hok; now left) || apply text_clean.
    destruct (Nat.eqb_spec r (Nat.min (i + 1) (lines t) - 1)) as [E|];
      [|reflexivity].
    exfalso. apply (Hr i (or_introl eq_refl)). now symmetry.
  - intros j Hj. apply one_row_emit, Hok. now right.
  - intros j Hj. rewrite emit_lines. apply Hr. now right.
Qed.

Lemma emit_rows_written idxs : forall t r k,
  (forall i, In i idxs -> (i < lines t)%nat /\ one_row t (text_at i)) ->
  NoDup idxs -> In r idxs ->
  cells (screen (emit_all t (map (fun i => At (i + 1) (text_at i)) idxs)))
        r k
  = if (k <? visible_width (text_at r))%nat
    then nth k (strip_ansi false (text_at r)) SPACE
    else cells (screen t) r k.
Proof.
  induction idxs as [|i idxs IH]; intros t r k Hok Hnd Hr; [destruct Hr|].
  inversion Hnd as [|? ? Hni Hnd']; subst.
  change (emit_all t (map (fun i => At (i + 1) (text_at i)) (i :: idxs)))
    with (emit_all (emit t (At (i + 1) (text_at i)))
                   (map (fun i => At (i + 1) (text_at i)) idxs)).
  destruct (Hok i (or_introl eq_refl)) as [Hi H1].
  assert (Hok' : forall j, In j idxs ->
                   (j < lines (emit t (At (i + 1) (text_at i))))%nat
                   /\ one_row (emit t (At (i + 1) (text_at i))) (text_at j)).
  { intros j Hj. destruct (Hok j (or_intror Hj)) as [Hjl Hj1].
    rewrite emit_lines. split; [exact Hjl|now apply one_row_emit]. }
  destruct Hr as [->|Hr].
  - rewrite emit_rows_other.
    + rewrite emit_at_cells by (assumption || apply text_clean).
      replace (Nat.min (r + 1) (lines t) - 1)%nat with r by lia.
      now rewrite Nat.eqb_refl.
    + intros j Hj. now apply Hok'.
    + intros j Hj E. destruct (Hok' j Hj) as [Hjl _].
      assert (j = r) by lia. subst j. contradiction.
  - rewrite IH by assumption.
    rewrite emit_at_cells by (assumption || apply text_clean).
    replace (Nat.min (i + 1) (lines t) - 1)%nat with i by lia.
    destruct (Nat.eqb_spec r i) as [->|]; [contradiction|reflexivity].
Qed.

End Rows.

(** *** One diffed frame *)

Lemma split_nl_clean text : forall cur,
  no_newline cur -> Forall no_newline (split_nl text cur).
Proof.
  induction text as [|c text IH]; intros cur Hcur; simpl.
  - constructor; [|constructor]. unfold no_newline. now rewrite <- in_rev.
  - destruct (Ascii.eqb_spec c NL) as [->|Hc].
    + constructor.
      * unfold no_newline. now rewrite <- in_rev.
      * apply IH. intros [].
    + apply IH. intros [E|H]; [congruence|contradiction].
Qed.

Lemma frame_line_clean ascii_frame i :
  no_newline (nth i (split_lines ascii_frame) []).
Proof.
  pose proof (split_nl_clean ascii_frame [] (fun H => H)) as H.
  rewrite Forall_forall in H.
  destruct (Nat.ltb_spec i (length (split_lines ascii_frame))) as [Hi|Hi].
  - apply H, nth_In, Hi.
  - rewrite nth_overflow by assumption. intros [].
Qed.

(** [split] never returns an empty list. *)
Lemma split_nl_nonempty text : forall cur, split_nl text cur <> [].
Proof.
  induction text as [|c text IH]; intros cur; simpl; [discriminate|].
  destruct (Ascii.eqb c NL); [discriminate|apply IH].
Qed.

Lemma split_lines_nonempty ascii_frame : split_lines ascii_frame <> [].
Proof. apply split_nl_nonempty. Qed.

Lemma pad_line_clean prev i new_line :
  no_newline new_line -> no_newline (pad_line prev i new_line).
Proof.
  intros Hn. unfold pad_line.
  destruct (i <? length prev)%nat; [|exact Hn].
  destruct (length new_line <? length (nth i prev []))%nat; [|exact Hn].
  intros H. apply in_app_or in H. destruct H as [H|H]; [now apply Hn|].
  apply repeat_spec in H. discriminate H.
Qed.

Lemma nth_strip r (lines : list str) :
  nth r (map (strip_ansi false) lines) [] = strip_ansi false (nth r lines []).
Proof. exact (map_nth (strip_ansi false) lines [] r). Qed.

(** What a padded line shows is the new line followed by spaces. *)
Lemma pad_line_strip prev i new_line :
  colour_text (pad_line prev i new_line) = true ->
  exists n,
    strip_ansi false (pad_line prev i new_line)
    = strip_ansi false new_line ++ repeat SPACE n.
Proof.
  unfold pad_line. intros Hc.
  destruct (i <? length prev)%nat;
    [|exists O; now rewrite app_nil_r].
  destruct (length new_line <? length (nth i prev []))%nat;
    [|exists O; now rewrite app_nil_r].
  destruct (colour_scan_padded _ _ InText Hc) as [E|Hn].
  - exists O. now rewrite E, !app_nil_r.
  - eexists. exact (strip_ansi_padded new_line _ InText Hn).
Qed.

(** Over the old line, a padded line that covers it shows the new
    line. *)
Lemma pad_line_cells (t : Tty) prev i new_line k :
  covers t (nth i prev []) (pad_line prev i new_line) ->
  (if (k <? visible_width (pad_line prev i new_line))%nat
   then nth k (strip_ansi false (pad_line prev i new_line)) SPACE
   else nth k (strip_ansi false (nth i prev [])) SPACE)
  = nth k (strip_ansi false new_line) SPACE.
Proof.
  intros [[Hc _] Hw].
  destruct (pad_line_strip prev i new_line Hc) as [n E].
  rewrite !visible_width_strip in *. rewrite E in *.
  rewrite length_app, repeat_length in *.
  destruct (Nat.ltb_spec k (length (strip_ansi false new_line) + n)) as [Hk|Hk].
  - destruct (Nat.lt_ge_cases k (length (strip_ansi false new_line)))
      as [Hkn|Hkn].
    + now rewrite app_nth1.
    + rewrite app_nth2 by assumption.
      rewrite nth_repeat. now rewrite nth_overflow.
  - rewrite !nth_overflow by lia. reflexivity.
Qed.

Lemma diff_writes_map frame_lines prev :
  frame_lines <> [] -> prev <> [] ->
  diff_writes frame_lines prev
  = Some (map (fun i => At (i + 1) (pad_line prev i (nth i frame_lines [])))
              (filter (fun i => (i <? length frame_lines)%nat)
                      (filter (differs frame_lines prev)
                              (seq 0 (Nat.max (length frame_lines)
                                              (length prev)))))).
Proof.
  intros Hn Ho. unfold diff_writes.
  rewrite (fast_diff_lines_filter _ _ _ Hn Ho). cbn [bind]. f_equal.
  induction (filter (differs frame_lines prev) _) as [|i l IH]; simpl;
    [reflexivity|].
  rewrite IH. now destruct (i <? length frame_lines)%nat.
Qed.

Lemma render_frame_same_size m ascii_frame prev :
  prev_frame_lines m = Some prev ->
  render_frame m (prev_terminal_size m) ascii_frame
  = (output_buffer <- diff_writes (split_lines ascii_frame) prev ;;
     Some (output_buffer,
           {| prev_frame_lines := Some (split_lines ascii_frame);
              prev_terminal_size := prev_terminal_size m |})).
Proof.
  intros Hp. unfold render_frame. rewrite !Z.eqb_refl. simpl.
  now rewrite Hp.
Qed.

(** With an empty mirror the round is left by the exception of the
    diff. *)
Lemma render_frame_empty_mirror m ascii_frame :
  prev_frame_lines m = Some [] ->
  render_frame m (prev_terminal_size m) ascii_frame = None.
Proof.
  intros Hp. rewrite (render_frame_same_size m ascii_frame [] Hp).
  unfold diff_writes, fast_diff_lines.
  now destruct (split_lines ascii_frame).
Qed.

Lemma written_rows frame_lines prev i :
  In i (filter (fun i => (i <? length frame_lines)%nat)
               (filter (differs frame_lines prev)
                       (seq 0 (Nat.max (length frame_lines) (length prev)))))
  <-> (i < length frame_lines)%nat
      /\ nth i frame_lines [] <> nth i prev [].
Proof.
  rewrite filter_In, differing_In, Nat.ltb_lt. intuition lia.
Qed.

(** One changed cell in the first row: a single cursor move to row 1,
    column 1, followed by the new row. *)
Lemma one_changed_row :
  option_map fst
    (render_frame Samples.blank_mirror (80, 24) Samples.one_glyph)
    = Some [At 1 (s "@ ")] /\
  chunk_text (At 1 (s "@ ")) = ESC :: s "[1;1H@ ".
Proof. split; reflexivity. Qed.

(** A run over two frames: the first is written whole, the second as
    the one row that changed, between hiding and showing the cursor. *)
Lemma two_frame_run :
  render_frames_sys_partial (80, 24)
    [((80, 24), s "  " ++ [NL] ++ s "  "); ((80, 24), Samples.one_glyph)] 24
  = ([HideCursor; Whole (s "  " ++ [NL] ++ s "  "); At 1 (s "@ ");
      Newlines 24; ShowCursor], false).
Proof. reflexivity. Qed.

(** After a resize the screen is cleared and the whole frame written,
    whatever the old mirror was. *)
Lemma repaint_after_resize (m : Mirror) (size : Z * Z) (ascii_frame : str) :
  (fst size =? fst (prev_terminal_size m))
  && (snd size =? snd (prev_terminal_size m)) = false ->
  render_frame m size ascii_frame
  = Some ([Clear; Whole ascii_frame],
          {| prev_frame_lines := Some (split_lines ascii_frame);
             prev_terminal_size := size |}).
Proof.
  intros H. unfold render_frame. now rewrite H.
Qed.

(** The rows of a diffed frame on a terminal that showed the mirror:
    a row whose line did not change is not written, a row whose line
    changed shows the new line when what is written covers the old
    one. *)
Lemma diffed_rows (prev frame_lines : list str) (t0 : Tty) :
  (forall i, no_newline (nth i frame_lines [])) ->
  (length frame_lines <= lines t0)%nat ->
  (forall i, (i < length frame_lines)%nat ->
             nth i frame_lines [] <> nth i prev [] ->
             covers t0 (nth i prev [])
                    (pad_line prev i (nth i frame_lines []))) ->
  shows t0 prev ->
  forall r k,
    (r < length frame_lines)%nat
    \/ nth r frame_lines [] = nth r prev [] ->
    cells (screen
             (emit_all t0
                (map (fun i =>
                        At (i + 1) (pad_line prev i (nth i frame_lines [])))
                     (filter (fun i => (i <? length frame_lines)%nat)
                             (filter (differs frame_lines prev)
                                     (seq 0 (Nat.max (length frame_lines)
                                                     (length prev))))))))
          r k
    = grid_of_lines (map (strip_ansi false) frame_lines) r k.
Proof.
  intros Hnl Hrows Hcov Hshow r k Hr.
  set (text_at := fun i => pad_line prev i (nth i frame_lines [])).
  assert (Hclean : forall i, no_newline (text_at i)).
  { intros i. apply pad_line_clean, Hnl. }
  assert (Hok : forall i,
             In i (filter (fun i => (i <? length frame_lines)%nat)
                          (filter (differs frame_lines prev)
                                  (seq 0 (Nat.max (length frame_lines)
                                                  (length prev))))) ->
             (i < lines t0)%nat /\ one_row t0 (text_at i)).
  { intros i Hi. apply written_rows in Hi. destruct Hi as [Hi Hd].
    split; [lia|]. exact (proj1 (Hcov i Hi Hd)). }
  unfold grid_of_lines. rewrite nth_strip.
  destruct (list_eq_dec ascii_dec (nth r frame_lines []) (nth r prev []))
    as [Esame|Ediff].
  - (* the line did not change: nothing is written on row [r] *)
    rewrite (emit_rows_other text_at Hclean).
    + rewrite Hshow. unfold grid_of_lines. now rewrite nth_strip, Esame.
    + intros i Hi. exact (proj2 (Hok i Hi)).
    + intros i Hi E. destruct (Hok i Hi) as [Hil _].
      apply written_rows in Hi. destruct Hi as [_ Hd].
      assert (i = r) by lia. subst i. contradiction.
  - (* the line changed: it is rewritten, padded over the old one *)
    destruct Hr as [Hr|Hr]; [|contradiction].
    rewrite (emit_rows_written text_at Hclean).
    + rewrite Hshow. unfold grid_of_lines. rewrite nth_strip.
      unfold text_at. apply (pad_line_cells t0). now apply Hcov.
    + exact Hok.
    + apply NoDup_filter, differing_NoDup.
    + rewrite written_rows. auto.
Qed.






End RendererFacts.

(** ** Audio player *)

Module AudioFacts.
Import Py Audio.

Lemma int_is_floor x :
  float_nonneg x = true -> int_of_float x = floor_of_float x.
Proof.
  unfold float_nonneg, int_of_float, floor_of_float.
  destruct (Prim2SF x) as [sg|sg| |sg m e]; simpl; try reflexivity.
  destruct sg; [discriminate|]. intros _.
  now destruct (0 <=? e).
Qed.

Lemma floor_nonneg x idx :
  float_nonneg x = true -> floor_of_float x = Some idx -> 0 <= idx.
Proof.
  unfold float_nonneg, floor_of_float.
  destruct (Prim2SF x) as [sg|sg| |sg m e]; cbn [nonneg_sf floor_sf];
    try discriminate.
  - intros _ H. injection H as <-. lia.
  - assert (P1 : 0 <= Z.pos m * 2 ^ e).
    { apply Z.mul_nonneg_nonneg; [lia|]. apply Z.pow_nonneg. lia. }
    assert (P2 : 0 <= Z.pos m / 2 ^ (- e)).
    { destruct (Z.le_gt_cases 0 (- e)).
      - apply Z.div_pos; [lia|]. apply Z.pow_pos_nonneg; lia.
      - rewrite Z.pow_neg_r by lia. now rewrite Z.div_0_r. }
    destruct sg; [discriminate|]. intros _ H.
    destruct (0 <=? e); injection H as <-; assumption.
Qed.

Lemma py_slice_window {A} (a : list A) (lo n : Z) :
  0 <= lo -> 0 <= n -> lo + n <= Z.of_nat (length a) ->
  py_slice a lo (lo + n) = firstn (Z.to_nat n) (skipn (Z.to_nat lo) a).
Proof.
  intros Hlo Hn Hhi. unfold py_slice, clamp_index.
  destruct (Z.ltb_spec lo 0); [lia|].
  destruct (Z.ltb_spec (lo + n) 0); [lia|].
  rewrite !Z.min_l by lia.
  now replace (lo + n - lo) with n by lia.
Qed.

Lemma py_slice_tail {A} (a : list A) (lo : Z) :
  0 <= lo -> lo <= Z.of_nat (length a) ->
  py_slice_from a lo = skipn (Z.to_nat lo) a.
Proof.
  intros Hlo Hhi. unfold py_slice_from, py_slice, clamp_index.
  destruct (Z.ltb_spec lo 0); [lia|].
  destruct (Z.ltb_spec (Z.of_nat (length a)) 0); [lia|].
  rewrite !Z.min_l by lia.
  apply firstn_all2. rewrite length_skipn. lia.
Qed.

Lemma assign_exact {A} (n : nat) (src : list A) :
  length src = n -> assign n src = Some src.
Proof. intros H. unfold assign. now rewrite H, Nat.eqb_refl. Qed.

Lemma drain_app {tol rate} (q1 q2 : list Cmd) : forall clock start_idx,
  drain tol rate (q1 ++ q2) clock start_idx
  = (r <- drain tol rate q1 clock start_idx ;;
     drain tol rate q2 (fst r) (snd r)).
Proof.
  induction q1 as [|cmd q1 IH]; intros clock start_idx; simpl;
    [reflexivity|].
  destruct (String.eqb (cmd_type cmd) "set_time"); [|apply IH].
  destruct (drift_exceeds clock (cmd_time cmd) tol); [|apply IH].
  destruct (int_of_float _); simpl; [apply IH|reflexivity].
Qed.

Lemma drain_quiet tol rate (q : list Cmd) clock start_idx :
  Forall (quiet tol clock) q ->
  drain tol rate q clock start_idx = Some (clock, start_idx).
Proof.
  induction 1 as [|cmd q Hq _ IH]; simpl; [reflexivity|].
  destruct (String.eqb_spec (cmd_type cmd) "set_time") as [E|_];
    [|exact IH].
  now rewrite (Hq E).
Qed.

Section Player.

Variable Sample : Type.
Variable silence : Sample.
Variables Clip Stream : Type.

(** Case analysis on a callback that returned [r]: leaves one goal
    for each of its three exits, with [r] replaced by what was built. *)
Ltac callback_exits Hcb :=
  unfold _audio_callback in Hcb;
  destruct (int_of_float _); cbn [bind] in Hcb; [|discriminate];
  destruct (audio_array _) as [?data|]; cbn [bind] in Hcb; [|discriminate];
  destruct (_ <=? _);
  [ injection Hcb as <-
  | destruct (truediv _ _); cbn [bind] in Hcb; [|discriminate];
    destruct (drain _ _ _ _ _) as [[?clock ?start_idx]|];
      cbn [bind] in Hcb; [|discriminate];
    destruct (_ <=? _);
    [ destruct (assign _ _); cbn [bind] in Hcb; [|discriminate];
      injection Hcb as <-
    | destruct (if 0 <? _ then _ else _); cbn [bind] in Hcb; [|discriminate];
      injection Hcb as <- ] ].

(** A callback that is not at the end of the data leaves the queue
    empty; one that is leaves it untouched. *)
Lemma callback_drains (p : AudioPlayer Sample Clip Stream) (frames : Z) r :
  _audio_callback silence p frames = Some r ->
  sync_queue (player r) = []
  \/ (callback_stop r = true /\ sync_queue (player r) = sync_queue p).
Proof.
  intros Hcb. callback_exits Hcb; [right|left|left]; auto.
Qed.

(** C8, amended. Take a callback asked for [frames] samples that is
    not at the end of the data, and a hint [set_time t] of its queue
    that, at its turn in the drain that follows the advance
    [audio_time += frames / samplerate], is more than the tolerance
    away from the clock. Then the hint is honoured when it is taken:
    the clock becomes [t] and the start index [int(t * samplerate)],
    the product cut toward zero, which is [floor(t * samplerate)]
    whenever the product is not negative. If that index is not
    negative and the messages behind the hint are within tolerance of
    [t], the callback returns with the queue drained and
    [audio_time = t], and the samples it delivers are the data from
    that index on. *)
Theorem callback_resync (p : AudioPlayer Sample Clip Stream) (frames : Z)
        (data : list Sample) (pre post : list Cmd) (t step clock1 : float)
        (start_idx0 start_idx1 idx : Z) :
  audio_array p = Some data ->
  0 <= frames ->
  int_of_float (PrimFloat.mul (audio_time p) (float_of_int (samplerate p)))
    = Some start_idx0 ->
  start_idx0 < Z.of_nat (length data) ->
  truediv frames (samplerate p) = Some step ->
  sync_queue p = pre ++ set_time t :: post ->
  drain (sync_tolerance p) (samplerate p) pre
        (PrimFloat.add (audio_time p) step) start_idx0
    = Some (clock1, start_idx1) ->
  drift_exceeds clock1 t (sync_tolerance p) = true ->
  int_of_float (PrimFloat.mul t (float_of_int (samplerate p)))
    = Some idx ->
  drain (sync_tolerance p) (samplerate p) (pre ++ [set_time t])
        (PrimFloat.add (audio_time p) step) start_idx0
    = Some (t, idx) /\
  (float_nonneg (PrimFloat.mul t (float_of_int (samplerate p))) = true ->
   floor_of_float (PrimFloat.mul t (float_of_int (samplerate p)))
     = Some idx
   /\ 0 <= idx) /\
  (0 <= idx ->
   Forall (quiet (sync_tolerance p) t) post ->
   exists r,
     _audio_callback silence p frames = Some r /\
     sync_queue (player r) = [] /\
     audio_time (player r) = t /\
     length (outdata r) = Z.to_nat frames /\
     forall j,
       (j < Z.to_nat frames)%nat ->
       (Z.to_nat idx + j < length data)%nat ->
       nth j (outdata r) silence = nth (Z.to_nat idx + j) data silence).
Proof.
  intros Hdata Hfr Hstart Hlen Hstep Hq Hpre Hdrift Hint.
  assert (Hone : forall q,
             drain (sync_tolerance p) (samplerate p)
                   (pre ++ set_time t :: q)
                   (PrimFloat.add (audio_time p) step) start_idx0
             = drain (sync_tolerance p) (samplerate p) q t idx).
  { intros q. rewrite drain_app, Hpre. cbn [bind fst snd drain].
    cbn [cmd_type cmd_time set_time]. rewrite String.eqb_refl, Hdrift.
    now rewrite Hint. }
  split; [rewrite Hone; reflexivity|]. split.
  { intros Hpos. rewrite <- (int_is_floor _ Hpos). split; [exact Hint|].
    apply (floor_nonneg _ _ Hpos). now rewrite <- (int_is_floor _ Hpos). }
  intros Hidx Hpost.
  unfold _audio_callback.
  rewrite Hstart, Hdata. cbn [bind].
  destruct (Z.leb_spec (Z.of_nat (length data)) start_idx0); [lia|].
  rewrite Hstep. cbn [bind].
  rewrite Hq, Hone, (drain_quiet _ _ _ _ _ Hpost). cbn [bind].
  destruct (Z.leb_spec (idx + frames) (Z.of_nat (length data))) as [Hin|Hout].
  - (* the whole window lies inside the data *)
    rewrite py_slice_window by lia.
    rewrite assign_exact by (rewrite length_firstn, length_skipn; lia).
    cbn [bind]. eexists. split; [reflexivity|]. cbn.
    repeat split.
    + rewrite length_firstn, length_skipn. lia.
    + intros j Hj _. rewrite nth_firstn.
      destruct (Nat.ltb_spec j (Z.to_nat frames)); [|lia].
      now rewrite nth_skipn.
  - (* the window runs past the end: the rest is silence *)
    destruct (Z.ltb_spec 0 (Z.of_nat (length data) - idx)) as [Hrem|Hrem].
    + rewrite py_slice_tail by lia.
      rewrite assign_exact by (rewrite length_skipn; lia).
      cbn [bind]. eexists. split; [reflexivity|]. cbn.
      repeat split.
      * rewrite length_app, length_skipn, repeat_length. lia.
      * intros j Hj Hd. rewrite app_nth1 by (rewrite length_skipn; lia).
        now rewrite nth_skipn.
    + cbn [bind]. eexists. split; [reflexivity|]. cbn.
      repeat split.
      * apply repeat_length.
      * intros j Hj Hd. lia.
Qed.

(** C10. Once [should_stop] is set, [stop()] returns at once: no
    call is made and every field, [stream], [audio_clip],
    [audio_array], [initialized] and [playback_started] among them,
    is what it was. *)
Theorem stop_when_stopped (p : AudioPlayer Sample Clip Stream) :
  should_stop p = true ->
  stop p = (p, []) /\
  stream (fst (stop p)) = stream p /\
  audio_clip (fst (stop p)) = audio_clip p /\
  audio_array (fst (stop p)) = audio_array p /\
  initialized (fst (stop p)) = initialized p /\
  playback_started (fst (stop p)) = playback_started p.
Proof.
  intros H. unfold stop. rewrite H. cbn. repeat split; reflexivity.
Qed.

(** A second [stop()] never does anything. *)
Lemma stop_twice (p : AudioPlayer Sample Clip Stream) :
  stop (fst (stop p)) = (fst (stop p), []).
Proof.
  unfold stop at 2 3. destruct (should_stop p) eqn:E; cbn.
  - unfold stop. now rewrite E.
  - reflexivity.
Qed.

(** A callback that signals the end of the stream leaves
    [should_stop] set, so a later [stop()] releases nothing. *)
Lemma stop_after_end_of_stream (p : AudioPlayer Sample Clip Stream)
      frames r :
  _audio_callback silence p frames = Some r ->
  callback_stop r = true ->
  stop (player r) = (player r, []).
Proof.
  intros Hcb Hstop.
  enough (Hs : should_stop (player r) = true)
    by (unfold stop; now rewrite Hs).
  callback_exits Hcb; [reflexivity|discriminate Hstop|reflexivity].
Qed.

End Player.

Import Samples.

(** The tolerance a new player starts with is 0.1 s, and a hint is
    queued exactly when the video clock is further than that from the
    audio clock. *)
Lemma hint_policy (p : AudioPlayer Z unit unit) (t : float) :
  sync_tolerance (@init Z unit unit) = 0x1.999999999999ap-4%float /\
  sync_queue (update_video_time p t)
  = if drift_exceeds (audio_time p) t (sync_tolerance p)
    then sync_queue p ++ [set_time t] else sync_queue p.
Proof. split; reflexivity. Qed.

Lemma callback_resync_witness :
  sync_queue drifting_player = [set_time 2%float] /\
  exists r,
    _audio_callback 0 drifting_player 4 = Some r /\
    sync_queue (player r) = [] /\
    audio_time (player r) = 2%float /\
    nth 0 (outdata r) 0 = 16.
Proof.
  split; [vm_compute; reflexivity|].
  destruct (callback_resync Z 0 unit unit drifting_player 4 ramp32
              [] [] 2%float 0.5%float 1%float 4 4 16)
    as [_ [_ Hcb]].
  - reflexivity.
  - lia.
  - vm_compute. reflexivity.
  - vm_compute. reflexivity.
  - vm_compute. reflexivity.
  - vm_compute. reflexivity.
  - vm_compute. reflexivity.
  - vm_compute. reflexivity.
  - vm_compute. reflexivity.
  - destruct (Hcb ltac:(lia) (Forall_nil _))
      as [r [Hrun [Hq [Ht [_ Hout]]]]].
    exists r. repeat split; try assumption.
    rewrite (Hout 0%nat); [reflexivity|simpl; lia|simpl; lia].
Defined.

(** C8, the claim as first stated fails for a hint before the start
    of the clip. [update_video_time(-0.05)] at 8 Hz is queued and
    honoured, but the start index is [int(-0.4) = 0], not
    [floor(-0.4) = -1], and the samples delivered start at index 0;
    with [update_video_time(-0.5)] the index is -4, the slice
    [audio_array[-4:0]] is empty and the callback raises. *)
Lemma resync_truncates_toward_zero :
  sync_queue (update_video_time playing_player just_before_start)
    = [set_time just_before_start] /\
  (exists r,
      _audio_callback 0 (update_video_time playing_player just_before_start)
                      4 = Some r /\
      audio_time (player r) = just_before_start /\
      outdata r = [0; 1; 2; 3]) /\
  int_of_float (PrimFloat.mul just_before_start (float_of_int 8)) = Some 0 /\
  floor_of_float (PrimFloat.mul just_before_start (float_of_int 8))
    = Some (-1) /\
  sync_queue (update_video_time playing_player before_start)
    = [set_time before_start] /\
  _audio_callback 0 (update_video_time playing_player before_start) 4 = None.
Proof.
  split; [vm_compute; reflexivity|]. split.
  - eexists. split; [vm_compute; reflexivity|].
    split; [vm_compute; reflexivity|reflexivity].
  - repeat split; vm_compute; reflexivity.
Defined.

Lemma stop_when_stopped_witness :
  stop stopped_player = (stopped_player, []) /\
  stream (fst (stop stopped_player)) = stream stopped_player /\
  audio_clip (fst (stop stopped_player)) = audio_clip stopped_player /\
  audio_array (fst (stop stopped_player)) = audio_array stopped_player /\
  initialized (fst (stop stopped_player)) = initialized stopped_player /\
  playback_started (fst (stop stopped_player))
    = playback_started stopped_player.
Proof.
  apply (stop_when_stopped Z unit unit stopped_player). reflexivity.
Defined.

End AudioFacts.

(** ** Whole frames *)

Module FrameFacts.
Import Py Converter ConverterFacts.

(** *** Lines of a joined text *)

Lemma split_nl_app (a : str) : forall b cur,
  no_newline a -> split_nl (a ++ b) cur = split_nl b (rev a ++ cur).
Proof.
  induction a as [|c a IH]; intros b cur Ha; [reflexivity|].
  simpl. destruct (Ascii.eqb_spec c NL) as [->|_].
  - exfalso. apply Ha. now left.
  - rewrite IH by (intros H; apply Ha; now right).
    now rewrite <- app_assoc.
Qed.

(** Splitting undoes joining, for a frame of at least one row. *)
Lemma split_join (rows : list str) :
  rows <> [] -> Forall no_newline rows -> split_lines (join [NL] rows) = rows.
Proof.
  unfold split_lines.
  induction rows as [|r rows IH]; intros Hne Hc; [congruence|].
  inversion Hc as [|? ? Hr Hrows]; subst.
  destruct rows as [|r' rows].
  - simpl. rewrite <- (app_nil_r r) at 1.
    rewrite split_nl_app by assumption. simpl.
    now rewrite app_nil_r, rev_involutive.
  - change (join [NL] (r :: r' :: rows))
      with (r ++ [NL] ++ join [NL] (r' :: rows)).
    rewrite split_nl_app by assumption. simpl app.
    cbn [split_nl]. rewrite Ascii.eqb_refl.
    rewrite app_nil_r, rev_involutive.
    f_equal. apply IH; [congruence|assumption].
Qed.

(** *** Glyphs and decimal channels *)

Lemma ramp_chars_plain :
  forallb (fun c => negb (Ascii.eqb c NL) && negb (Ascii.eqb c ESC))
          ASCII_CHARS = true.
Proof. reflexivity. Qed.

Lemma glyph_total (p : Pixel) :
  pixel_ok p -> exists c, pixel_glyph p = Some c /\ c <> NL /\ c <> ESC.
Proof.
  destruct p as [[r g] b]. intros [Hr [Hg Hb]].
  destruct (pixel_glyph_index r g b Hr Hg Hb) as [c [Hn Hp]].
  exists c. split; [exact Hp|].
  apply nth_error_In in Hn.
  pose proof ramp_chars_plain as H. rewrite forallb_forall in H.
  specialize (H c Hn). apply andb_prop in H. destruct H as [H1 H2].
  apply negb_true_iff in H1, H2.
  split; now apply Ascii.eqb_neq.
Qed.

Lemma channel_digits z :
  is_u8 z -> forallb is_digit (fmt_d z) = true.
Proof.
  intros Hz. revert z Hz.
  apply (forallb_upto (fun z => forallb is_digit (fmt_d z)) 256).
  vm_compute. reflexivity.
Qed.

Lemma digit_plain c :
  is_digit c = true -> c <> NL /\ c <> "m"%char.
Proof.
  intros H. split; intros ->; discriminate H.
Qed.

Lemma digits_are c z : is_u8 z -> In c (fmt_d z) -> c <> NL /\ c <> "m"%char.
Proof.
  intros Hz Hc. apply digit_plain.
  pose proof (channel_digits z Hz) as H. rewrite forallb_forall in H.
  exact (H c Hc).
Qed.

(** *** [mapM] over a well-behaved function *)

Lemma mapM_Forall2 {A B} (f : A -> option B) (P : A -> B -> Prop) l :
  Forall (fun a => exists b, f a = Some b /\ P a b) l ->
  exists bs, mapM f l = Some bs /\ Forall2 P l bs.
Proof.
  induction 1 as [|a l [b [Hf Hp]] _ [bs [Hm Hbs]]]; simpl.
  - exists []. auto.
  - exists (b :: bs). rewrite Hf, Hm. auto.
Qed.

(** *** Escape sequences take no cell *)

Lemma visible_skip (body : str) : forall rest,
  (forall c, In c body -> c <> "m"%char) ->
  visible true (body ++ "m"%char :: rest) = visible false rest.
Proof.
  induction body as [|c body IH]; intros rest Hb; [reflexivity|].
  cbn [app visible].
  destruct (Ascii.eqb_spec c "m") as [E|_];
    [exfalso; now apply (Hb c (or_introl eq_refl))|].
  cbn [negb]. apply IH. intros c' Hc'. apply Hb. now right.
Qed.

Lemma ansi_text_layout r g b c rest :
  ansi_text r g b c ++ rest
  = ESC :: (s "[38;2;" ++ fmt_d r ++ s ";" ++ fmt_d g ++ s ";" ++ fmt_d b)
        ++ "m"%char :: c :: ESC :: s "[0m" ++ rest.
Proof.
  unfold ansi_text, ansi_prefix, ansi_suffix.
  repeat (rewrite <- ?app_assoc, <- ?app_comm_cons). reflexivity.
Qed.

Lemma ansi_text_one_cell r g b c rest :
  is_u8 r -> is_u8 g -> is_u8 b -> c <> ESC ->
  visible false (ansi_text r g b c ++ rest) = S (visible false rest).
Proof.
  intros Hr Hg Hb Hc. rewrite ansi_text_layout.
  change (visible false (ESC :: ?x)) with (visible true x).
  rewrite visible_skip.
  - cbn [visible]. apply Ascii.eqb_neq in Hc. rewrite Hc. reflexivity.
  - intros x Hx.
    repeat (apply in_app_or in Hx; destruct Hx as [Hx|Hx]);
      try (match type of Hx with
           | In _ (fmt_d ?z) =>
               destruct (digits_are x z ltac:(assumption) Hx) as [_ Hm];
               exact Hm
           end);
      intros ->; simpl in Hx; intuition discriminate.
Qed.

Lemma ansi_text_no_newline r g b c :
  is_u8 r -> is_u8 g -> is_u8 b -> c <> NL ->
  no_newline (ansi_text r g b c).
Proof.
  intros Hr Hg Hb Hc Hx. unfold ansi_text in Hx.
  repeat (apply in_app_or in Hx; destruct Hx as [Hx|Hx]);
    try (match type of Hx with
         | In _ (fmt_d ?z) =>
             destruct (digits_are NL z ltac:(assumption) Hx) as [Hn _];
             now apply Hn
         end);
    simpl in Hx; intuition (discriminate || congruence).
Qed.

(** *** Rows and widths of a converted image *)

Lemma cvtColor_shape img h w :
  has_shape img h w -> has_shape (cvtColor_BGR2RGB img) h w.
Proof.
  unfold has_shape, cvtColor_BGR2RGB. intros [Hh Hrows].
  rewrite length_map. split; [exact Hh|].
  apply Forall_map. eapply Forall_impl; [|exact Hrows].
  intros row [Hw Hpix]. rewrite length_map. split; [exact Hw|].
  apply Forall_map. eapply Forall_impl; [|exact Hpix].
  intros [[b g] r]. unfold pixel_ok. tauto.
Qed.

Lemma glyph_rows rgb h w :
  has_shape rgb h w ->
  exists rows,
    mapM (mapM pixel_glyph) rgb = Some rows /\
    Z.of_nat (length rows) = h /\
    Forall (fun l => Z.of_nat (length l) = w /\ no_newline l) rows.
Proof.
  intros [Hh Hrows].
  destruct (mapM_Forall2 (mapM pixel_glyph)
              (fun (row : list Pixel) (l : str) =>
                 length l = length row /\ no_newline l) rgb)
    as [rows [Hm H2]].
  { eapply Forall_impl; [|exact Hrows]. intros row [_ Hpix].
    destruct (mapM_Forall2 pixel_glyph
                (fun (_ : Pixel) (c : ascii) => c <> NL) row)
      as [l [Hl Hcs]].
    { eapply Forall_impl; [|exact Hpix]. intros p Hp.
      destruct (glyph_total p Hp) as [c [Hc [Hn _]]]. eauto. }
    exists l. split; [exact Hl|]. split.
    - symmetry. eapply Forall2_length; eassumption.
    - clear Hl Hpix. induction Hcs as [|p c row l Hc _ IH]; [intros []|].
      intros [E|Hin]; [congruence|now apply IH]. }
  exists rows. split; [exact Hm|]. split.
  - rewrite <- Hh. f_equal. symmetry. eapply Forall2_length; eassumption.
  - clear Hm Hh. induction H2 as [|row l rgb rows [Hl Hn] _ IH];
      constructor.
    + inversion Hrows as [|? ? [Hw _] _]; subst. split; [lia|exact Hn].
    + apply IH. now inversion Hrows.
Qed.

Lemma ansi_rows rgb h w :
  has_shape rgb h w ->
  exists rows,
    mapM (mapM ansi_cell) rgb = Some rows /\
    Z.of_nat (length rows) = h /\
    Forall (fun l => Z.of_nat (visible_width l) = w /\ no_newline l)
           (map (@concat ascii) rows).
Proof.
  intros [Hh Hrows].
  destruct (mapM_Forall2 (mapM ansi_cell)
              (fun (row : list Pixel) (cs : list str) =>
                 visible_width (concat cs) = length row
                 /\ no_newline (concat cs)) rgb)
    as [rows [Hm H2]].
  { eapply Forall_impl; [|exact Hrows]. intros row [_ Hpix].
    destruct (mapM_Forall2 ansi_cell
                (fun (_ : Pixel) (t : str) =>
                   no_newline t /\
                   forall rest, visible false (t ++ rest)
                                = S (visible false rest)) row)
      as [cs [Hcs Hshape]].
    { eapply Forall_impl; [|exact Hpix]. intros [[r g] b] Hp.
      destruct (glyph_total _ Hp) as [c [Hc [Hn He]]].
      destruct Hp as [Hr [Hg Hb]].
      exists (ansi_text r g b c). unfold ansi_cell. rewrite Hc.
      split; [reflexivity|]. split.
      - now apply ansi_text_no_newline.
      - intros rest. now apply ansi_text_one_cell. }
    exists cs. split; [exact Hcs|]. clear Hcs Hpix.
    unfold visible_width.
    induction Hshape as [|p t row cs [Hn Hv] _ [IHv IHn]]; simpl.
    - split; [reflexivity|intros []].
    - split.
      + rewrite Hv. now f_equal.
      + intros Hin. apply in_app_or in Hin.
        destruct Hin as [Hin|Hin]; [now apply Hn|now apply IHn]. }
  exists rows. split; [exact Hm|]. split.
  - rewrite <- Hh. f_equal. symmetry. eapply Forall2_length; eassumption.
  - clear Hm Hh. induction H2 as [|row cs rgb rows [Hv Hn] _ IH]; simpl;
      constructor.
    + inversion Hrows as [|? ? [Hw _] _]; subst. split; [lia|exact Hn].
    + apply IH. now inversion Hrows.
Qed.

Lemma color_rows rgb h w :
  has_shape rgb h w -> 0 <= w ->
  exists cells,
    mapM (fun i =>
            mapM (fun j =>
                    row <- nth_error rgb i ;;
                    p <- nth_error row j ;;
                    color_cell p)
                 (seq 0 (Z.to_nat w)))
         (seq 0 (Z.to_nat h)) = Some cells /\
    Z.of_nat (length cells) = h /\
    Forall (fun row => Z.of_nat (length row) = w) cells.
Proof.
  intros [Hh Hrows] Hw.
  destruct (mapM_Forall2
              (fun i =>
                 mapM (fun j =>
                         row <- nth_error rgb i ;;
                         p <- nth_error row j ;;
                         color_cell p)
                      (seq 0 (Z.to_nat w)))
              (fun (_ : nat) (row : list (ascii * Z)) =>
                 Z.of_nat (length row) = w)
              (seq 0 (Z.to_nat h)))
    as [cells [Hm H2]].
  { apply Forall_forall. intros i Hi. apply in_seq in Hi.
    destruct (nth_error rgb i) as [row|] eqn:Erow;
      [|apply nth_error_None in Erow; lia].
    rewrite Forall_forall in Hrows.
    destruct (Hrows row (nth_error_In _ _ Erow)) as [Hlen Hpix].
    destruct (mapM_Forall2
                (fun j => r <- Some row ;; p <- nth_error r j ;; color_cell p)
                (fun (_ : nat) (_ : ascii * Z) => True)
                (seq 0 (Z.to_nat w)))
      as [cs [Hcs Hf]].
    { apply Forall_forall. intros j Hj. apply in_seq in Hj. cbn [bind].
      destruct (nth_error row j) as [p|] eqn:Ep;
        [|apply nth_error_None in Ep; lia].
      rewrite Forall_forall in Hpix.
      destruct (glyph_total p (Hpix p (nth_error_In _ _ Ep))) as [c [Hc _]].
      cbn [bind]. unfold color_cell. rewrite Hc. cbn [bind]. eauto. }
    exists cs. split; [exact Hcs|].
    apply Forall2_length in Hf. rewrite length_seq in Hf. lia. }
  exists cells. split; [exact Hm|].
  pose proof (Forall2_length H2) as Hl. rewrite length_seq in Hl.
  split; [lia|].
  clear Hm Hl. induction H2; constructor; auto.
Qed.

Section WithResize.

Variable resize : Image -> Z -> Z -> option Image.
Variables (frame : Image) (new_width h0 : Z).

(** What the converters rely on: an image that [cv2.resize] returns
    has the requested number of rows and columns, 8 bits a channel. *)
Hypothesis resize_shape :
  forall w h out, resize frame w h = Some out -> has_shape out h w.

Hypothesis height_computed :
  scaled_height (fst (shape frame)) (snd (shape frame)) new_width
    = Some h0.

(** The colour variant clamps the height, and always yields
    [max(1, h0)] rows of [new_width] cells. *)
Lemma color_frame_rows out :
  0 <= new_width ->
  resize frame new_width (Z.max h0 1) = Some out ->
  exists cells,
    frame_to_ascii_curses_color resize (frame, new_width) = Some cells /\
    Z.of_nat (length cells) = Z.max 1 h0 /\
    Forall (fun row => Z.of_nat (length row) = new_width) cells.
Proof.
  intros Hw Hres. unfold frame_to_ascii_curses_color.
  cbn [shape fst snd] in *. rewrite height_computed. cbn [bind].
  rewrite Hres. cbn [bind].
  destruct (color_rows (cvtColor_BGR2RGB out) (Z.max h0 1) new_width)
    as [cells [Hc [Hl Hrow]]]; auto.
  { apply cvtColor_shape, (resize_shape _ _ _ Hres). }
  exists cells. rewrite Hc. repeat split; auto. lia.
Qed.

(** The two text variants do so as long as the computed height is
    at least one. *)
Lemma curses_frame_rows out :
  1 <= h0 ->
  resize frame new_width h0 = Some out ->
  exists text,
    frame_to_ascii_curses resize (frame, new_width) = Some text /\
    Z.of_nat (length (split_lines text)) = Z.max 1 h0 /\
    Forall (fun l => Z.of_nat (length l) = new_width) (split_lines text).
Proof.
  intros Hh Hres. unfold frame_to_ascii_curses.
  cbn [shape fst snd] in *. rewrite height_computed. cbn [bind].
  rewrite Hres. cbn [bind].
  destruct (glyph_rows (cvtColor_BGR2RGB out) h0 new_width)
    as [rows [Hr [Hl Hrow]]].
  { apply cvtColor_shape, (resize_shape _ _ _ Hres). }
  rewrite Hr. cbn [bind]. eexists. split; [reflexivity|].
  rewrite split_join.
  - split; [transitivity h0; [exact Hl|lia]|].
    eapply Forall_impl; [|exact Hrow]. intros l [H _]. exact H.
  - destruct rows; [simpl in Hl; lia|congruence].
  - eapply Forall_impl; [|exact Hrow]. intros l [_ H]. exact H.
Qed.

Lemma ansi_frame_rows out :
  1 <= h0 ->
  resize frame new_width h0 = Some out ->
  exists text,
    frame_to_ascii resize (frame, new_width) = Some text /\
    Z.of_nat (length (split_lines text)) = Z.max 1 h0 /\
    Forall (fun l => Z.of_nat (visible_width l) = new_width)
           (split_lines text).
Proof.
  intros Hh Hres. unfold frame_to_ascii.
  cbn [shape fst snd] in *. rewrite height_computed. cbn [bind].
  rewrite Hres. cbn [bind].
  destruct (ansi_rows (cvtColor_BGR2RGB out) h0 new_width)
    as [rows [Hr [Hl Hrow]]].
  { apply cvtColor_shape, (resize_shape _ _ _ Hres). }
  rewrite Hr. cbn [bind]. eexists. split; [reflexivity|].
  rewrite split_join.
  - rewrite length_map. split; [transitivity h0; [exact Hl|lia]|].
    eapply Forall_impl; [|exact Hrow]. intros l [H _]. exact H.
  - destruct rows; [simpl in Hl; lia|discriminate].
  - eapply Forall_impl; [|exact Hrow]. intros l [_ H]. exact H.
Qed.

(** When the computed height is 0 they do not clamp it: whatever
    comes back (an exception from the resize, or at best an image
    without rows) is not a frame of [max(1, h0) = 1] rows of
    [new_width] cells. *)
Lemma curses_frame_unclamped text :
  h0 < 1 -> 1 <= new_width ->
  frame_to_ascii_curses resize (frame, new_width) = Some text ->
  ~ (Z.of_nat (length (split_lines text)) = Z.max 1 h0 /\
     Forall (fun l => Z.of_nat (length l) = new_width)
            (split_lines text)).
Proof.
  intros Hh Hw Hrun [_ Hrows]. unfold frame_to_ascii_curses in Hrun.
  cbn [shape fst snd] in *. rewrite height_computed in Hrun.
  cbn [bind] in Hrun.
  destruct (resize frame new_width h0) as [out|] eqn:Hres;
    cbn [bind] in Hrun; [|discriminate].
  destruct (resize_shape _ _ _ Hres) as [Hlen _].
  destruct out; [|simpl in Hlen; lia].
  simpl in Hrun. injection Hrun as <-.
  change (split_lines []) with [@nil ascii] in Hrows.
  apply Forall_inv in Hrows. simpl in Hrows. lia.
Qed.

Lemma ansi_frame_unclamped text :
  h0 < 1 -> 1 <= new_width ->
  frame_to_ascii resize (frame, new_width) = Some text ->
  ~ (Z.of_nat (length (split_lines text)) = Z.max 1 h0 /\
     Forall (fun l => Z.of_nat (visible_width l) = new_width)
            (split_lines text)).
Proof.
  intros Hh Hw Hrun [_ Hrows]. unfold frame_to_ascii in Hrun.
  cbn [shape fst snd] in *. rewrite height_computed in Hrun.
  cbn [bind] in Hrun.
  destruct (resize frame new_width h0) as [out|] eqn:Hres;
    cbn [bind] in Hrun; [|discriminate].
  destruct (resize_shape _ _ _ Hres) as [Hlen _].
  destruct out; [|simpl in Hlen; lia].
  simpl in Hrun. injection Hrun as <-.
  change (split_lines []) with [@nil ascii] in Hrows.
  apply Forall_inv in Hrows. simpl in Hrows. lia.
Qed.

End WithResize.

(** The stand-in resize keeps the contract on frames of 8-bit pixels,
    so the lemmas above apply to it: a 2 x 2 frame at width 2 gives one
    row of two cells. *)
Lemma cv2_resize_shape img w h out :
  Forall (Forall pixel_ok) img ->
  cv2_resize img w h = Some out -> has_shape out h w.
Proof.
  intros Himg. unfold cv2_resize, shape.
  destruct (_ || _) eqn:E; [discriminate|]. intros H. injection H as <-.
  repeat (apply orb_false_elim in E; destruct E as [E ?]).
  assert (Hw : 0 < w) by (apply Z.leb_gt; assumption).
  assert (Hh : 0 < h) by (apply Z.leb_gt; assumption).
  split.
  - rewrite length_map, length_seq. lia.
  - apply Forall_map, Forall_forall. intros i _. split.
    + rewrite length_map, length_seq. lia.
    + apply Forall_map, Forall_forall. intros j _.
      set (row := nth _ img []).
      assert (Hrow : Forall pixel_ok row).
      { subst row. destruct (nth_in_or_default
                               (i * Z.to_nat (Z.of_nat (length img))
                                / Z.to_nat h)%nat img [])
          as [Hin|Hd]; [|rewrite Hd; constructor].
        rewrite Forall_forall in Himg. now apply Himg. }
      destruct (nth_in_or_default
                  (j * Z.to_nat (Z.of_nat (length (hd [] img)))
                   / Z.to_nat w)%nat row (0, 0, 0)) as [Hin|Hd].
      * rewrite Forall_forall in Hrow. now apply Hrow.
      * rewrite Hd. unfold pixel_ok, is_u8. lia.
Qed.

Lemma curses_rows_on_square_frame :
  exists text,
    frame_to_ascii_curses cv2_resize (Samples.square_frame, 2) = Some text /\
    Z.of_nat (length (split_lines text)) = Z.max 1 1 /\
    Forall (fun l => Z.of_nat (length l) = 2) (split_lines text).
Proof.
  apply (curses_frame_rows cv2_resize Samples.square_frame 2 1)
    with (out := [[Samples.grey; Samples.grey]]).
  - intros w h out. apply cv2_resize_shape.
    repeat constructor; unfold is_u8; lia.
  - vm_compute. reflexivity.
  - lia.
  - vm_compute. reflexivity.
Qed.

(** C1 (the code departs from it). A 16 x 9 frame at target width 3:
    the height [int(9/16 * 3 * 0.5)] is 0 (as it is for a 1920 x 1080
    frame), where the claim has [max(1, 0) = 1] row of width 3. Only
    the colour variant clamps the height and yields that row;
    [frame_to_ascii] and [frame_to_ascii_curses] pass the 0 to the
    resize and produce no frame at all. *)
Theorem unclamped_height_on_wide_frame :
  scaled_height 9 16 3 = Some 0 /\
  scaled_height 1080 1920 3 = Some 0 /\
  frame_to_ascii_curses_color cv2_resize (Samples.wide_frame, 3)
    = Some [[("n"%char, 145); ("n"%char, 145); ("n"%char, 145)]] /\
  frame_to_ascii cv2_resize (Samples.wide_frame, 3) = None /\
  frame_to_ascii_curses cv2_resize (Samples.wide_frame, 3) = None.
Proof.
  repeat split; vm_compute; reflexivity.
Qed.

(** The height is the double-precision value of the source expression,
    which can fall one short of the exact quotient. *)
Lemma scaled_height_is_rounded :
  scaled_height 1 49 196 = Some 1 /\ 1 * 196 / (2 * 49) = 2.
Proof. split; vm_compute; reflexivity. Qed.

End FrameFacts.

(* ===================================================================== *)
(** * Further properties *)
(* ===================================================================== *)

(** ** The line diff and the chunks of one frame *)

Module DiffFacts.
Import Py Renderer RendererFacts.

Lemma sorted_seq a n : StronglySorted lt (seq a n).
Proof.
  revert a. induction n as [|n IH]; intros a; simpl; constructor.
  - apply IH.
  - apply Forall_forall. intros x Hx. apply in_seq in Hx. lia.
Qed.

Lemma sorted_filter (P : nat -> bool) l :
  StronglySorted lt l -> StronglySorted lt (filter P l).
Proof.
  induction 1 as [|a l Hs IH Ha]; simpl; [constructor|].
  destruct (P a); [|exact IH].
  constructor; [exact IH|].
  apply Forall_forall. intros x Hx. apply filter_In in Hx.
  rewrite Forall_forall in Ha. apply Ha. tauto.
Qed.

Lemma filter_none (P : nat -> bool) l :
  (forall x, In x l -> P x = false) -> filter P l = [].
Proof.
  induction l as [|a l IH]; intros H; simpl; [reflexivity|].
  rewrite (H a (or_introl eq_refl)). apply IH. intros x Hx. apply H. now right.
Qed.

Lemma filter_seq_single (P : nat -> bool) n i :
  (i < n)%nat -> P i = true ->
  (forall j, (j < n)%nat -> j <> i -> P j = false) ->
  filter P (seq 0 n) = [i].
Proof.
  intros Hi Pi Hj.
  replace n with (i + (1 + (n - S i)))%nat by lia.
  rewrite !seq_app, !filter_app. simpl seq. simpl filter. rewrite Pi.
  rewrite !filter_none; [reflexivity| |].
  - intros x Hx. apply in_seq in Hx. apply Hj; lia.
  - intros x Hx. apply in_seq in Hx. apply Hj; lia.
Qed.

(** X1. [fast_diff_lines] raises when one of the two lists is empty
    (the ValueError of the compiled function). On two lists that are
    not empty it returns exactly the indices below [max_lines] at which
    they hold different lines (a line missing from one of them counting
    as the empty line), each once, in increasing order. *)
Theorem fast_diff_lines_exact (new_lines old_lines : list str)
        (max_lines : nat) :
  (new_lines = [] \/ old_lines = [] ->
   fast_diff_lines new_lines old_lines max_lines = None) /\
  (new_lines <> [] -> old_lines <> [] ->
   exists idxs,
     fast_diff_lines new_lines old_lines max_lines = Some idxs /\
     (forall i,
         In i idxs
         <-> (i < max_lines)%nat
             /\ nth i new_lines [] <> nth i old_lines []) /\
     StronglySorted lt idxs).
Proof.
  split.
  - intros [-> | ->]; [reflexivity|]. now destruct new_lines.
  - intros Hn Ho. rewrite (fast_diff_lines_filter _ _ _ Hn Ho).
    eexists. split; [reflexivity|]. split.
    + intros i. apply differing_In.
    + apply sorted_filter, sorted_seq.
Qed.

Lemma differs_same lines i : differs lines lines i = false.
Proof.
  apply not_true_is_false. rewrite differs_iff. tauto.
Qed.

(** X2. A frame equal to the mirror, in a terminal that kept its size,
    writes nothing at all and leaves the mirror as it is. *)
Theorem same_frame_writes_nothing (m : Mirror) (ascii_frame : str) :
  prev_frame_lines m = Some (split_lines ascii_frame) ->
  render_frame m (prev_terminal_size m) ascii_frame = Some ([], m).
Proof.
  intros Hp. rewrite (render_frame_same_size m ascii_frame _ Hp).
  rewrite diff_writes_map by apply split_lines_nonempty.
  cbn [bind]. f_equal. f_equal.
  - rewrite (filter_none (differs _ _)); [reflexivity|].
    intros i _. apply differs_same.
  - destruct m as [lines size]. simpl in *. now rewrite Hp.
Qed.

Lemma same_frame_writes_nothing_witness :
  render_frame Samples.old_mirror (80, 24) (s "abc" ++ [NL] ++ s "de")
  = Some ([], Samples.old_mirror).
Proof.
  apply (same_frame_writes_nothing Samples.old_mirror
           (s "abc" ++ [NL] ++ s "de")).
  reflexivity.
Defined.

(** X3. When the new frame has as many lines as the mirror and differs
    from it in line [i] only, exactly one chunk is written: the cursor
    move to row [i + 1], column 1, followed by the new line (padded with
    spaces over a longer old line). *)
Theorem one_line_changed (m : Mirror) (prev : list str) (ascii_frame : str)
        (i : nat) :
  prev_frame_lines m = Some prev ->
  length prev = length (split_lines ascii_frame) ->
  (i < length prev)%nat ->
  nth i (split_lines ascii_frame) [] <> nth i prev [] ->
  (forall j, j <> i -> nth j (split_lines ascii_frame) [] = nth j prev []) ->
  option_map fst (render_frame m (prev_terminal_size m) ascii_frame)
  = Some [At (i + 1) (pad_line prev i (nth i (split_lines ascii_frame) []))].
Proof.
  intros Hp Hlen Hi Hdiff Hrest.
  rewrite (render_frame_same_size m ascii_frame prev Hp).
  assert (Hne : prev <> []) by (intros ->; simpl in Hi; lia).
  rewrite (diff_writes_map _ _ (split_lines_nonempty ascii_frame) Hne).
  cbn [bind option_map fst]. rewrite <- Hlen, Nat.max_id.
  rewrite (filter_seq_single _ _ i Hi).
  - simpl. now rewrite (proj2 (Nat.ltb_lt _ _) Hi).
  - now apply differs_iff.
  - intros j _ Hj. apply not_true_is_false. rewrite differs_iff.
    intros H. apply H. now apply Hrest.
Qed.

Lemma one_line_changed_witness :
  option_map fst
    (render_frame Samples.blank_mirror (80, 24) Samples.one_glyph)
  = Some [At 1 (s "@ ")].
Proof.
  apply (one_line_changed Samples.blank_mirror [s "  "; s "  "]
           Samples.one_glyph 0).
  - reflexivity.
  - reflexivity.
  - simpl. lia.
  - discriminate.
  - intros [|[|j]] Hj; [congruence|reflexivity|].
    vm_compute. now destruct j.
Defined.

(** X4. The chunks of a diffed frame go down the screen: they are
    positioned writes on strictly increasing rows of the new frame, so
    no row is written twice. This is so for every mirror but the empty
    list, with which the round raises. *)
Theorem writes_in_line_order (m : Mirror) (prev : list str)
        (ascii_frame : str) :
  prev_frame_lines m = Some prev ->
  (prev = [] ->
   render_frame m (prev_terminal_size m) ascii_frame = None) /\
  (prev <> [] ->
   exists idxs m',
     render_frame m (prev_terminal_size m) ascii_frame
     = Some (map (fun i =>
                    At (i + 1)
                       (pad_line prev i (nth i (split_lines ascii_frame) [])))
                 idxs, m') /\
     StronglySorted lt idxs /\
     Forall (fun i => (i < length (split_lines ascii_frame))%nat) idxs).
Proof.
  intros Hp. split.
  - intros ->. now apply render_frame_empty_mirror.
  - intros Hne. rewrite (render_frame_same_size m ascii_frame prev Hp).
    rewrite (diff_writes_map _ _ (split_lines_nonempty ascii_frame) Hne).
    cbn [bind]. eexists. eexists. split; [reflexivity|]. split.
    + apply sorted_filter, sorted_filter, sorted_seq.
    + apply Forall_forall. intros i Hi. apply filter_In in Hi.
      now apply Nat.ltb_lt.
Qed.

Lemma writes_in_line_order_witness :
  exists idxs m',
    render_frame Samples.old_mirror (80, 24) Samples.shorter_line
    = Some (map (fun i =>
                   At (i + 1)
                      (pad_line [s "abc"; s "de"] i
                                (nth i (split_lines Samples.shorter_line) [])))
                idxs, m') /\
    StronglySorted lt idxs /\
    Forall (fun i => (i < length (split_lines Samples.shorter_line))%nat) idxs.
Proof.
  apply (writes_in_line_order Samples.old_mirror [s "abc"; s "de"]
           Samples.shorter_line).
  - reflexivity.
  - discriminate.
Defined.

End DiffFacts.

(** ** A whole run of the ANSI renderer *)

Module RunFacts.
Import Py Converter Renderer RendererFacts Notions.

(** Joining undoes splitting. *)
Lemma join_split_nl text : forall cur,
  join [NL] (split_nl text cur) = rev cur ++ text.
Proof.
  induction text as [|c text IH]; intros cur; cbn [split_nl].
  - cbn [join]. now rewrite app_nil_r.
  - destruct (Ascii.eqb_spec c NL) as [->|_].
    + pose proof (split_nl_nonempty text []) as Hne.
      destruct (split_nl text []) as [|l rest] eqn:E; [congruence|].
      change (join [NL] (rev cur :: l :: rest))
        with (rev cur ++ [NL] ++ join [NL] (l :: rest)).
      now rewrite <- E, IH.
    + rewrite IH. cbn [rev]. now rewrite <- app_assoc.
Qed.

Lemma join_split ascii_frame :
  join [NL] (split_lines ascii_frame) = ascii_frame.
Proof. apply (join_split_nl ascii_frame []). Qed.

(** A line break in plain text, above the last row: to the start of
    the next row. *)
Lemma feed_newline t :
  parser t = Ground -> (S (cur_row (screen t)) < lines t)%nat ->
  feed_char t NL
  = {| screen := {| cells := cells (screen t);
                    cur_row := S (cur_row (screen t)); cur_col := O |};
       columns := columns t; lines := lines t; parser := Ground |}.
Proof.
  intros Hp Hr. unfold feed_char. change (Ascii.eqb NL ESC) with false.
  cbv iota. rewrite Hp, Ascii.eqb_refl. unfold with_screen, line_feed.
  rewrite (proj2 (Nat.ltb_lt _ _) Hr), Hp. reflexivity.
Qed.

(** Lines of colour text written one under the other from the start
    of the cursor's row, each staying on its row and the last one on a
    row the terminal has: each row shows its line over what it held. *)
Lemma feed_lines ls : forall t,
  ls <> [] ->
  Forall (one_row t) ls -> Forall no_newline ls ->
  parser t = Ground -> cur_col (screen t) = O ->
  (cur_row (screen t) + length ls <= lines t)%nat ->
  forall r k,
    cells (screen (feed t (join [NL] ls))) r k
    = if (cur_row (screen t) <=? r)%nat
         && (r <? cur_row (screen t) + length ls)%nat
         && (k <? visible_width (nth (r - cur_row (screen t)) ls []))%nat
      then nth k (strip_ansi false (nth (r - cur_row (screen t)) ls [])) SPACE
      else cells (screen t) r k.
Proof.
  induction ls as [|l ls IH]; intros t Hne H1 Hnl Hp Hc Hrows r k;
    [congruence|].
  inversion H1 as [|? ? [Hcol Hw] H1']; subst.
  inversion Hnl as [|? ? Hl Hnl']; subst.
  assert (Efeed : feed t l
                  = {| screen := write (screen t) (strip_ansi false l);
                       columns := columns t; lines := lines t;
                       parser := Ground |}).
  { apply (feed_colour_text l InText t Hcol Hp).
    cbn [in_escape]. rewrite Hc, <- visible_width_strip. exact Hw. }
  destruct (write_cells (strip_ansi false l) (screen t)
              (strip_ansi_clean l false Hl)) as [Wr [Wc Wcells]].
  rewrite Hc in Wcells. cbn [Nat.add] in Wcells.
  rewrite <- visible_width_strip in Wcells.
  destruct ls as [|l' ls'].
  - cbn [join length]. rewrite Efeed. cbn [screen]. rewrite Wcells.
    destruct (Nat.eqb_spec r (cur_row (screen t))) as [->|Hr].
    + rewrite Nat.leb_refl, Nat.sub_diag. cbn [nth andb Nat.leb].
      destruct (Nat.ltb_spec (cur_row (screen t)) (cur_row (screen t) + 1));
        [|lia].
      rewrite Nat.sub_0_r. reflexivity.
    + cbn [andb].
      destruct (Nat.leb_spec (cur_row (screen t)) r); cbn [andb];
        [|reflexivity].
      destruct (Nat.ltb_spec r (cur_row (screen t) + 1)); [lia|reflexivity].
  - change (join [NL] (l :: l' :: ls'))
      with (l ++ NL :: join [NL] (l' :: ls')).
    rewrite feed_app.
    change (feed (feed t l) (NL :: join [NL] (l' :: ls')))
      with (feed (feed_char (feed t l) NL) (join [NL] (l' :: ls'))).
    cbn [length] in Hrows.
    rewrite Efeed, feed_newline
      by (reflexivity || (cbn [screen lines]; rewrite Wr; lia)).
    cbn [screen columns lines]. rewrite Wr.
    rewrite IH; cbn [screen columns lines parser cur_row cur_col cells length];
      try reflexivity; try (discriminate || assumption || lia).
    rewrite Wcells.
      destruct (Nat.leb_spec (S (cur_row (screen t))) r) as [Hr|Hr].
      * destruct (Nat.leb_spec (cur_row (screen t)) r); [|lia].
        replace (r - cur_row (screen t))%nat
          with (S (r - S (cur_row (screen t)))) by lia.
        cbn [nth andb].
        destruct (Nat.ltb_spec r (S (cur_row (screen t)) + S (length ls')));
          destruct (Nat.ltb_spec r (cur_row (screen t) + S (S (length ls'))));
          try lia; cbn [andb].
        -- destruct (_ <? _)%nat; [reflexivity|].
           destruct (Nat.eqb_spec r (cur_row (screen t))); [lia|reflexivity].
        -- destruct (Nat.eqb_spec r (cur_row (screen t))); [lia|reflexivity].
      * cbn [andb].
        destruct (Nat.eqb_spec r (cur_row (screen t))) as [->|Hne'].
        -- rewrite Nat.leb_refl, Nat.sub_diag. cbn [nth andb Nat.leb].
           destruct (Nat.ltb_spec (cur_row (screen t))
                       (cur_row (screen t) + S (S (length ls')))); [|lia].
           rewrite Nat.sub_0_r. reflexivity.
        -- destruct (Nat.leb_spec (cur_row (screen t)) r); [lia|reflexivity].
Qed.

(** On a fresh terminal a frame written whole shows as itself, when
    it stays within the terminal. *)
Lemma whole_frame_shows (columns lines : nat) (ascii_frame : str) :
  whole_fits (fresh_tty columns lines) ascii_frame ->
  shows (emit (fresh_tty columns lines) (Whole ascii_frame))
        (split_lines ascii_frame).
Proof.
  intros [Hrows Hfit] r k. unfold emit. cbn [chunk_text].
  rewrite <- (join_split ascii_frame) at 1.
  rewrite feed_lines;
    try (apply split_lines_nonempty || exact Hfit || reflexivity
         || exact Hrows).
  - cbn [fresh_tty screen fresh_term cur_row cells Nat.leb andb Nat.add].
    rewrite Nat.sub_0_r. unfold grid_of_lines, blank. rewrite nth_strip.
    destruct (Nat.ltb_spec r (length (split_lines ascii_frame))) as [Hr|Hr];
      cbn [andb].
    + destruct (Nat.ltb_spec k (visible_width
                                  (nth r (split_lines ascii_frame) [])))
        as [|Hk]; [reflexivity|].
      rewrite visible_width_strip in Hk. now rewrite nth_overflow.
    + rewrite (nth_overflow (split_lines ascii_frame)) by assumption.
      now destruct k.
  - apply (split_nl_clean ascii_frame []). intros [].
Qed.

Lemma emit_all_app t a b :
  emit_all t (a ++ b) = emit_all (emit_all t a) b.
Proof. apply fold_left_app. Qed.

Lemma steady_cons size f frames :
  steady size (f :: frames) = (size, f) :: steady size frames.
Proof. reflexivity. Qed.

Lemma last_cons_default {A} (l : list A) : forall a d d',
  last (a :: l) d = last (a :: l) d'.
Proof.
  induction l as [|b l IH]; intros a d d'; [reflexivity|].
  change (last (a :: b :: l) d) with (last (b :: l) d).
  change (last (a :: b :: l) d') with (last (b :: l) d').
  apply IH.
Qed.

Lemma last_map_lines frames : forall first,
  last (map split_lines frames) (split_lines first)
  = split_lines (last frames first).
Proof.
  induction frames as [|f frames IH]; intros first; [reflexivity|].
  cbn [map]. destruct frames as [|g frames]; [reflexivity|].
  change (last (f :: g :: frames) first) with (last (g :: frames) first).
  rewrite <- IH. reflexivity.
Qed.

(** Staying put depends on the size of the terminal only. *)
Lemma stays_put_size t t' frames : forall prev,
  columns t' = columns t -> lines t' = lines t ->
  stays_put t prev frames -> stays_put t' prev frames.
Proof.
  induction frames as [|f frames IH]; intros prev Ec El H; [exact I|].
  destruct H as [Hrows [Hcov H]]. cbn [stays_put].
  rewrite El. split; [exact Hrows|]. split; [|now apply IH].
  intros i Hi Hd. destruct (Hcov i Hi Hd) as [[Hc Hw] Hv].
  unfold covers, one_row. rewrite Ec. auto.
Qed.

Lemma render_loop_steady frames : forall m prev t,
  prev_frame_lines m = Some prev ->
  prev <> [] ->
  shows t prev ->
  growing (length prev) frames ->
  stays_put t prev frames ->
  exists out,
    render_loop m (steady (prev_terminal_size m) frames) = (out, false) /\
    shows (emit_all t out) (last (map split_lines frames) prev).
Proof.
  induction frames as [|f frames IH];
    intros m prev t Hp Hne Hshow Hgrow Hstay.
  - exists []. split; [reflexivity|exact Hshow].
  - destruct Hgrow as [Hlen Hgrow]. destruct Hstay as [Hrows [Hcov Hstay]].
    rewrite steady_cons. cbn [render_loop].
    rewrite (render_frame_same_size m f prev Hp).
    rewrite (diff_writes_map _ _ (split_lines_nonempty f) Hne).
    cbn [bind].
    set (out1 := map _ _).
    assert (Hshow1 : shows (emit_all t out1) (split_lines f)).
    { intros r k. apply (diffed_rows prev (split_lines f) t); auto.
      - apply frame_line_clean.
      - destruct (Nat.lt_ge_cases r (length (split_lines f)));
          [now left|right].
        rewrite !nth_overflow by lia. reflexivity. }
    destruct (IH {| prev_frame_lines := Some (split_lines f);
                    prev_terminal_size := prev_terminal_size m |}
                 (split_lines f) (emit_all t out1) eq_refl
                 (split_lines_nonempty f) Hshow1 Hgrow)
      as [out [E Hlast]].
    + destruct (emit_all_size out1 t) as [Ec El].
      now apply (stays_put_size t).
    + cbn [prev_terminal_size] in E. rewrite E.
      exists (out1 ++ out). split; [reflexivity|].
      rewrite emit_all_app.
      destruct frames as [|g frames]; [exact Hlast|].
      cbn [map] in *.
      change (last (split_lines f :: split_lines g :: map split_lines frames)
                   prev)
        with (last (split_lines g :: map split_lines frames) prev).
      now rewrite (last_cons_default _ _ prev (split_lines f)).
Qed.

(** In a run the diff never raises: the mirror, once there is one, is
    the split of a frame and so never the empty list. The loop is
    left without an exception whatever the frames and the terminal
    sizes are. *)
Lemma render_loop_returns rounds : forall m,
  prev_frame_lines m <> Some [] ->
  snd (render_loop m rounds) = false.
Proof.
  induction rounds as [|[size f] rounds IH]; intros m Hm; [reflexivity|].
  cbn [render_loop].
  assert (E : exists out,
             render_frame m size f
             = Some (out,
                     {| prev_frame_lines := Some (split_lines f);
                        prev_terminal_size :=
                          if negb ((fst size =? fst (prev_terminal_size m))
                                   && (snd size
                                       =? snd (prev_terminal_size m)))
                          then size else prev_terminal_size m |})).
  { unfold render_frame.
    destruct (negb _); [eexists; reflexivity|].
    destruct (prev_frame_lines m) as [prev|]; [|eexists; reflexivity].
    rewrite (diff_writes_map _ prev (split_lines_nonempty f))
      by congruence.
    eexists. reflexivity. }
  destruct E as [out ->].
  specialize (IH {| prev_frame_lines := Some (split_lines f);
                    prev_terminal_size :=
                      if negb ((fst size =? fst (prev_terminal_size m))
                               && (snd size =? snd (prev_terminal_size m)))
                      then size else prev_terminal_size m |}).
  destruct (render_loop _ rounds) as [later raised]. cbn [snd] in *.
  apply IH. cbn [prev_frame_lines]. intros H. injection H as H.
  exact (split_lines_nonempty f H).
Qed.

Lemma render_frames_sys_partial_returns initial_size rounds term_height :
  snd (render_frames_sys_partial initial_size rounds term_height) = false.
Proof.
  unfold render_frames_sys_partial.
  pose proof (render_loop_returns rounds
                {| prev_frame_lines := None;
                   prev_terminal_size := initial_size |}) as H.
  destruct (render_loop _ rounds) as [out raised]. cbn [snd] in *.
  apply H. discriminate.
Qed.

(** X5. A run of the renderer on a freshly reset terminal that keeps
    its size, over frames none of which has fewer lines than the one
    before, and which stay within the terminal (the first frame has no
    more lines than the terminal has rows and no line wider than it;
    every line written for a later frame stays on its row and covers
    the line it replaces): the loop ends without an exception, and
    when the last frame has been handled the terminal shows that
    frame. *)
Theorem run_shows_last_frame (size : Z * Z) (columns lines : nat)
        (first : str) (frames : list str) :
  growing 0 (first :: frames) ->
  whole_fits (fresh_tty columns lines) first ->
  stays_put (fresh_tty columns lines) (split_lines first) frames ->
  exists out,
    render_loop {| prev_frame_lines := None; prev_terminal_size := size |}
                (steady size (first :: frames))
    = (out, false) /\
    shows (emit_all (fresh_tty columns lines) out)
          (split_lines (last frames first)).
Proof.
  intros [_ Hgrow] Hwhole Hstay.
  rewrite steady_cons. cbn [render_loop]. unfold render_frame.
  cbn [prev_terminal_size prev_frame_lines fst snd]. rewrite !Z.eqb_refl.
  cbn [andb negb app bind].
  destruct (render_loop_steady frames
              {| prev_frame_lines := Some (split_lines first);
                 prev_terminal_size := size |}
              (split_lines first)
              (emit (fresh_tty columns lines) (Whole first)) eq_refl
              (split_lines_nonempty first)
              (whole_frame_shows columns lines first Hwhole) Hgrow)
    as [out [E Hlast]].
  - apply (stays_put_size (fresh_tty columns lines)); try exact Hstay;
      apply feed_size.
  - cbn [prev_terminal_size] in E. rewrite E.
    exists (Whole first :: out). split; [reflexivity|].
    rewrite <- last_map_lines. exact Hlast.
Qed.

Lemma run_shows_last_frame_witness :
  exists out,
    render_loop {| prev_frame_lines := None;
                   prev_terminal_size := (80, 24) |}
                (steady (80, 24) [Samples.white_frame; Samples.darker_frame])
    = (out, false) /\
    shows (emit_all (fresh_tty 80 24) out)
          (split_lines Samples.darker_frame).
Proof.
  apply (run_shows_last_frame (80, 24) 80 24 Samples.white_frame
           [Samples.darker_frame]).
  - vm_compute. repeat split; lia.
  - split; [vm_compute; lia|].
    repeat constructor; vm_compute; lia.
  - split; [vm_compute; lia|]. split; [|exact I].
    intros [|[|i]] Hi Hd.
    + repeat split; vm_compute; lia || reflexivity.
    + exfalso. apply Hd. reflexivity.
    + vm_compute in Hi. lia.
Defined.

End RunFacts.

(** ** The line diff on plain text *)

Module PlainFacts.
Import Py Converter Renderer RendererFacts Notions.

(** Plain text is colour text that shows as it is. *)
Lemma plain_colour line :
  plain_text line = true ->
  colour_text line = true /\ strip_ansi false line = line.
Proof.
  unfold colour_text, plain_text.
  induction line as [|c line IH]; intros H; [split; reflexivity|].
  cbn [forallb] in H. apply andb_prop in H. destruct H as [Hc H].
  apply andb_prop in Hc. destruct Hc as [He Hp].
  apply negb_true_iff in He.
  destruct (IH H) as [IH1 IH2].
  cbn [colour_scan strip_ansi]. rewrite He, Hp, IH1, IH2. split; reflexivity.
Qed.

Lemma plain_width line :
  plain_text line = true -> visible_width line = length line.
Proof.
  intros H. rewrite visible_width_strip.
  now rewrite (proj2 (plain_colour line H)).
Qed.

Lemma plain_padded line n :
  plain_text line = true -> plain_text (line ++ repeat SPACE n) = true.
Proof.
  intros H. unfold plain_text in *. rewrite forallb_app, H. cbn [andb].
  induction n as [|n IH]; [reflexivity|]. cbn [repeat forallb].
  now rewrite IH.
Qed.

Lemma plain_pad_line (prev : list str) i new_line :
  plain_text new_line = true ->
  plain_text (pad_line prev i new_line) = true.
Proof.
  intros H. unfold pad_line.
  destruct (i <? length prev)%nat; [|exact H].
  destruct (length new_line <? length (nth i prev []))%nat; [|exact H].
  now apply plain_padded.
Qed.

(** On plain text the padding does what it is for: what is written
    is as long as the longer of the two lines, so it covers the old
    line, and it stays on its row when both lines do. *)
Lemma pad_line_covers (t : Tty) (prev : list str) i new_line :
  plain_text (nth i prev []) = true ->
  plain_text new_line = true ->
  (length (nth i prev []) <= columns t)%nat ->
  (length new_line <= columns t)%nat ->
  covers t (nth i prev []) (pad_line prev i new_line) /\
  length (pad_line prev i new_line)
  = Nat.max (length new_line) (length (nth i prev [])).
Proof.
  intros Ho Hn Hwo Hwn.
  pose proof (plain_pad_line prev i new_line Hn) as Hp.
  assert (Hlen : length (pad_line prev i new_line)
                 = Nat.max (length new_line) (length (nth i prev []))).
  { unfold pad_line.
    destruct (Nat.ltb_spec i (length prev)) as [Hi|Hi].
    - destruct (Nat.ltb_spec (length new_line) (length (nth i prev [])));
        [|lia].
      rewrite length_app, repeat_length. lia.
    - rewrite (nth_overflow prev) by assumption. cbn [length]. lia. }
  split; [|exact Hlen].
  unfold covers, one_row.
  rewrite (plain_width _ Hp), (plain_width _ Ho), Hlen.
  split; [split; [exact (proj1 (plain_colour _ Hp))|lia]|lia].
Qed.

(** X30. Frames of plain text (characters that take a cell, no escape
    sequence), diffed with no terminal resize against a mirror of
    plain text that is not empty, on a terminal that shows the mirror,
    has the rows of the new frame and is as wide as the lines of both:
    each line written is as long as the longer of the new and the old
    line, and after the writes every row of the new frame shows its
    line, blank past its end; the terminal shows the new frame on all
    rows when it has no fewer lines than the mirror. *)
Theorem plain_diff_repaints (m : Mirror) (prev : list str)
        (ascii_frame : str) (t0 : Tty) :
  prev_frame_lines m = Some prev ->
  prev <> [] ->
  Forall (fun l => plain_text l = true /\ (length l <= columns t0)%nat)
         prev ->
  Forall (fun l => plain_text l = true /\ (length l <= columns t0)%nat)
         (split_lines ascii_frame) ->
  (length (split_lines ascii_frame) <= lines t0)%nat ->
  shows t0 prev ->
  exists out m',
    render_frame m (prev_terminal_size m) ascii_frame = Some (out, m') /\
    (forall i text,
        In (At (i + 1) text) out ->
        length text
        = Nat.max (length (nth i (split_lines ascii_frame) []))
                  (length (nth i prev []))) /\
    (forall r k,
        (r < length (split_lines ascii_frame))%nat ->
        cells (screen (emit_all t0 out)) r k
        = grid_of_lines (split_lines ascii_frame) r k) /\
    ((length prev <= length (split_lines ascii_frame))%nat ->
     forall r k,
       cells (screen (emit_all t0 out)) r k
       = grid_of_lines (split_lines ascii_frame) r k).
Proof.
  intros Hp Hne Hprev Hnew Hrows Hshow.
  rewrite (render_frame_same_size m ascii_frame prev Hp).
  rewrite (diff_writes_map _ _ (split_lines_nonempty ascii_frame) Hne).
  cbn [bind]. eexists. eexists. split; [reflexivity|].
  assert (Hline : forall (ls : list str) i,
             Forall (fun l => plain_text l = true
                              /\ (length l <= columns t0)%nat) ls ->
             plain_text (nth i ls []) = true
             /\ (length (nth i ls []) <= columns t0)%nat).
  { intros ls i H. rewrite Forall_forall in H.
    destruct (Nat.lt_ge_cases i (length ls)) as [Hi|Hi].
    - apply H, nth_In, Hi.
    - rewrite nth_overflow by assumption. split; [reflexivity|simpl; lia]. }
  assert (Hcov : forall i,
             covers t0 (nth i prev [])
                    (pad_line prev i (nth i (split_lines ascii_frame) []))
             /\ length (pad_line prev i (nth i (split_lines ascii_frame) []))
                = Nat.max (length (nth i (split_lines ascii_frame) []))
                          (length (nth i prev []))).
  { intros i. destruct (Hline prev i Hprev) as [Ho Hwo].
    destruct (Hline _ i Hnew) as [Hn Hwn].
    now apply pad_line_covers. }
  assert (Hgrid : forall r k,
             grid_of_lines (map (strip_ansi false) (split_lines ascii_frame))
                           r k
             = grid_of_lines (split_lines ascii_frame) r k).
  { intros r k. unfold grid_of_lines. rewrite nth_strip.
    now rewrite (proj2 (plain_colour _ (proj1 (Hline _ r Hnew)))). }
  pose proof (diffed_rows prev (split_lines ascii_frame) t0
                (frame_line_clean ascii_frame) Hrows
                (fun i _ _ => proj1 (Hcov i)) Hshow) as H.
  split; [|split].
  - intros i text Hin. apply in_map_iff in Hin.
    destruct Hin as [j [E _]]. injection E as Ej <-.
    assert (j = i) by lia. subst j. apply Hcov.
  - intros r k Hr. rewrite <- Hgrid. apply H. now left.
  - intros Hlen r k. rewrite <- Hgrid.
    destruct (Nat.lt_ge_cases r (length (split_lines ascii_frame)))
      as [Hr|Hr]; apply H; [now left|right].
    rewrite !nth_overflow by lia. reflexivity.
Qed.

Lemma plain_diff_repaints_witness :
  exists out m',
    render_frame Samples.old_mirror
      (prev_terminal_size Samples.old_mirror) Samples.shorter_line
    = Some (out, m') /\
    out = [At 2 (s "d ")] /\
    cells (screen (emit_all Samples.old_tty out)) 1%nat 1%nat = SPACE.
Proof.
  destruct (plain_diff_repaints Samples.old_mirror [s "abc"; s "de"]
              Samples.shorter_line Samples.old_tty)
    as [out [m' [E [_ [_ H]]]]].
  - reflexivity.
  - discriminate.
  - repeat constructor; vm_compute; lia.
  - repeat constructor; vm_compute; lia.
  - vm_compute. lia.
  - intros r k. reflexivity.
  - exists out, m'. split; [exact E|].
    rewrite (H ltac:(vm_compute; lia) 1%nat 1%nat).
    vm_compute in E. injection E as <- _. split; reflexivity.
Defined.

End PlainFacts.

(** ** Extractor and converter, further *)

Module StageFacts.
Import Py Pipeline PipelineFacts Notions.

Section Extractor.

Variable Frame : Type.

(** How far the read loop gets: to the end of the stream, or to the
    round in which it is interrupted. *)
Lemma read_loop_prefix fps (frames : list Frame) :
  0 < fps ->
  forall interrupt q,
  read_loop fps frames interrupt q
  = (q ++ map Some
            (firstn (match interrupt with
                     | Some n => n
                     | None => length frames
                     end) frames),
     match interrupt with
     | Some n => if (n <=? length frames)%nat then Interrupted else Exhausted
     | None => Exhausted
     end).
Proof.
  intros Hfps.
  assert (Hneg : (fps <? 0) = false) by (apply Z.ltb_ge; lia).
  induction frames as [|f frames IH]; intros [[|n]|] q;
    cbn [read_loop firstn map length Nat.leb option_map Nat.pred];
    rewrite ?Hneg, ?app_nil_r; try reflexivity.
  - rewrite IH. cbn [app]. now rewrite <- app_assoc.
  - rewrite IH. cbn [app]. now rewrite <- app_assoc.
Qed.

(** X6. When the source opens and [fps] is positive, whatever is on
    the queue afterwards is what was there before, then the frames read
    (all of them, or those of the rounds before a keyboard interrupt),
    in capture order, then the end-of-stream marker as the last item;
    the source is released, no exception leaves the function, and the
    interruption text (a line break, then the message) is printed
    exactly when the run was interrupted. *)
Theorem extract_frames_marker_last (fps : Z) (frames : list Frame)
        (interrupt : option nat) (q : list (option Frame)) :
  0 < fps ->
  raw_queue (extract_frames {| isOpened := true; stream := frames |}
                            fps interrupt q)
  = q ++ map Some (firstn (match interrupt with
                           | Some n => n
                           | None => length frames
                           end) frames) ++ [None] /\
  released (extract_frames {| isOpened := true; stream := frames |}
                           fps interrupt q) = true /\
  raised (extract_frames {| isOpened := true; stream := frames |}
                         fps interrupt q) = None /\
  printed (extract_frames {| isOpened := true; stream := frames |}
                          fps interrupt q)
  = match interrupt with
    | Some n =>
        if (n <=? length frames)%nat
        then [String "010"%char
                     "[!] Interruzione nell'estrazione dei frame."%string]
        else []
    | None => []
    end.
Proof.
  intros Hfps. unfold extract_frames. cbn [isOpened negb stream].
  destruct (Z.eqb_spec fps 0) as [E|_]; [lia|].
  rewrite read_loop_prefix by assumption.
  cbn [raw_queue released printed raised].
  rewrite <- app_assoc. split; [reflexivity|]. split; [reflexivity|].
  destruct interrupt as [n|]; [|split; reflexivity].
  destruct (n <=? length frames)%nat; split; reflexivity.
Qed.

End Extractor.

Section ConverterLoop.

Variables Frame Ascii : Type.
Variable conversion_function : Frame * Z -> option Ascii.
Variable new_width : Z.

Lemma mapM_app_some {A B} (f : A -> option B) l1 l2 r1 r2 :
  mapM f l1 = Some r1 -> mapM f l2 = Some r2 ->
  mapM f (l1 ++ l2) = Some (r1 ++ r2).
Proof.
  revert r1. induction l1 as [|a l1 IH]; intros r1 H1 H2; simpl in *.
  - injection H1 as <-. exact H2.
  - destruct (f a) as [b|]; [|discriminate].
    destruct (mapM f l1) as [r|]; [|discriminate].
    injection H1 as <-. now rewrite (IH r eq_refl H2).
Qed.

Lemma mapM_app_none_l {A B} (f : A -> option B) l1 l2 :
  mapM f l1 = None -> mapM f (l1 ++ l2) = None.
Proof.
  induction l1 as [|a l1 IH]; intros H1; simpl in *; [discriminate|].
  destruct (f a) as [b|]; [|reflexivity].
  destruct (mapM f l1) as [r|]; [discriminate|]. now rewrite IH.
Qed.

Lemma mapM_app_none_r {A B} (f : A -> option B) l1 l2 :
  mapM f l2 = None -> mapM f (l1 ++ l2) = None.
Proof.
  induction l1 as [|a l1 IH]; intros H2; simpl; [exact H2|].
  destruct (f a) as [b|]; [|reflexivity]. now rewrite IH.
Qed.

Lemma batch_of_app (a b : list Frame) :
  batch_of new_width (a ++ b) = batch_of new_width a ++ batch_of new_width b.
Proof. apply map_app. Qed.

(** The loop from any state whose script still holds [frames] and
    then the marker, conversions being free to fail. *)
Lemma convert_loop_ends (elapsed : nat -> float) (k : Z) :
  1 <= k ->
  forall fuel st frames,
    stop_event st = false ->
    items (gets st) = map Some frames ++ [None] ->
    (length (gets st) < fuel)%nat ->
    exists st',
      convert_loop conversion_function new_width elapsed k fuel st
        = Some st' /\
      ended conversion_function new_width frames st st'.
Proof.
  intros Hk.
  induction fuel as [|fuel IH]; intros st frames Hs Hi Hf; [lia|].
  destruct (collect new_width (Z.to_nat k) (gets st) []) as [[batch eos] rest]
    eqn:Ec.
  rewrite (convert_loop_round _ _ conversion_function new_width elapsed k
             fuel st _ _ _ Hs Ec). cbv zeta.
  destruct (collect_spec _ new_width _ _ _ _ _ _ Ec)
    as [fs [Hb [Hit [_ Hlt]]]].
  cbn [app] in Hb. subst batch.
  assert (Hne : gets st <> []).
  { intros E. rewrite E in Hi. destruct frames; discriminate. }
  specialize (Hlt ltac:(lia) Hne).
  destruct fuel as [|fuel]; [lia|].
  rewrite Hi in Hit.
  destruct eos.
  - (* the marker was met: [fs] is everything that was left *)
    cbn [app] in Hit.
    destruct (somes_then_none _ _ _ _ _ Hit) as [<- _].
    destruct frames as [|f frames].
    + cbn [batch_of map].
      rewrite convert_loop_stopped by reflexivity.
      eexists. split; [reflexivity|].
      exists [], [], []. repeat split.
      * now rewrite enqueued_stop, app_nil_r.
      * left. auto.
    + cbn [batch_of map].
      destruct (pool_map conversion_function
                  ((f, new_width) :: map (fun frame => (frame, new_width)) frames))
        as [afs|] eqn:Ep.
      * rewrite convert_loop_stopped by reflexivity.
        eexists. split; [reflexivity|].
        exists (f :: frames), [], afs. repeat split.
        -- now rewrite app_nil_r.
        -- exact Ep.
        -- rewrite enqueued_puts, ascii_queue_app. cbn [ascii_queue].
           now rewrite app_nil_r.
        -- left. auto.
      * eexists. split; [reflexivity|].
        exists [], (f :: frames), []. repeat split.
        -- unfold enqueued. cbn [trace]. rewrite !ascii_queue_app.
           cbn [ascii_queue]. now rewrite !app_nil_r.
        -- right. split; [exact Ep|]. eexists. reflexivity.
  - (* a partial or full batch, more to come *)
    cbn [app] in Hit. symmetry in Hit.
    destruct (somes_prefix _ _ _ _ Hit) as [more [-> Hrest]].
    destruct fs as [|f fs].
    + cbn [batch_of map].
      destruct (IH {| gets := rest; stop_event := false;
                      trace := trace st; batch_no := batch_no st |}
                   more eq_refl Hrest)
        as [st' [Hrun Hend]]; [cbn [gets]; lia|].
      exists st'. split; [exact Hrun|]. exact Hend.
    + cbn [batch_of map].
      destruct (pool_map conversion_function
                  ((f, new_width) :: map (fun frame => (frame, new_width)) fs))
        as [r1|] eqn:Ep.
      * destruct (IH {| gets := rest; stop_event := false;
                        trace := trace st
                                 ++ map (fun af =>
                                           Put af
                                             (conversion_time_ms elapsed st
                                                ((f, new_width)
                                                   :: map (fun frame =>
                                                             (frame, new_width))
                                                          fs))) r1;
                        batch_no := S (batch_no st) |}
                     more eq_refl Hrest)
          as [st' [Hrun [done [rest' [afs [Hfr [Hconv [Hq Hcase]]]]]]]];
          [cbn [gets]; lia|].
        exists st'. split; [exact Hrun|].
        exists ((f :: fs) ++ done), rest', (r1 ++ afs). repeat split.
        -- rewrite Hfr. now rewrite <- app_assoc.
        -- rewrite batch_of_app. now apply mapM_app_some.
        -- rewrite Hq, enqueued_puts. now rewrite app_assoc.
        -- destruct Hcase as [Hdone|[Hnone Htr]]; [left; exact Hdone|].
           right. split; [|exact Htr].
           rewrite batch_of_app. now apply mapM_app_none_r.
      * eexists. split; [reflexivity|].
        exists [], ((f :: fs) ++ more), []. repeat split.
        -- unfold enqueued. cbn [trace]. rewrite !ascii_queue_app.
           cbn [ascii_queue]. now rewrite !app_nil_r.
        -- right. split.
           ++ rewrite batch_of_app. now apply mapM_app_none_l.
           ++ eexists. reflexivity.
Qed.

(** X7. Whatever the timing, the batch size [k >= 1] and the failures
    of the conversion, a run over a queue that holds [frames] and then
    the marker ends, and what it has enqueued is the conversion of a
    prefix of [frames], in order: nothing is reordered, duplicated or
    left out in the middle. Either that prefix is all of [frames] and
    the stop signal is set, or a conversion raised and the error was
    printed as the last thing the stage did. *)
Theorem convert_frames_prefix (elapsed : nat -> float) (k : Z)
        (frames : list Frame) (g : list (Got Frame)) (fuel : nat) :
  1 <= k ->
  items g = map Some frames ++ [None] ->
  (length g < fuel)%nat ->
  exists st' done rest afs,
    convert_frames conversion_function new_width elapsed k fuel g
      = Some st' /\
    frames = done ++ rest /\
    pool_map conversion_function (batch_of new_width done) = Some afs /\
    enqueued st' = afs /\
    ((rest = [] /\ stop_event st' = true)
     \/ (pool_map conversion_function (batch_of new_width frames) = None
         /\ exists tr, trace st' = tr ++ [PrintError])).
Proof.
  intros Hk Hi Hf.
  destruct (convert_loop_ends elapsed k Hk fuel
              {| gets := g; stop_event := false; trace := [];
                 batch_no := O |} frames eq_refl Hi Hf)
    as [st' [Hrun [done [rest [afs [H1 [H2 [H3 H4]]]]]]]].
  exists st', done, rest, afs. auto.
Qed.

(** X8. With a batch size of zero or less the [for] loop takes nothing
    from the queue, the batch stays empty and the stage goes round for
    ever (it never sets [stop_event] itself): no number of rounds is
    enough for it to end. *)
Theorem convert_frames_spins (elapsed : nat -> float) (k : Z)
        (g : list (Got Frame)) (fuel : nat) :
  k <= 0 ->
  convert_frames conversion_function new_width elapsed k fuel g = None.
Proof.
  intros Hk. unfold convert_frames.
  generalize (@nil (Event Ascii)) as tr. generalize O as n.
  induction fuel as [|fuel IH]; intros n tr; [reflexivity|].
  rewrite (convert_loop_round _ _ conversion_function new_width elapsed k
             fuel {| gets := g; stop_event := false; trace := tr;
                     batch_no := n |} [] false g eq_refl).
  - apply IH.
  - replace (Z.to_nat k) with O by lia. reflexivity.
Qed.

End ConverterLoop.

Import Samples.

Lemma extract_frames_marker_last_witness :
  raw_queue (extract_frames {| isOpened := true;
                               stream := [square_frame; wide_frame] |}
                            10 (Some 1%nat) [])
  = [Some square_frame; None] /\
  released (extract_frames {| isOpened := true;
                              stream := [square_frame; wide_frame] |}
                           10 (Some 1%nat) []) = true /\
  raised (extract_frames {| isOpened := true;
                            stream := [square_frame; wide_frame] |}
                         10 (Some 1%nat) []) = None /\
  printed (extract_frames {| isOpened := true;
                             stream := [square_frame; wide_frame] |}
                          10 (Some 1%nat) [])
  = [String "010"%char "[!] Interruzione nell'estrazione dei frame."%string].
Proof.
  apply (extract_frames_marker_last Converter.Image 10
           [square_frame; wide_frame] (Some 1%nat) []).
  lia.
Defined.

Lemma convert_frames_prefix_witness :
  exists st' done rest afs,
    convert_frames to_curses 2 half_second 2 4 mixed_script = Some st' /\
    [square_frame; wide_frame] = done ++ rest /\
    pool_map to_curses (batch_of 2 done) = Some afs /\
    enqueued st' = afs /\
    ((rest = [] /\ stop_event st' = true)
     \/ (pool_map to_curses (batch_of 2 [square_frame; wide_frame]) = None
         /\ exists tr, trace st' = tr ++ [PrintError])).
Proof.
  apply (convert_frames_prefix Converter.Image str to_curses 2 half_second 2
           [square_frame; wide_frame] mixed_script 4).
  - lia.
  - reflexivity.
  - simpl. lia.
Defined.

Lemma convert_frames_spins_witness :
  convert_frames to_curses 2 half_second 0 1000 prompt_script = None.
Proof.
  apply (convert_frames_spins Converter.Image str to_curses 2 half_second 0
           prompt_script 1000).
  lia.
Defined.

End StageFacts.

(** ** The three converters side by side *)

Module VariantFacts.
Import Py Converter ConverterFacts FrameFacts Notions.

(** X9. Of two pixels with 8-bit channels, the one whose channels sum
    to more never gets a glyph earlier in the ramp. *)
Theorem brighter_pixel_later_glyph (r1 g1 b1 r2 g2 b2 : Z) :
  pixel_ok (r1, g1, b1) -> pixel_ok (r2, g2, b2) ->
  r1 + g1 + b1 <= r2 + g2 + b2 ->
  char_index (brightness (r1, g1, b1)) <= char_index (brightness (r2, g2, b2)).
Proof.
  intros [Hr1 [Hg1 Hb1]] [Hr2 [Hg2 Hb2]] Hsum.
  rewrite !brightness_is_mean by assumption.
  pose proof (luma_range r1 g1 b1 Hr1 Hg1 Hb1).
  pose proof (luma_range r2 g2 b2 Hr2 Hg2 Hb2).
  apply glyph_index_monotone; try lia.
  apply Z.div_le_mono; lia.
Qed.

Lemma brighter_pixel_later_glyph_witness :
  char_index (brightness (10, 20, 30)) <= char_index (brightness (200, 0, 90)).
Proof.
  apply (brighter_pixel_later_glyph 10 20 30 200 0 90);
    unfold pixel_ok, is_u8; lia.
Defined.

Lemma color_index_range (p : Pixel) :
  pixel_ok p -> 16 <= color_index p <= 231.
Proof.
  destruct p as [[r g] b]. intros [Hr [Hg Hb]].
  destruct (quant6_small r Hr) as [Er Br].
  destruct (quant6_small g Hg) as [Eg Bg].
  destruct (quant6_small b Hb) as [Eb Bb].
  unfold color_index. rewrite Er, Eg, Eb.
  rewrite (u16_small (36 * _)) by lia.
  rewrite (u16_small (6 * _)) by lia.
  rewrite (u16_small (16 + _)) by lia.
  rewrite (u16_small (16 + _ + _)) by lia.
  rewrite u16_small by lia. lia.
Qed.

Lemma color_cell_total (p : Pixel) :
  pixel_ok p ->
  exists c, color_cell p = Some (c, color_index p) /\ In c ASCII_CHARS.
Proof.
  destruct p as [[r g] b]. intros Hp.
  destruct Hp as [Hr [Hg Hb]].
  destruct (pixel_glyph_index r g b Hr Hg Hb) as [c [Hn Hc]].
  exists c. split.
  - unfold color_cell. now rewrite Hc.
  - eapply nth_error_In. exact Hn.
Qed.

Lemma color_cells_of rgb h w :
  has_shape rgb h w -> 0 <= w ->
  exists cells,
    mapM (fun i =>
            mapM (fun j =>
                    row <- nth_error rgb i ;;
                    p <- nth_error row j ;;
                    color_cell p)
                 (seq 0 (Z.to_nat w)))
         (seq 0 (Z.to_nat h)) = Some cells /\
    Z.of_nat (length cells) = h /\
    Forall (fun row =>
              Z.of_nat (length row) = w /\
              Forall (fun cell : ascii * Z =>
                        In (fst cell) ASCII_CHARS /\ 16 <= snd cell <= 231)
                     row) cells.
Proof.
  intros [Hh Hrows] Hw.
  destruct (mapM_Forall2
              (fun i =>
                 mapM (fun j =>
                         row <- nth_error rgb i ;;
                         p <- nth_error row j ;;
                         color_cell p)
                      (seq 0 (Z.to_nat w)))
              (fun (_ : nat) (row : list (ascii * Z)) =>
                 Z.of_nat (length row) = w /\
                 Forall (fun cell : ascii * Z =>
                           In (fst cell) ASCII_CHARS /\ 16 <= snd cell <= 231)
                        row)
              (seq 0 (Z.to_nat h)))
    as [cells [Hm H2]].
  { apply Forall_forall. intros i Hi. apply in_seq in Hi.
    destruct (nth_error rgb i) as [row|] eqn:Erow;
      [|apply nth_error_None in Erow; lia].
    rewrite Forall_forall in Hrows.
    destruct (Hrows row (nth_error_In _ _ Erow)) as [Hlen Hpix].
    destruct (mapM_Forall2
                (fun j => r <- Some row ;; p <- nth_error r j ;; color_cell p)
                (fun (_ : nat) (cell : ascii * Z) =>
                   In (fst cell) ASCII_CHARS /\ 16 <= snd cell <= 231)
                (seq 0 (Z.to_nat w)))
      as [cs [Hcs Hf]].
    { apply Forall_forall. intros j Hj. apply in_seq in Hj. cbn [bind].
      destruct (nth_error row j) as [p|] eqn:Ep;
        [|apply nth_error_None in Ep; lia].
      rewrite Forall_forall in Hpix.
      pose proof (Hpix p (nth_error_In _ _ Ep)) as Hp.
      destruct (color_cell_total p Hp) as [c [Hc Hin]].
      cbn [bind]. exists (c, color_index p). split; [exact Hc|].
      split; [exact Hin|]. now apply color_index_range. }
    exists cs. split; [exact Hcs|]. split.
    - pose proof (Forall2_length Hf) as Hl. rewrite length_seq in Hl. lia.
    - clear Hcs. induction Hf; constructor; auto. }
  exists cells. split; [exact Hm|].
  pose proof (Forall2_length H2) as Hl. rewrite length_seq in Hl.
  split; [lia|].
  clear Hm Hl. induction H2; constructor; auto.
Qed.

(** *** Escape sequences leave only the glyph *)

Lemma strip_skip (body : str) : forall rest,
  (forall c, In c body -> c <> "m"%char) ->
  strip_ansi true (body ++ "m"%char :: rest) = strip_ansi false rest.
Proof.
  induction body as [|c body IH]; intros rest Hb; [reflexivity|].
  cbn [app strip_ansi].
  destruct (Ascii.eqb_spec c "m") as [E|_];
    [exfalso; now apply (Hb c (or_introl eq_refl))|].
  cbn [negb]. apply IH. intros c' Hc'. apply Hb. now right.
Qed.

Lemma strip_ansi_text r g b c rest :
  is_u8 r -> is_u8 g -> is_u8 b -> c <> ESC ->
  strip_ansi false (ansi_text r g b c ++ rest) = c :: strip_ansi false rest.
Proof.
  intros Hr Hg Hb Hc. rewrite ansi_text_layout.
  change (strip_ansi false (ESC :: ?x)) with (strip_ansi true x).
  rewrite strip_skip.
  - cbn [strip_ansi]. apply Ascii.eqb_neq in Hc. rewrite Hc. reflexivity.
  - intros x Hx.
    repeat (apply in_app_or in Hx; destruct Hx as [Hx|Hx]);
      try (match type of Hx with
           | In _ (fmt_d ?z) =>
               destruct (digits_are x z ltac:(assumption) Hx) as [_ Hm];
               exact Hm
           end);
      intros ->; simpl in Hx; intuition discriminate.
Qed.

Lemma strip_row (row : list Pixel) :
  Forall pixel_ok row ->
  exists cs gl,
    mapM ansi_cell row = Some cs /\
    mapM pixel_glyph row = Some gl /\
    strip_ansi false (concat cs) = gl /\
    no_newline (concat cs) /\ no_newline gl /\
    length gl = length row.
Proof.
  induction 1 as [|p row Hp _ [cs [gl [Hcs [Hgl [Hs [Hn1 [Hn2 Hlen]]]]]]]].
  - exists [], []. repeat split; auto; intros [].
  - destruct p as [[r g] b].
    destruct (glyph_total _ Hp) as [c [Hc [Hnl Hesc]]].
    destruct Hp as [Hr [Hg Hb]].
    exists (ansi_text r g b c :: cs), (c :: gl).
    cbn [mapM]. unfold ansi_cell at 1. rewrite Hc. cbn [bind].
    rewrite Hcs, Hgl. repeat split.
    + cbn [concat]. rewrite strip_ansi_text by assumption. now rewrite Hs.
    + cbn [concat]. intros Hin. apply in_app_or in Hin.
      destruct Hin as [Hin|Hin]; [|now apply Hn1].
      now apply (ansi_text_no_newline r g b c).
    + intros [E|Hin]; [congruence|now apply Hn2].
    + simpl. now rewrite Hlen.
Qed.

Lemma strip_rows rgb h w :
  has_shape rgb h w ->
  exists ansi glyphs,
    mapM (mapM ansi_cell) rgb = Some ansi /\
    mapM (mapM pixel_glyph) rgb = Some glyphs /\
    map (strip_ansi false) (map (@concat ascii) ansi) = glyphs /\
    Forall no_newline (map (@concat ascii) ansi) /\
    Forall no_newline glyphs /\
    Z.of_nat (length glyphs) = h /\
    Forall (fun l => Z.of_nat (length l) = w) glyphs.
Proof.
  intros [Hh Hrows]. revert h Hh.
  induction Hrows as [|row rgb [Hw Hpix] _ IH]; intros h Hh.
  - exists [], []. simpl in *. repeat split; auto.
  - destruct (strip_row row Hpix) as [cs [gl [Hcs [Hgl [Hs [Hn1 [Hn2 Hl]]]]]]].
    destruct (IH _ eq_refl) as [A [G [HA [HG [HS [HN1 [HN2 [HL HW]]]]]]]].
    exists (cs :: A), (gl :: G). cbn [mapM].
    rewrite Hcs, Hgl, HA, HG. repeat split.
    + cbn [map]. now rewrite Hs, HS.
    + cbn [map]. now constructor.
    + now constructor.
    + rewrite <- Hh. cbn [length]. lia.
    + constructor; [lia|exact HW].
Qed.

Section Variants.

Variable resize : Image -> Z -> Z -> option Image.
Variables (frame : Image) (new_width h0 : Z).

(** X10. On an image of the requested shape the colour converter
    yields [max(1, h0)] rows of [new_width] cells, every cell a
    character of the ramp paired with a palette index of the 6 x 6 x 6
    cube, 16 to 231. *)
Theorem color_frame_cells out :
  (forall w h o, resize frame w h = Some o -> has_shape o h w) ->
  scaled_height (fst (shape frame)) (snd (shape frame)) new_width
    = Some h0 ->
  0 <= new_width ->
  resize frame new_width (Z.max h0 1) = Some out ->
  exists cells,
    frame_to_ascii_curses_color resize (frame, new_width) = Some cells /\
    Z.of_nat (length cells) = Z.max 1 h0 /\
    Forall (fun row =>
              Z.of_nat (length row) = new_width /\
              Forall (fun cell : ascii * Z =>
                        In (fst cell) ASCII_CHARS /\ 16 <= snd cell <= 231)
                     row) cells.
Proof.
  intros resize_shape height_computed Hw Hres.
  unfold frame_to_ascii_curses_color.
  cbn [shape fst snd] in *. rewrite height_computed. cbn [bind].
  rewrite Hres. cbn [bind].
  destruct (color_cells_of (cvtColor_BGR2RGB out) (Z.max h0 1) new_width)
    as [cells [Hc [Hl Hrow]]]; auto.
  { apply cvtColor_shape, (resize_shape _ _ _ Hres). }
  exists cells. rewrite Hc. repeat split; auto. lia.
Qed.

(** X11. When the computed height is at least one, the two text
    converters succeed on the same frame and agree: taking the colour
    sequences out of each line of the ANSI frame leaves the lines of
    the plain frame, [h0] of them, each [new_width] characters long. *)
Theorem text_variants_agree out :
  (forall w h o, resize frame w h = Some o -> has_shape o h w) ->
  scaled_height (fst (shape frame)) (snd (shape frame)) new_width
    = Some h0 ->
  1 <= h0 ->
  resize frame new_width h0 = Some out ->
  exists ansi plain,
    frame_to_ascii resize (frame, new_width) = Some ansi /\
    frame_to_ascii_curses resize (frame, new_width) = Some plain /\
    map (strip_ansi false) (split_lines ansi) = split_lines plain /\
    Z.of_nat (length (split_lines plain)) = h0 /\
    Forall (fun l => Z.of_nat (length l) = new_width) (split_lines plain).
Proof.
  intros resize_shape height_computed Hh Hres.
  unfold frame_to_ascii, frame_to_ascii_curses.
  cbn [shape fst snd] in *. rewrite height_computed. cbn [bind].
  rewrite Hres. cbn [bind].
  destruct (strip_rows (cvtColor_BGR2RGB out) h0 new_width)
    as [A [G [HA [HG [HS [HN1 [HN2 [HL HW]]]]]]]].
  { apply cvtColor_shape, (resize_shape _ _ _ Hres). }
  rewrite HA, HG. cbn [bind]. do 2 eexists.
  split; [reflexivity|]. split; [reflexivity|].
  assert (HGne : G <> []) by (destruct G; [simpl in HL; lia|congruence]).
  assert (HAne : map (@concat ascii) A <> []).
  { intros E. rewrite E in HS. simpl in HS. now apply HGne. }
  rewrite !split_join by assumption.
  repeat split; assumption.
Qed.

End Variants.

Lemma wide_frame_pixels : Forall (Forall pixel_ok) Samples.wide_frame.
Proof.
  unfold Samples.wide_frame.
  apply Forall_forall. intros row Hrow. apply repeat_spec in Hrow. subst row.
  apply Forall_forall. intros p Hp. apply repeat_spec in Hp. subst p.
  unfold Samples.grey, pixel_ok, is_u8. lia.
Defined.

Lemma color_frame_cells_witness :
  exists cells,
    frame_to_ascii_curses_color cv2_resize (Samples.wide_frame, 3)
      = Some cells /\
    Z.of_nat (length cells) = Z.max 1 0 /\
    Forall (fun row =>
              Z.of_nat (length row) = 3 /\
              Forall (fun cell : ascii * Z =>
                        In (fst cell) ASCII_CHARS /\ 16 <= snd cell <= 231)
                     row) cells.
Proof.
  apply (color_frame_cells cv2_resize Samples.wide_frame 3 0
           [[Samples.grey; Samples.grey; Samples.grey]]).
  - intros w h o. apply cv2_resize_shape. exact wide_frame_pixels.
  - vm_compute. reflexivity.
  - lia.
  - vm_compute. reflexivity.
Defined.

Lemma text_variants_agree_witness :
  exists ansi plain,
    frame_to_ascii cv2_resize (Samples.square_frame, 2) = Some ansi /\
    frame_to_ascii_curses cv2_resize (Samples.square_frame, 2)
      = Some plain /\
    map (strip_ansi false) (split_lines ansi) = split_lines plain /\
    Z.of_nat (length (split_lines plain)) = 1 /\
    Forall (fun l => Z.of_nat (length l) = 2) (split_lines plain).
Proof.
  apply (text_variants_agree cv2_resize Samples.square_frame 2 1
           [[Samples.grey; Samples.grey]]).
  - intros w h o. apply cv2_resize_shape.
    repeat constructor; unfold is_u8; lia.
  - vm_compute. reflexivity.
  - lia.
  - vm_compute. reflexivity.
Defined.

(** *** What each converter returns, pixel by pixel *)

Lemma Forall2_map_l {A A' B} (f : A -> A') (P : A' -> B -> Prop) l bs :
  Forall2 P (map f l) bs <-> Forall2 (fun a b => P (f a) b) l bs.
Proof.
  split.
  - revert bs. induction l as [|a l IH]; intros bs H; inversion H; subst;
      constructor; auto.
  - induction 1; constructor; auto.
Qed.

Lemma Forall2_impl {A B} (P Q : A -> B -> Prop) l bs :
  (forall a b, P a b -> Q a b) -> Forall2 P l bs -> Forall2 Q l bs.
Proof. intros H. induction 1; constructor; auto. Qed.

(** Reading a list through its indices visits its elements. *)
Lemma Forall2_seq_nth {A B} (P : A -> B -> Prop) (l : list A) :
  forall (pre : list A) bs,
  Forall2 (fun i b => forall a, nth_error (pre ++ l) i = Some a -> P a b)
          (seq (length pre) (length l)) bs ->
  Forall2 P l bs.
Proof.
  induction l as [|a l IH]; intros pre bs H; cbn [length seq] in H.
  - inversion H. constructor.
  - inversion H as [|i b is' bs' Hab Hrest]; subst. constructor.
    + apply Hab. rewrite nth_error_app2 by lia.
      now rewrite Nat.sub_diag.
    + apply (IH (pre ++ [a])).
      rewrite length_app. cbn [length].
      replace (length pre + 1)%nat with (S (length pre)) by lia.
      eapply Forall2_impl; [|exact Hrest].
      intros i b' Hi a' Ha. apply Hi.
      now rewrite <- app_assoc in Ha.
Qed.

Lemma bgr_pixel (p : Pixel) :
  pixel_ok p ->
  exists c,
    glyph_for p c /\
    pixel_glyph (let '(b, g, r) := p in (r, g, b)) = Some c /\
    ansi_cell (let '(b, g, r) := p in (r, g, b))
      = Some (let '(b, g, r) := p in ansi_text r g b c) /\
    color_cell (let '(b, g, r) := p in (r, g, b))
      = Some (c, color_index (let '(b, g, r) := p in (r, g, b))) /\
    palette_for p (color_index (let '(b, g, r) := p in (r, g, b))) /\
    16 <= color_index (let '(b, g, r) := p in (r, g, b)) <= 231.
Proof.
  destruct p as [[b g] r]. intros [Hb [Hg Hr]].
  destruct (pixel_emitters r g b Hr Hg Hb) as [c [Hn [Hg' [Ha [Hc _]]]]].
  destruct (color_index_formula r g b Hr Hg Hb) as [E [Hrange _]].
  exists c. unfold glyph_for, palette_for. cbv beta iota zeta in *.
  split; [exact Hn|]. split; [exact Hg'|]. split; [|split; [exact Hc|]].
  - rewrite Ha. unfold ansi_text. reflexivity.
  - split; [exact E|exact Hrange].
Qed.

Section Converters.

Variable resize : Image -> Z -> Z -> option Image.
Variables (frame : Image) (new_width h0 : Z).

Hypothesis height_computed :
  scaled_height (fst (shape frame)) (snd (shape frame)) new_width
    = Some h0.

Lemma curses_frame_glyphs out :
  resize frame new_width h0 = Some out ->
  Forall (Forall pixel_ok) out ->
  exists rows,
    frame_to_ascii_curses resize (frame, new_width)
      = Some (join [NL] rows) /\
    Forall2 (Forall2 glyph_for) out rows.
Proof.
  intros Hres Hpix. unfold frame_to_ascii_curses.
  cbn [shape fst snd] in *. rewrite height_computed. cbn [bind].
  rewrite Hres. cbn [bind].
  destruct (mapM_Forall2 (mapM pixel_glyph)
              (fun (row : list Pixel) (l : str) =>
                 Forall2 (fun p c => glyph_for (let '(r, g, b) := p in (b, g, r)) c)
                         row l)
              (cvtColor_BGR2RGB out)) as [rows [Hm H2]].
  { unfold cvtColor_BGR2RGB. apply Forall_map.
    eapply Forall_impl; [|exact Hpix]. intros row Hrow.
    apply mapM_Forall2. apply Forall_map.
    eapply Forall_impl; [|exact Hrow]. intros p Hp.
    destruct (bgr_pixel p Hp) as [c [Hg [Hpg _]]].
    exists c. split; [exact Hpg|]. now destruct p as [[b g] r]. }
  rewrite Hm. cbn [bind]. exists rows. split; [reflexivity|].
  unfold cvtColor_BGR2RGB in H2.
  apply (proj1 (Forall2_map_l
                  (map (fun p : Pixel => let '(b, g, r) := p in (r, g, b)))
                  _ out _)) in H2.
  eapply Forall2_impl; [|exact H2]. intros row l H.
  apply (proj1 (Forall2_map_l
                  (fun p : Pixel => let '(b, g, r) := p in (r, g, b))
                  _ row _)) in H.
  eapply Forall2_impl; [|exact H]. intros p c. now destruct p as [[b g] r].
Qed.

Lemma ansi_frame_glyphs out :
  resize frame new_width h0 = Some out ->
  Forall (Forall pixel_ok) out ->
  exists cells,
    frame_to_ascii resize (frame, new_width)
      = Some (join [NL] (map (@concat ascii) cells)) /\
    Forall2 (Forall2 (fun p text =>
                        exists c,
                          glyph_for p c /\
                          text = (let '(b, g, r) := p in ansi_text r g b c)))
            out cells.
Proof.
  intros Hres Hpix. unfold frame_to_ascii.
  cbn [shape fst snd] in *. rewrite height_computed. cbn [bind].
  rewrite Hres. cbn [bind].
  destruct (mapM_Forall2 (mapM ansi_cell)
              (fun (row : list Pixel) (l : list str) =>
                 Forall2 (fun p text =>
                            exists c,
                              glyph_for (let '(r, g, b) := p in (b, g, r)) c /\
                              text = (let '(r, g, b) := p in ansi_text r g b c))
                         row l)
              (cvtColor_BGR2RGB out)) as [cells [Hm H2]].
  { unfold cvtColor_BGR2RGB. apply Forall_map.
    eapply Forall_impl; [|exact Hpix]. intros row Hrow.
    apply mapM_Forall2. apply Forall_map.
    eapply Forall_impl; [|exact Hrow]. intros p Hp.
    destruct (bgr_pixel p Hp) as [c [Hg [_ [Ha _]]]].
    destruct p as [[b g] r]. cbn in *.
    eexists. split; [exact Ha|]. exists c. auto. }
  rewrite Hm. cbn [bind]. exists cells. split; [reflexivity|].
  unfold cvtColor_BGR2RGB in H2.
  apply (proj1 (Forall2_map_l
                  (map (fun p : Pixel => let '(b, g, r) := p in (r, g, b)))
                  _ out _)) in H2.
  eapply Forall2_impl; [|exact H2]. intros row l H.
  apply (proj1 (Forall2_map_l
                  (fun p : Pixel => let '(b, g, r) := p in (r, g, b))
                  _ row _)) in H.
  eapply Forall2_impl; [|exact H]. intros p c. now destruct p as [[b g] r].
Qed.

Lemma color_frame_pixels out :
  0 <= new_width ->
  resize frame new_width (Z.max h0 1) = Some out ->
  has_shape out (Z.max h0 1) new_width ->
  exists cells,
    frame_to_ascii_curses_color resize (frame, new_width) = Some cells /\
    Forall2 (Forall2 (fun p (cell : ascii * Z) =>
                        glyph_for p (fst cell) /\
                        palette_for p (snd cell) /\
                        16 <= snd cell <= 231))
            out cells.
Proof.
  intros Hw Hres [Hh Hrows]. unfold frame_to_ascii_curses_color.
  cbn [shape fst snd] in *. rewrite height_computed. cbn [bind].
  rewrite Hres. cbn [bind].
  set (rgb := cvtColor_BGR2RGB out).
  set (Q := fun p (cell : ascii * Z) =>
              glyph_for p (fst cell) /\ palette_for p (snd cell) /\
              16 <= snd cell <= 231).
  assert (Hlen : Z.to_nat (Z.max h0 1) = length out) by lia.
  destruct (mapM_Forall2
              (fun i =>
                 mapM (fun j =>
                         row <- nth_error rgb i ;;
                         p <- nth_error row j ;;
                         color_cell p)
                      (seq 0 (Z.to_nat new_width)))
              (fun (i : nat) (cs : list (ascii * Z)) =>
                 forall row, nth_error ([] ++ out) i = Some row ->
                             Forall2 Q row cs)
              (seq 0 (Z.to_nat (Z.max h0 1)))) as [cells [Hm H2]].
  { apply Forall_forall. intros i Hi. apply in_seq in Hi.
    destruct (nth_error out i) as [row|] eqn:Erow;
      [|apply nth_error_None in Erow; lia].
    rewrite Forall_forall in Hrows.
    destruct (Hrows row (nth_error_In _ _ Erow)) as [Hrl Hpix].
    assert (Ergb : nth_error rgb i
                   = Some (map (fun p : Pixel =>
                                  let '(b, g, r) := p in (r, g, b)) row)).
    { subst rgb. unfold cvtColor_BGR2RGB. rewrite nth_error_map, Erow.
      reflexivity. }
    destruct (mapM_Forall2
                (fun j =>
                   r <- nth_error rgb i ;; p <- nth_error r j ;; color_cell p)
                (fun (j : nat) (cell : ascii * Z) =>
                   forall p, nth_error ([] ++ row) j = Some p -> Q p cell)
                (seq 0 (Z.to_nat new_width))) as [cs [Hcs Hf]].
    { apply Forall_forall. intros j Hj. apply in_seq in Hj.
      rewrite Ergb. cbn [bind]. rewrite nth_error_map.
      destruct (nth_error row j) as [p|] eqn:Ep;
        [|apply nth_error_None in Ep; lia].
      cbn [option_map bind].
      rewrite Forall_forall in Hpix.
      destruct (bgr_pixel p (Hpix p (nth_error_In _ _ Ep)))
        as [c [Hg [_ [_ [Hc [Hpal Hrange]]]]]].
      eexists. split; [exact Hc|].
      intros p' Hp'. cbn [app] in Hp'. rewrite Ep in Hp'.
      injection Hp' as <-. unfold Q. cbn [fst snd]. auto. }
    exists cs. split; [exact Hcs|].
    intros row' Hrow'. cbn [app] in Hrow'. rewrite Erow in Hrow'.
    injection Hrow' as <-.
    apply (Forall2_seq_nth Q row []). cbn [length].
    now replace (length row) with (Z.to_nat new_width) by lia. }
  exists cells. split; [exact Hm|].
  apply (Forall2_seq_nth (Forall2 Q) out []). cbn [length].
  now rewrite <- Hlen.
Qed.

(** C3. Whatever image of 8-bit pixels [cv2.resize] returns, each of
    the three converters returns a frame that has, cell for cell, one
    entry for each pixel of that image, and for the pixel with blue
    [b], green [g] and red [r] the entry carries the glyph
    [ASCII_CHARS[luma * 66 / 255]] with [luma = (r + g + b) / 3] (both
    quotients truncated): bare in [frame_to_ascii_curses], between the
    colour sequence of the pixel and the reset in [frame_to_ascii],
    as the first component of the cell in
    [frame_to_ascii_curses_color]. The ramp has 67 glyphs and starts
    with the space. *)
Theorem glyph_of_pixel :
  (forall out,
      resize frame new_width h0 = Some out ->
      Forall (Forall pixel_ok) out ->
      (exists rows,
          frame_to_ascii_curses resize (frame, new_width)
            = Some (join [NL] rows) /\
          Forall2 (Forall2 (fun (p : Pixel) (c : ascii) =>
                              let '(b, g, r) := p in
                              nth_error ASCII_CHARS
                                (Z.to_nat ((r + g + b) / 3 * 66 / 255))
                              = Some c))
                  out rows) /\
      (exists cells,
          frame_to_ascii resize (frame, new_width)
            = Some (join [NL] (map (@concat ascii) cells)) /\
          Forall2 (Forall2 (fun (p : Pixel) (text : str) =>
                              let '(b, g, r) := p in
                              exists c,
                                nth_error ASCII_CHARS
                                  (Z.to_nat ((r + g + b) / 3 * 66 / 255))
                                = Some c /\
                                text = ansi_prefix ++ fmt_d r ++ s ";"
                                         ++ fmt_d g ++ s ";" ++ fmt_d b
                                         ++ s "m" ++ [c] ++ ansi_suffix))
                  out cells)) /\
  (forall out,
      0 <= new_width ->
      resize frame new_width (Z.max h0 1) = Some out ->
      has_shape out (Z.max h0 1) new_width ->
      exists cells,
        frame_to_ascii_curses_color resize (frame, new_width) = Some cells /\
        Forall2 (Forall2 (fun (p : Pixel) (cell : ascii * Z) =>
                            let '(b, g, r) := p in
                            nth_error ASCII_CHARS
                              (Z.to_nat ((r + g + b) / 3 * 66 / 255))
                            = Some (fst cell)))
                out cells) /\
  length ASCII_CHARS = 67%nat /\
  nth_error ASCII_CHARS 0 = Some SPACE.
Proof.
  split; [|split; [|split; reflexivity]].
  - intros out Hres Hpix. split.
    + destruct (curses_frame_glyphs out Hres Hpix) as [rows [Hrun H2]].
      exists rows. split; [exact Hrun|].
      eapply Forall2_impl; [|exact H2]. intros row l H.
      eapply Forall2_impl; [|exact H]. intros [[b g] r] c Hc. exact Hc.
    + destruct (ansi_frame_glyphs out Hres Hpix) as [cells [Hrun H2]].
      exists cells. split; [exact Hrun|].
      eapply Forall2_impl; [|exact H2]. intros row l H.
      eapply Forall2_impl; [|exact H].
      intros [[b g] r] text [c [Hc ->]]. exists c. split; [exact Hc|].
      reflexivity.
  - intros out Hw Hres Hshape.
    destruct (color_frame_pixels out Hw Hres Hshape) as [cells [Hrun H2]].
    exists cells. split; [exact Hrun|].
    eapply Forall2_impl; [|exact H2]. intros row l H.
    eapply Forall2_impl; [|exact H]. intros [[b g] r] cell [Hc _]. exact Hc.
Qed.

(** C4. On the image that [cv2.resize] returns, of the requested shape
    and with 8-bit channels, [frame_to_ascii_curses_color] returns one
    cell for each pixel, and for the pixel with blue [b], green [g] and
    red [r] (the order in which the frame holds them) the palette index
    of the cell is [16 + 36 * (r*6/256) + 6 * (g*6/256) + (b*6/256)],
    floor quotients, which lies in 16..231. *)
Theorem palette_index_cube out :
  0 <= new_width ->
  resize frame new_width (Z.max h0 1) = Some out ->
  has_shape out (Z.max h0 1) new_width ->
  exists cells,
    frame_to_ascii_curses_color resize (frame, new_width) = Some cells /\
    Forall2 (Forall2 (fun (p : Pixel) (cell : ascii * Z) =>
                        let '(b, g, r) := p in
                        snd cell = 16 + 36 * (r * 6 / 256)
                                   + 6 * (g * 6 / 256) + b * 6 / 256 /\
                        16 <= snd cell <= 231))
            out cells.
Proof.
  intros Hw Hres Hshape.
  destruct (color_frame_pixels out Hw Hres Hshape) as [cells [Hrun H2]].
  exists cells. split; [exact Hrun|].
  eapply Forall2_impl; [|exact H2]. intros row l H.
  eapply Forall2_impl; [|exact H]. intros [[b g] r] cell [_ H']. exact H'.
Qed.

End Converters.

Lemma two_tone_resized :
  cv2_resize Samples.two_tone_frame 2 1 = Some [[Samples.red; Samples.blue]].
Proof. vm_compute. reflexivity. Defined.

Lemma two_tone_pixels :
  has_shape [[Samples.red; Samples.blue]] 1 2.
Proof.
  split; [reflexivity|]. constructor; [|constructor].
  split; [reflexivity|].
  repeat constructor; unfold is_u8; lia.
Defined.

Lemma glyph_of_pixel_witness :
  (exists rows,
      frame_to_ascii_curses cv2_resize (Samples.two_tone_frame, 2)
        = Some (join [NL] rows) /\
      Forall2 (Forall2 (fun (p : Pixel) (c : ascii) =>
                          let '(b, g, r) := p in
                          nth_error ASCII_CHARS
                            (Z.to_nat ((r + g + b) / 3 * 66 / 255))
                          = Some c))
              [[Samples.red; Samples.blue]] rows) /\
  (exists cells,
      frame_to_ascii_curses_color cv2_resize (Samples.two_tone_frame, 2)
        = Some cells /\
      Forall2 (Forall2 (fun (p : Pixel) (cell : ascii * Z) =>
                          let '(b, g, r) := p in
                          nth_error ASCII_CHARS
                            (Z.to_nat ((r + g + b) / 3 * 66 / 255))
                          = Some (fst cell)))
              [[Samples.red; Samples.blue]] cells).
Proof.
  destruct (glyph_of_pixel cv2_resize Samples.two_tone_frame 2 1)
    as [Htext [Hcolor _]].
  - vm_compute. reflexivity.
  - split.
    + destruct (Htext [[Samples.red; Samples.blue]] two_tone_resized)
        as [Hrows _]; [|exact Hrows].
      destruct two_tone_pixels as [_ H].
      eapply Forall_impl; [|exact H]. intros row [_ Hrow]. exact Hrow.
    + apply Hcolor; [lia|exact two_tone_resized|exact two_tone_pixels].
Defined.

Lemma palette_index_cube_witness :
  exists cells,
    frame_to_ascii_curses_color cv2_resize (Samples.two_tone_frame, 2)
      = Some cells /\
    Forall2 (Forall2 (fun (p : Pixel) (cell : ascii * Z) =>
                        let '(b, g, r) := p in
                        snd cell = 16 + 36 * (r * 6 / 256)
                                   + 6 * (g * 6 / 256) + b * 6 / 256 /\
                        16 <= snd cell <= 231))
            [[Samples.red; Samples.blue]] cells.
Proof.
  apply (palette_index_cube cv2_resize Samples.two_tone_frame 2 1).
  - vm_compute. reflexivity.
  - lia.
  - exact two_tone_resized.
  - exact two_tone_pixels.
Defined.

End VariantFacts.

(** ** The audio callback around the end of the data and around [stop] *)

Module PlayerFacts.
Import Py Audio AudioFacts.

Section Player.

Variable Sample : Type.
Variable silence : Sample.
Variables Clip Stream : Type.

Ltac exits Hcb :=
  unfold _audio_callback in Hcb;
  destruct (int_of_float _); cbn [bind] in Hcb; [|discriminate];
  destruct (audio_array _) as [?data|]; cbn [bind] in Hcb; [|discriminate];
  destruct (_ <=? _);
  [ injection Hcb as <-
  | destruct (truediv _ _); cbn [bind] in Hcb; [|discriminate];
    destruct (drain _ _ _ _ _) as [[?clock ?start_idx]|];
      cbn [bind] in Hcb; [|discriminate];
    destruct (_ <=? _);
    [ destruct (assign _ _); cbn [bind] in Hcb; [|discriminate];
      injection Hcb as <-
    | destruct (if 0 <? _ then _ else _); cbn [bind] in Hcb; [|discriminate];
      injection Hcb as <- ] ].

(** X12. The callback never clears [should_stop]: after a callback
    that returned, the event is set exactly when it was set before or
    the callback returned [sd.CallbackStop]. *)
Theorem callback_stop_flag (p : AudioPlayer Sample Clip Stream)
        (frames : Z) r :
  _audio_callback silence p frames = Some r ->
  should_stop (player r) = should_stop p || callback_stop r.
Proof.
  intros Hcb. exits Hcb; cbn.
  - now rewrite orb_true_r.
  - now rewrite orb_false_r.
  - now rewrite orb_true_r.
Qed.

(** X13. At the end of the data (start index at or beyond the length)
    the callback writes only silence, sets [should_stop] and returns
    [sd.CallbackStop] without advancing the clock or reading the queue;
    so every later callback does the same again. *)
Theorem callback_past_end (p : AudioPlayer Sample Clip Stream)
        (frames : Z) (data : list Sample) (start_idx : Z) :
  audio_array p = Some data ->
  int_of_float (PrimFloat.mul (audio_time p) (float_of_int (samplerate p)))
    = Some start_idx ->
  Z.of_nat (length data) <= start_idx ->
  exists r,
    _audio_callback silence p frames = Some r /\
    outdata r = repeat silence (Z.to_nat frames) /\
    callback_stop r = true /\
    should_stop (player r) = true /\
    audio_time (player r) = audio_time p /\
    sync_queue (player r) = sync_queue p /\
    forall frames',
      _audio_callback silence (player r) frames'
      = Some {| player := player r;
                outdata := repeat silence (Z.to_nat frames');
                callback_stop := true |}.
Proof.
  intros Hdata Hstart Hlen.
  assert (Hrun : forall (q : AudioPlayer Sample Clip Stream) n,
             audio_array q = Some data ->
             audio_time q = audio_time p ->
             samplerate q = samplerate p ->
             _audio_callback silence q n
             = Some {| player := with_clock Sample Clip Stream q (sync_queue q) (audio_time q)
                                            true;
                       outdata := repeat silence (Z.to_nat n);
                       callback_stop := true |}).
  { intros q n Hd Ht Hr. unfold _audio_callback.
    rewrite Ht, Hr, Hstart, Hd. cbn [bind].
    destruct (Z.leb_spec (Z.of_nat (length data)) start_idx); [|lia].
    reflexivity. }
  eexists. split; [apply Hrun; auto|]. cbn [player outdata callback_stop].
  repeat split.
  intros frames'. rewrite Hrun by (cbn; auto). reflexivity.
Qed.

(** X14. With no hint in the queue that is off by more than the
    tolerance, and the window [start_idx, start_idx + frames) inside
    the data, the callback delivers exactly that window, advances the
    clock by [frames / samplerate], empties the queue and leaves
    [should_stop] alone. *)
Theorem callback_plays_window (p : AudioPlayer Sample Clip Stream)
        (frames : Z) (data : list Sample) (start_idx : Z) (step : float) :
  audio_array p = Some data ->
  0 <= frames ->
  int_of_float (PrimFloat.mul (audio_time p) (float_of_int (samplerate p)))
    = Some start_idx ->
  0 <= start_idx < Z.of_nat (length data) ->
  start_idx + frames <= Z.of_nat (length data) ->
  truediv frames (samplerate p) = Some step ->
  Forall (quiet (sync_tolerance p) (PrimFloat.add (audio_time p) step))
         (sync_queue p) ->
  _audio_callback silence p frames
  = Some {| player := with_clock Sample Clip Stream p [] (PrimFloat.add (audio_time p) step)
                                 (should_stop p);
            outdata := firstn (Z.to_nat frames)
                              (skipn (Z.to_nat start_idx) data);
            callback_stop := false |}.
Proof.
  intros Hdata Hfr Hstart [Hlo Hhi] Hend Hstep Hq.
  unfold _audio_callback. rewrite Hstart, Hdata. cbn [bind].
  destruct (Z.leb_spec (Z.of_nat (length data)) start_idx); [lia|].
  rewrite Hstep. cbn [bind].
  rewrite (drain_quiet _ _ _ _ _ Hq). cbn [bind].
  destruct (Z.leb_spec (start_idx + frames) (Z.of_nat (length data)));
    [|lia].
  rewrite py_slice_window by lia.
  rewrite assign_exact by (rewrite length_firstn, length_skipn; lia).
  reflexivity.
Qed.

(** X15. Under the same conditions but with the window running past
    the end of the data, the callback delivers what is left of the
    data followed by silence, sets [should_stop] and returns
    [sd.CallbackStop]. *)
Theorem callback_last_window (p : AudioPlayer Sample Clip Stream)
        (frames : Z) (data : list Sample) (start_idx : Z) (step : float) :
  audio_array p = Some data ->
  int_of_float (PrimFloat.mul (audio_time p) (float_of_int (samplerate p)))
    = Some start_idx ->
  0 <= start_idx < Z.of_nat (length data) ->
  Z.of_nat (length data) < start_idx + frames ->
  truediv frames (samplerate p) = Some step ->
  Forall (quiet (sync_tolerance p) (PrimFloat.add (audio_time p) step))
         (sync_queue p) ->
  _audio_callback silence p frames
  = Some {| player := with_clock Sample Clip Stream p [] (PrimFloat.add (audio_time p) step)
                                 true;
            outdata := skipn (Z.to_nat start_idx) data
                       ++ repeat silence
                            (Z.to_nat (start_idx + frames
                                       - Z.of_nat (length data)));
            callback_stop := true |}.
Proof.
  intros Hdata Hstart [Hlo Hhi] Hend Hstep Hq.
  unfold _audio_callback. rewrite Hstart, Hdata. cbn [bind].
  destruct (Z.leb_spec (Z.of_nat (length data)) start_idx); [lia|].
  rewrite Hstep. cbn [bind].
  rewrite (drain_quiet _ _ _ _ _ Hq). cbn [bind].
  destruct (Z.leb_spec (start_idx + frames) (Z.of_nat (length data)));
    [lia|].
  destruct (Z.ltb_spec 0 (Z.of_nat (length data) - start_idx)); [|lia].
  rewrite py_slice_tail by lia.
  replace (Nat.min (Z.to_nat (Z.of_nat (length data) - start_idx))
                   (Z.to_nat frames))
    with (Z.to_nat (Z.of_nat (length data) - start_idx)) by lia.
  rewrite assign_exact by (rewrite length_skipn; lia).
  cbn [bind]. do 4 f_equal. lia.
Qed.

(** X16. [stop()] on a player that was not stopped drops the sample
    array, so a callback that still runs afterwards raises instead of
    returning samples. *)
Theorem callback_after_stop (p : AudioPlayer Sample Clip Stream)
        (frames : Z) :
  should_stop p = false ->
  audio_array (fst (stop p)) = None /\
  _audio_callback silence (fst (stop p)) frames = None.
Proof.
  intros Hs. unfold stop. rewrite Hs. cbn [fst audio_array].
  split; [reflexivity|].
  unfold _audio_callback. cbn [audio_array audio_time samplerate].
  now destruct (int_of_float _).
Qed.

End Player.

(** X17. The loop over the queued messages keeps the clock and the
    start index together: at its end they are either the ones it
    started from, or the time [t] of a queued [set_time] hint and
    [int(t * samplerate)]. *)
Theorem drain_clock_index (tol : float) (rate : Z) (q : list Cmd) :
  forall clock start_idx clock' start_idx',
  drain tol rate q clock start_idx = Some (clock', start_idx') ->
  (clock' = clock /\ start_idx' = start_idx)
  \/ exists cmd,
       In cmd q /\ cmd_type cmd = "set_time"%string /\
       clock' = cmd_time cmd /\
       int_of_float (PrimFloat.mul clock' (float_of_int rate))
         = Some start_idx'.
Proof.
  induction q as [|cmd q IH]; intros clock start_idx clock' start_idx' H.
  - left. cbn in H. injection H as <- <-. auto.
  - cbn [drain] in H.
    assert (Hskip : drain tol rate q clock start_idx
                    = Some (clock', start_idx') ->
                    (clock' = clock /\ start_idx' = start_idx)
                    \/ exists c,
                         In c (cmd :: q) /\ cmd_type c = "set_time"%string /\
                         clock' = cmd_time c /\
                         int_of_float
                           (PrimFloat.mul clock' (float_of_int rate))
                           = Some start_idx').
    { intros H'. destruct (IH _ _ _ _ H') as [?|[c [Hin Hc]]]; [now left|].
      right. exists c. split; [now right|exact Hc]. }
    destruct (String.eqb_spec (cmd_type cmd) "set_time") as [E|_];
      [|now apply Hskip].
    destruct (drift_exceeds clock (cmd_time cmd) tol); [|now apply Hskip].
    destruct (int_of_float
                (PrimFloat.mul (cmd_time cmd) (float_of_int rate)))
      as [idx|] eqn:Eidx; cbn [bind] in H; [|discriminate].
    right. destruct (IH _ _ _ _ H) as [[-> ->]|[c [Hin Hc]]].
    + exists cmd. repeat split; auto. now left.
    + exists c. split; [now right|exact Hc].
Qed.

Import Samples.

Lemma callback_stop_flag_witness :
  exists r,
    _audio_callback 0 playing_player 4 = Some r /\
    should_stop (player r) = should_stop playing_player || callback_stop r.
Proof.
  eexists. split; [vm_compute; reflexivity|].
  apply (callback_stop_flag Z 0 unit unit playing_player 4).
  vm_compute. reflexivity.
Defined.

Lemma callback_past_end_witness :
  exists r,
    _audio_callback 0 stopped_player 4 = Some r /\
    outdata r = repeat 0 (Z.to_nat 4) /\
    callback_stop r = true /\
    should_stop (player r) = true /\
    audio_time (player r) = audio_time stopped_player /\
    sync_queue (player r) = sync_queue stopped_player /\
    forall frames',
      _audio_callback 0 (player r) frames'
      = Some {| player := player r;
                outdata := repeat 0 (Z.to_nat frames');
                callback_stop := true |}.
Proof.
  apply (callback_past_end Z 0 unit unit stopped_player 4 ramp32 32).
  - reflexivity.
  - vm_compute. reflexivity.
  - vm_compute. discriminate.
Defined.

Lemma callback_plays_window_witness :
  exists r,
    _audio_callback 0 playing_player 4 = Some r /\
    outdata r = [4; 5; 6; 7] /\
    callback_stop r = false.
Proof.
  eexists. split.
  - apply (callback_plays_window Z 0 unit unit playing_player 4 ramp32 4
             0.5%float).
    + reflexivity.
    + lia.
    + vm_compute. reflexivity.
    + vm_compute. split; [discriminate|reflexivity].
    + vm_compute. discriminate.
    + vm_compute. reflexivity.
    + constructor.
  - split; reflexivity.
Defined.

Lemma callback_last_window_witness :
  exists r,
    _audio_callback 0 playing_player 30 = Some r /\
    outdata r = skipn 4 ramp32 ++ [0; 0] /\
    callback_stop r = true.
Proof.
  eexists. split.
  - apply (callback_last_window Z 0 unit unit playing_player 30 ramp32 4
             3.75%float).
    + reflexivity.
    + vm_compute. reflexivity.
    + vm_compute. split; [discriminate|reflexivity].
    + vm_compute. reflexivity.
    + vm_compute. reflexivity.
    + constructor.
  - split; reflexivity.
Defined.

Lemma callback_after_stop_witness :
  audio_array (fst (stop playing_player)) = None /\
  _audio_callback 0 (fst (stop playing_player)) 4 = None.
Proof.
  apply (callback_after_stop Z 0 unit unit playing_player 4). reflexivity.
Defined.

Lemma drain_clock_index_witness :
  (2%float = 1%float /\ 16 = 4)
  \/ exists cmd,
       In cmd (sync_queue drifting_player) /\
       cmd_type cmd = "set_time"%string /\
       2%float = cmd_time cmd /\
       int_of_float (PrimFloat.mul 2%float (float_of_int 8)) = Some 16.
Proof.
  apply (drain_clock_index (sync_tolerance drifting_player) 8
           (sync_queue drifting_player) 1%float 4 2%float 16).
  vm_compute. reflexivity.
Defined.

End PlayerFacts.

(** ** The calibration frame *)

Module CalibrationFacts.
Import Py Calibration Layout.

Lemma nth_error_update {A} (l : list A) : forall k v j,
  nth_error (update l k v) j
  = if (j =? k)%nat then (if (j <? length l)%nat then Some v else None)
    else nth_error l j.
Proof.
  induction l as [|a l IH]; intros k v j.
  - destruct k, j; simpl; try reflexivity; now destruct (_ =? _)%nat.
  - destruct k, j; simpl; try reflexivity. apply IH.
Qed.

Lemma length_range n : length (range n) = Z.to_nat n.
Proof. unfold range. now rewrite length_map, length_seq. Qed.

Lemma nth_error_range n k :
  (k < Z.to_nat n)%nat -> nth_error (range n) k = Some (Z.of_nat k).
Proof.
  intros H. unfold range. rewrite nth_error_map.
  rewrite (nth_error_nth' _ O) by (now rewrite length_seq).
  now rewrite seq_nth.
Qed.

Lemma in_range n j : In j (range n) <-> 0 <= j < n.
Proof.
  unfold range. rewrite in_map_iff. split.
  - intros [k [<- Hk]]. apply in_seq in Hk. lia.
  - intros H. exists (Z.to_nat j). split; [lia|]. apply in_seq. lia.
Qed.

Lemma norm_index_bound len i k :
  0 <= len -> norm_index len i = Some k -> (k < Z.to_nat len)%nat.
Proof.
  unfold norm_index. intros Hl.
  destruct (Z.ltb_spec i (- len)); [discriminate|].
  destruct (Z.leb_spec len i); [discriminate|]. cbn [orb].
  intros H'. injection H' as <-. destruct (Z.ltb_spec i 0); lia.
Qed.

Lemma getitem_range {A} (g : Z -> A) n i k :
  norm_index (Z.max 0 n) i = Some k ->
  getitem (map g (range n)) i = Some (g (Z.of_nat k)).
Proof.
  intros Hk. unfold getitem. rewrite length_map, length_range.
  replace (Z.of_nat (Z.to_nat n)) with (Z.max 0 n) by lia.
  rewrite Hk. cbn [bind]. rewrite nth_error_map.
  apply norm_index_bound in Hk; [|lia].
  rewrite nth_error_range by lia. reflexivity.
Qed.

Lemma setitem_range {A} (g : Z -> A) n i k v :
  norm_index (Z.max 0 n) i = Some k ->
  setitem (map g (range n)) i v
  = Some (map (fun j => if j =? Z.of_nat k then v else g j) (range n)).
Proof.
  intros Hk. unfold setitem. rewrite length_map, length_range.
  replace (Z.of_nat (Z.to_nat n)) with (Z.max 0 n) by lia.
  rewrite Hk. cbn [bind]. f_equal.
  apply norm_index_bound in Hk; [|lia].
  apply nth_error_ext. intros j.
  rewrite nth_error_update, !nth_error_map, length_map, length_range.
  destruct (Nat.ltb_spec j (Z.to_nat n)) as [Hj|Hj].
  - rewrite nth_error_range by assumption. cbn [option_map].
    destruct (Nat.eqb_spec j k) as [->|Hne].
    + now rewrite Z.eqb_refl.
    + destruct (Z.eqb_spec (Z.of_nat j) (Z.of_nat k)); [lia|reflexivity].
  - destruct (Nat.eqb_spec j k); [lia|].
    assert (E : nth_error (range n) j = None)
      by (apply nth_error_None; now rewrite length_range).
    now rewrite E.
Qed.

Lemma table_ext h w f g :
  (forall y x, 0 <= y < h -> 0 <= x < w -> f y x = g y x) ->
  table h w f = table h w g.
Proof.
  intros H. unfold table. apply map_ext_in. intros y Hy.
  apply map_ext_in. intros x Hx. apply in_range in Hy, Hx. now apply H.
Qed.

Lemma set2_table h w f y x ky kx v :
  norm_index (Z.max 0 h) y = Some ky ->
  norm_index (Z.max 0 w) x = Some kx ->
  set2 (table h w f) y x v
  = Some (table h w (fun y' x' =>
                       if (y' =? Z.of_nat ky) && (x' =? Z.of_nat kx) then v
                       else f y' x')).
Proof.
  intros Hy Hx. unfold set2, table.
  rewrite (getitem_range _ _ _ _ Hy). cbn [bind].
  rewrite (setitem_range _ _ _ _ _ Hx). cbn [bind].
  rewrite (setitem_range _ _ _ _ _ Hy). f_equal.
  apply map_ext. intros y'.
  destruct (y' =? Z.of_nat ky) eqn:E; cbn [andb]; [|reflexivity].
  apply Z.eqb_eq in E. now subst y'.
Qed.

Lemma for_each_seq {St} (body : St -> Z -> option St) (I : Z -> St -> Prop) :
  forall m a st,
  I (Z.of_nat a) st ->
  (forall k s, Z.of_nat a <= k < Z.of_nat (a + m) -> I k s ->
               exists s', body s k = Some s' /\ I (k + 1) s') ->
  exists s', for_each body (map Z.of_nat (seq a m)) st = Some s'
             /\ I (Z.of_nat (a + m)) s'.
Proof.
  induction m as [|m IH]; intros a st H0 Hstep.
  - exists st. rewrite Nat.add_0_r. auto.
  - cbn [seq map for_each].
    destruct (Hstep (Z.of_nat a) st ltac:(lia) H0) as [s1 [E1 H1]].
    rewrite E1. cbn [bind].
    destruct (IH (S a) s1) as [s' [E' H']].
    + now replace (Z.of_nat (S a)) with (Z.of_nat a + 1) by lia.
    + intros k s Hk. apply Hstep. lia.
    + exists s'. split; [exact E'|].
      now replace (a + S m)%nat with (S a + m)%nat by lia.
Qed.

Lemma for_each_range {St} (body : St -> Z -> option St) (I : Z -> St -> Prop)
      n st :
  0 <= n ->
  I 0 st ->
  (forall k s, 0 <= k < n -> I k s ->
               exists s', body s k = Some s' /\ I (k + 1) s') ->
  exists s', for_each body (range n) st = Some s' /\ I n s'.
Proof.
  intros Hn H0 Hstep.
  destruct (for_each_seq body I (Z.to_nat n) O st H0) as [s' [E H]].
  - intros k s Hk. apply Hstep. lia.
  - exists s'. split; [exact E|]. now replace n with (Z.of_nat (0 + Z.to_nat n)) by lia.
Qed.

Lemma blank_table w h :
  map (fun _ => times WHITE_CHAR w) (range h)
  = table h w (fun _ _ => WHITE_CHAR).
Proof.
  unfold table. apply map_ext. intros _. unfold times, range.
  generalize 0%nat. induction (Z.to_nat w) as [|n IH]; intros a;
    [reflexivity|].
  simpl. f_equal. apply IH.
Qed.

Lemma norm_index_in len i :
  0 <= i < len -> norm_index (Z.max 0 len) i = Some (Z.to_nat i).
Proof.
  intros H. unfold norm_index.
  destruct (Z.ltb_spec i (- Z.max 0 len)); [lia|].
  destruct (Z.leb_spec (Z.max 0 len) i); [lia|]. cbn [orb].
  destruct (Z.ltb_spec i 0); [lia|reflexivity].
Qed.

Lemma norm_index_last len :
  1 <= len -> norm_index (Z.max 0 len) (-1) = Some (Z.to_nat (len - 1)).
Proof.
  intros H. unfold norm_index.
  destruct (Z.ltb_spec (-1) (- Z.max 0 len)); [lia|].
  destruct (Z.leb_spec (Z.max 0 len) (-1)); [lia|]. cbn [orb].
  change (-1 <? 0) with true. cbv iota. f_equal. lia.
Qed.

Ltac cases :=
  repeat match goal with
         | |- context [?a =? ?b] => destruct (Z.eqb_spec a b)
         | |- context [?a <? ?b] => destruct (Z.ltb_spec a b)
         end; cbn [andb orb]; try reflexivity; try lia.

Lemma generate_table (width height : Z) :
  1 <= width -> 1 <= height ->
  generate_calibration_frame width height
  = Some (join_text [NEWLINE]
            (table height width (calibration_cell width height))).
Proof.
  intros Hw Hh. unfold generate_calibration_frame.
  rewrite blank_table.
  pose proof (Z.div_pos height 2 ltac:(lia) ltac:(lia)) as Hcy.
  pose proof (Z.div_lt_upper_bound height 2 height ltac:(lia) ltac:(lia))
    as Hcy'.
  pose proof (Z.div_pos width 2 ltac:(lia) ltac:(lia)) as Hcx.
  pose proof (Z.div_lt_upper_bound width 2 width ltac:(lia) ltac:(lia))
    as Hcx'.
  (* top and bottom rows *)
  destruct (for_each_range
              (fun m x => m' <- set2 m 0 x BORDER_CHAR ;;
                          set2 m' (-1) x BORDER_CHAR)
              (fun k m =>
                 m = table height width
                       (fun y x =>
                          if (x <? k) && ((y =? 0) || (y =? height - 1))
                          then BORDER_CHAR else WHITE_CHAR))
              width (table height width (fun _ _ => WHITE_CHAR)))
    as [m1 [E1 H1]]; [lia| | |].
  { apply table_ext. intros y x Hy Hx. cases. }
  { intros k m Hk ->.
    rewrite (set2_table _ _ _ 0 k _ _ _
               (norm_index_in height 0 ltac:(lia)) (norm_index_in _ k Hk)).
    cbn [bind].
    rewrite (set2_table _ _ _ (-1) k _ _ _
               (norm_index_last _ Hh) (norm_index_in _ k Hk)).
    eexists. split; [reflexivity|].
    apply table_ext. intros y x Hy Hx. rewrite !Z2Nat.id by lia. cases. }
  rewrite E1. cbn [bind]. subst m1.
  (* left and right columns *)
  destruct (for_each_range
              (fun m y => m' <- set2 m y 0 BORDER_CHAR ;;
                          set2 m' y (-1) BORDER_CHAR)
              (fun k m =>
                 m = table height width
                       (fun y x =>
                          if (y <? k) && ((x =? 0) || (x =? width - 1))
                          then BORDER_CHAR
                          else if (x <? width)
                                  && ((y =? 0) || (y =? height - 1))
                               then BORDER_CHAR else WHITE_CHAR))
              height
              (table height width
                 (fun y x =>
                    if (x <? width) && ((y =? 0) || (y =? height - 1))
                    then BORDER_CHAR else WHITE_CHAR)))
    as [m2 [E2 H2]]; [lia| | |].
  { apply table_ext. intros y x Hy Hx. cases. }
  { intros k m Hk ->.
    rewrite (set2_table _ _ _ k 0 _ _ _
               (norm_index_in _ k Hk) (norm_index_in width 0 ltac:(lia))).
    cbn [bind].
    rewrite (set2_table _ _ _ k (-1) _ _ _
               (norm_index_in _ k Hk) (norm_index_last _ Hw)).
    eexists. split; [reflexivity|].
    apply table_ext. intros y x Hy Hx. rewrite !Z2Nat.id by lia. cases. }
  rewrite E2. cbn [bind]. subst m2.
  (* horizontal bar of the cross *)
  destruct (for_each_range
              (fun m x => set2 m (height / 2) x CROSS_CHAR)
              (fun k m =>
                 m = table height width
                       (fun y x =>
                          if (x <? k) && (y =? height / 2) then CROSS_CHAR
                          else if (y =? 0) || (y =? height - 1)
                                  || (x =? 0) || (x =? width - 1)
                               then BORDER_CHAR else WHITE_CHAR))
              width
              (table height width
                 (fun y x =>
                    if (y <? height) && ((x =? 0) || (x =? width - 1))
                    then BORDER_CHAR
                    else if (x <? width)
                            && ((y =? 0) || (y =? height - 1))
                         then BORDER_CHAR else WHITE_CHAR)))
    as [m3 [E3 H3]]; [lia| | |].
  { apply table_ext. intros y x Hy Hx. cases. }
  { intros k m Hk ->.
    rewrite (set2_table _ _ _ (height / 2) k _ _ _
               (norm_index_in height (height / 2) ltac:(lia)) (norm_index_in _ k Hk)).
    eexists. split; [reflexivity|].
    apply table_ext. intros y x Hy Hx. rewrite !Z2Nat.id by lia. cases. }
  rewrite E3. cbn [bind]. subst m3.
  (* vertical bar of the cross *)
  destruct (for_each_range
              (fun m y => set2 m y (width / 2) CROSS_CHAR)
              (fun k m =>
                 m = table height width
                       (fun y x =>
                          if (y <? k) && (x =? width / 2) then CROSS_CHAR
                          else if (y =? height / 2) then CROSS_CHAR
                          else if (y =? 0) || (y =? height - 1)
                                  || (x =? 0) || (x =? width - 1)
                               then BORDER_CHAR else WHITE_CHAR))
              height
              (table height width
                 (fun y x =>
                    if (x <? width) && (y =? height / 2) then CROSS_CHAR
                    else if (y =? 0) || (y =? height - 1)
                            || (x =? 0) || (x =? width - 1)
                         then BORDER_CHAR else WHITE_CHAR)))
    as [m4 [E4 H4]]; [lia| | |].
  { apply table_ext. intros y x Hy Hx. cases. }
  { intros k m Hk ->.
    rewrite (set2_table _ _ _ k (width / 2) _ _ _
               (norm_index_in _ k Hk) (norm_index_in width (width / 2) ltac:(lia))).
    eexists. split; [reflexivity|].
    apply table_ext. intros y x Hy Hx. rewrite !Z2Nat.id by lia. cases. }
  rewrite E4. cbn [bind]. subst m4.
  do 2 f_equal. apply table_ext. intros y x Hy Hx.
  unfold calibration_cell. cases.
Qed.

Lemma range_empty n : n <= 0 -> range n = [].
Proof. intros H. unfold range. now replace (Z.to_nat n) with O by lia. Qed.

Lemma range_first n : 1 <= n -> exists rest, range n = 0 :: rest.
Proof.
  intros H. unfold range. destruct (Z.to_nat n) as [|k] eqn:E; [lia|].
  simpl. eauto.
Qed.

Lemma table_rows h w f :
  0 <= h -> 0 <= w ->
  length (table h w f) = Z.to_nat h /\
  Forall (fun r => length r = Z.to_nat w) (table h w f) /\
  forall y x, 0 <= y < h -> 0 <= x < w ->
    nth (Z.to_nat x) (nth (Z.to_nat y) (table h w f) []) 0 = f y x.
Proof.
  intros Hh Hw. unfold table. split; [|split].
  - now rewrite length_map, length_range.
  - apply Forall_map, Forall_forall. intros y _.
    now rewrite length_map, length_range.
  - intros y x Hy Hx.
    assert (Ey : nth_error (map (fun y => map (f y) (range w)) (range h))
                           (Z.to_nat y)
                 = Some (map (f y) (range w))).
    { rewrite nth_error_map, nth_error_range by lia. cbn.
      now rewrite Z2Nat.id by lia. }
    rewrite (nth_error_nth _ _ _ Ey).
    assert (Ex : nth_error (map (f y) (range w)) (Z.to_nat x)
                 = Some (f y x)).
    { rewrite nth_error_map, nth_error_range by lia. cbn.
      now rewrite Z2Nat.id by lia. }
    now rewrite (nth_error_nth _ _ _ Ex).
Qed.

(** X18. For a width and a height of at least one the calibration
    frame is [height] rows of [width] characters joined by newlines:
    [+] on the middle row and the middle column (index [height // 2]
    and [width // 2]), which run through the border; [#] on the rest
    of the four edges; the full block everywhere else. *)
Theorem calibration_frame_cells (width height : Z) :
  1 <= width -> 1 <= height ->
  exists rows,
    generate_calibration_frame width height
      = Some (join_text [NEWLINE] rows) /\
    length rows = Z.to_nat height /\
    Forall (fun r => length r = Z.to_nat width) rows /\
    forall y x, 0 <= y < height -> 0 <= x < width ->
      nth (Z.to_nat x) (nth (Z.to_nat y) rows []) 0
      = calibration_cell width height y x.
Proof.
  intros Hw Hh. eexists. split; [now apply generate_table|].
  apply table_rows; lia.
Qed.

(** X19. [generate_calibration_frame] raises (an [IndexError])
    exactly when one of the two dimensions is at least one and the
    other is zero or negative. *)
Theorem calibration_frame_raises (width height : Z) :
  generate_calibration_frame width height = None
  <-> (height <= 0 /\ 1 <= width) \/ (width <= 0 /\ 1 <= height).
Proof.
  split.
  - intros Hnone.
    destruct (Z.le_gt_cases 1 width) as [Hw|Hw];
      destruct (Z.le_gt_cases 1 height) as [Hh|Hh]; try lia.
    + rewrite generate_table in Hnone by assumption. discriminate.
    + exfalso. unfold generate_calibration_frame in Hnone.
      rewrite (range_empty width), (range_empty height) in Hnone by lia.
      discriminate.
  - unfold generate_calibration_frame. intros [[Hh Hw]|[Hw Hh]].
    + rewrite (range_empty height) by lia.
      destruct (range_first width Hw) as [rest ->]. reflexivity.
    + rewrite (range_empty width) by lia. cbn [for_each bind].
      destruct (range_first height Hh) as [rest ->].
      unfold times. replace (Z.to_nat width) with O by lia. reflexivity.
Qed.

Lemma calibration_frame_cells_witness :
  exists rows,
    generate_calibration_frame 5 4 = Some (join_text [NEWLINE] rows) /\
    length rows = 4%nat /\
    nth 1 (nth 1 rows []) 0 = WHITE_CHAR /\
    nth 2 (nth 0 rows []) 0 = CROSS_CHAR /\
    nth 4 (nth 3 rows []) 0 = BORDER_CHAR.
Proof.
  destruct (calibration_frame_cells 5 4) as [rows [Hrun [Hlen [_ Hcell]]]];
    [lia|lia|].
  exists rows. split; [exact Hrun|]. split; [exact Hlen|].
  split; [|split].
  - apply (Hcell 1 1); lia.
  - apply (Hcell 0 2); lia.
  - apply (Hcell 3 4); lia.
Defined.

End CalibrationFacts.

(** ** The curses renderer *)

Module CursesFacts.
Import Py Renderer RendererFacts CursesRenderer CursesNotions Notions.

Lemma str_eqb_eq (a : str) : forall b, str_eqb a b = true <-> a = b.
Proof.
  induction a as [|x a IH]; intros [|y b]; simpl; split;
    try discriminate; try reflexivity.
  - intros H. apply andb_prop in H. destruct H as [H1 H2].
    apply Ascii.eqb_eq in H1. apply IH in H2. now subst.
  - intros H. injection H as -> ->. rewrite Ascii.eqb_refl. now apply IH.
Qed.

Lemma str_eqb_refl (a : str) : str_eqb a a = true.
Proof. now apply str_eqb_eq. Qed.

Lemma length_slice (l : str) lo hi :
  (lo <= hi)%nat -> (hi <= length l)%nat ->
  length (slice l lo hi) = (hi - lo)%nat.
Proof.
  intros H1 H2. unfold slice. rewrite length_firstn, length_skipn. lia.
Qed.

Lemma nth_slice (l : str) lo hi j :
  (j < hi - lo)%nat -> nth j (slice l lo hi) SPACE = nth (lo + j) l SPACE.
Proof.
  intros H. unfold slice. rewrite nth_firstn.
  destruct (Nat.ltb_spec j (hi - lo)); [|lia]. apply nth_skipn.
Qed.

(** The scans stop where the loops of the source do. *)
Lemma scan_start_spec new_line old_line min_len :
  forall fuel j r,
  (j <= min_len)%nat -> (min_len <= j + fuel)%nat ->
  scan_start new_line old_line min_len fuel j = r ->
  (j <= r <= min_len)%nat /\
  (forall k, (j <= k < r)%nat ->
             nth k new_line SPACE = nth k old_line SPACE) /\
  ((r < min_len)%nat -> nth r new_line SPACE <> nth r old_line SPACE).
Proof.
  induction fuel as [|fuel IH]; intros j r Hj Hf; cbn [scan_start].
  - intros <-. split; [lia|]. split; intros; lia.
  - destruct (Nat.ltb_spec j min_len) as [Hlt|Hge]; cbn [andb].
    + destruct (Ascii.eqb_spec (nth j new_line SPACE) (nth j old_line SPACE))
        as [E|E].
      * intros Hr. destruct (IH (S j) r ltac:(lia) ltac:(lia) Hr)
          as [Hb [Heq Hne]].
        split; [lia|]. split; [|exact Hne].
        intros k Hk. destruct (Nat.eq_dec k j) as [->|]; [exact E|].
        apply Heq. lia.
      * intros <-. split; [lia|]. split; [intros; lia|]. intros _. exact E.
    + intros <-. split; [lia|]. split; intros; lia.
Qed.

Lemma scan_end_spec new_line old_line start_diff :
  forall fuel e r,
  (start_diff <= e)%nat -> (e <= start_diff + fuel)%nat ->
  scan_end new_line old_line start_diff fuel e = r ->
  (start_diff <= r <= e)%nat /\
  (forall k, (r < k <= e)%nat ->
             nth k new_line SPACE = nth k old_line SPACE) /\
  ((start_diff < r)%nat -> nth r new_line SPACE <> nth r old_line SPACE).
Proof.
  induction fuel as [|fuel IH]; intros e r He Hf; cbn [scan_end].
  - intros <-. split; [lia|]. split; intros; lia.
  - destruct (Nat.ltb_spec start_diff e) as [Hlt|Hge]; cbn [andb].
    + destruct (Ascii.eqb_spec (nth e new_line SPACE) (nth e old_line SPACE))
        as [E|E].
      * intros Hr. destruct (IH (e - 1)%nat r ltac:(lia) ltac:(lia) Hr)
          as [Hb [Heq Hne]].
        split; [lia|]. split; [|exact Hne].
        intros k Hk. destruct (Nat.eq_dec k e) as [->|]; [exact E|].
        apply Heq. lia.
      * intros <-. split; [lia|]. split; [intros; lia|]. intros _. exact E.
    + intros <-. split; [lia|]. split; intros; lia.
Qed.

(** Where the two scans of a row end. *)
Lemma scans new_line old_line :
  let min_len := Nat.min (length new_line) (length old_line) in
  let start_diff := scan_start new_line old_line min_len min_len 0 in
  let end_diff := scan_end new_line old_line start_diff min_len (min_len - 1) in
  (start_diff <= min_len)%nat /\
  (forall k, (k < start_diff)%nat ->
             nth k new_line SPACE = nth k old_line SPACE) /\
  ((start_diff < min_len)%nat ->
   (start_diff <= end_diff < min_len)%nat /\
   nth end_diff new_line SPACE <> nth end_diff old_line SPACE /\
   forall k, (end_diff < k < min_len)%nat ->
             nth k new_line SPACE = nth k old_line SPACE).
Proof.
  intros min_len start_diff end_diff.
  destruct (scan_start_spec new_line old_line min_len min_len 0 start_diff
              ltac:(lia) ltac:(lia) eq_refl) as [Hb [Heq Hne]].
  split; [lia|]. split; [intros k Hk; apply Heq; lia|].
  intros Hlt.
  destruct (scan_end_spec new_line old_line start_diff min_len
              (min_len - 1) end_diff ltac:(lia) ltac:(lia) eq_refl)
    as [Hb' [Heq' Hne']].
  split; [lia|]. split.
  - destruct (Nat.eq_dec end_diff start_diff) as [E|E].
    + rewrite E. now apply Hne.
    + apply Hne'. lia.
  - intros k Hk. apply Heq'. lia.
Qed.

Lemma flat_map_nil {A B} (f : A -> list B) l :
  (forall x, In x l -> f x = []) -> flat_map f l = [].
Proof.
  induction l as [|a l IH]; intros H; [reflexivity|].
  simpl. rewrite (H a) by now left. apply IH. intros x Hx. apply H. now right.
Qed.

(** X20. A frame whose lines equal those of the frame before it
    causes no call on the window at all, whatever the window size. *)
Theorem unchanged_frame_no_call (curses_error : Call -> bool)
        (max_y max_x : Z) (frame_lines : list str) :
  draw_rows curses_error max_y max_x frame_lines frame_lines = [].
Proof.
  unfold draw_rows. apply flat_map_nil. intros i _.
  unfold update_row. now rewrite str_eqb_refl.
Qed.

Lemma attempt_made (curses_error : Call -> bool) calls c :
  In c (fst (attempt curses_error calls)) -> In c calls.
Proof.
  induction calls as [|a calls IH]; simpl; [auto|].
  destruct (curses_error a); simpl.
  - intros [<-|[]]. now left.
  - destruct (attempt curses_error calls) as [made ok]. simpl in *.
    intros [<-|H]; [now left|right; now apply IH].
Qed.

Lemma update_chars_inside max_width i new_line old_line y x text :
  In (AddStr y x text) (update_chars max_width i new_line old_line) ->
  y = i /\ text <> [] /\
  Z.of_nat x + Z.of_nat (length text) <= max_width.
Proof.
  unfold update_chars.
  destruct (scans new_line old_line) as [Hsd [_ Hed]].
  set (min_len := Nat.min (length new_line) (length old_line)) in *.
  set (start_diff := scan_start new_line old_line min_len min_len 0) in *.
  set (end_diff := scan_end new_line old_line start_diff min_len
                            (min_len - 1)) in *.
  assert (Hnonempty : forall l : str, (0 < length l)%nat -> l <> [])
    by (intros l Hl ->; simpl in Hl; lia).
  intros Hin. apply in_app_or in Hin. destruct Hin as [Hin|Hin].
  - destruct (Nat.ltb_spec start_diff min_len) as [Hlt|]; [|destruct Hin].
    destruct (Hed Hlt) as [Hb _].
    destruct (Nat.leb_spec start_diff end_diff); cbn [andb] in Hin;
      [|destruct Hin].
    destruct (Z.ltb_spec (Z.of_nat end_diff) max_width); [|destruct Hin].
    destruct Hin as [E|[]]. injection E as <- <- <-.
    assert (Hlen : length (slice new_line start_diff (end_diff + 1))
                   = (end_diff + 1 - start_diff)%nat)
      by (apply length_slice; lia).
    split; [reflexivity|]. split; [apply Hnonempty|]; lia.
  - destruct (Nat.ltb_spec (length old_line) (length new_line)) as [Hlong|].
    + destruct (Nat.ltb_spec (Nat.max (length old_line) start_diff)
                             (length new_line)); cbn [andb] in Hin;
        [|destruct Hin].
      destruct (Z.ltb_spec (Z.of_nat (Nat.max (length old_line) start_diff))
                           max_width); [|destruct Hin].
      destruct Hin as [E|[]]. injection E as <- <- <-.
      rewrite length_slice by lia.
      split; [reflexivity|]. split; [apply Hnonempty; rewrite length_slice|];
        lia.
    + destruct (Nat.ltb_spec (length new_line) (length old_line));
        [|destruct Hin].
      destruct (Z.ltb_spec 0 (Z.min (max_width - Z.of_nat (length new_line))
                                    (Z.of_nat (length old_line)
                                     - Z.of_nat (length new_line))));
        [|destruct Hin].
      destruct Hin as [E|[]]. injection E as <- <- <-.
      rewrite repeat_length.
      split; [reflexivity|]. split; [apply Hnonempty; rewrite repeat_length|];
        lia.
Qed.

Lemma update_row_inside (curses_error : Call -> bool) max_x i
      new_line old_line y x text :
  In (AddStr y x text) (update_row curses_error max_x i new_line old_line) ->
  y = i /\ text <> [] /\
  Z.of_nat x + Z.of_nat (length text) <= max_x - 1.
Proof.
  unfold update_row. destruct (str_eqb new_line old_line); [intros []|].
  destruct (Z.leb_spec (Z.of_nat (length new_line)) (max_x - 1)) as [Hfit|];
    cbn [andb]; [|apply update_chars_inside].
  destruct (_ <? _); [|apply update_chars_inside].
  destruct (attempt curses_error _) as [made ok] eqn:Ea.
  assert (Hmade : In (AddStr y x text) made ->
                  y = i /\ text <> [] /\
                  Z.of_nat x + Z.of_nat (length text) <= max_x - 1).
  { intros Hin. replace made with (fst (attempt curses_error
        ([MoveTo i 0; ClrToEol]
           ++ match new_line with [] => [] | _ => [AddStr i 0 new_line] end)))
      in Hin by now rewrite Ea.
    apply attempt_made in Hin.
    destruct Hin as [E|[E|Hin]]; try discriminate.
    destruct new_line as [|c l]; [destruct Hin|].
    destruct Hin as [E|[]]. injection E as <- <- <-.
    split; [reflexivity|]. split; [discriminate|]. lia. }
  destruct ok; [exact Hmade|].
  intros Hin. apply in_app_or in Hin.
  destruct Hin as [Hin|Hin]; [now apply Hmade|].
  now apply update_chars_inside in Hin.
Qed.

(** X21. Every [addstr] of the row loop is for a row above [max_y],
    writes a text that is not empty, and ends at or before column
    [max_x - 1]: the last column of the window is never written. *)
Theorem writes_inside_window (curses_error : Call -> bool)
        (max_y max_x : Z) (frame_lines prev_frame_lines : list str)
        (y x : nat) (text : str) :
  In (AddStr y x text)
     (draw_rows curses_error max_y max_x frame_lines prev_frame_lines) ->
  Z.of_nat y < max_y /\ text <> [] /\
  Z.of_nat x + Z.of_nat (length text) <= max_x - 1.
Proof.
  unfold draw_rows. intros Hin. apply in_flat_map in Hin.
  destruct Hin as [i [Hi Hin]]. apply in_seq in Hi.
  apply update_row_inside in Hin. destruct Hin as [-> Hin].
  split; [lia|exact Hin].
Qed.

(** X22. Two lines of the same length whose last difference lies at
    column [max_x - 1] or beyond: the row is skipped altogether, so
    differences in the columns before it stay on the screen. *)
Theorem wide_row_not_updated (curses_error : Call -> bool) (max_x : Z)
        (i : nat) (new_line old_line : str) (k : nat) :
  length new_line = length old_line ->
  (k < length new_line)%nat ->
  nth k new_line SPACE <> nth k old_line SPACE ->
  (forall j, (k < j < length new_line)%nat ->
             nth j new_line SPACE = nth j old_line SPACE) ->
  max_x - 1 <= Z.of_nat k ->
  new_line <> old_line /\
  update_row curses_error max_x i new_line old_line = [].
Proof.
  intros Hlen Hk Hne Hafter Hwide.
  assert (Hdiff : new_line <> old_line) by (intros E; now rewrite E in Hne).
  split; [exact Hdiff|].
  unfold update_row.
  destruct (str_eqb new_line old_line) eqn:E;
    [apply str_eqb_eq in E; contradiction|].
  rewrite <- Hlen, Z.sub_diag. cbn [Z.abs].
  destruct (Z.ltb_spec (Z.of_nat (length new_line / 2)) 0); [lia|].
  rewrite andb_false_r.
  unfold update_chars.
  destruct (scans new_line old_line) as [Hsd [Heq Hed]].
  rewrite <- Hlen, Nat.min_id in *.
  set (start_diff := scan_start new_line old_line (length new_line)
                                (length new_line) 0) in *.
  set (end_diff := scan_end new_line old_line start_diff (length new_line)
                            (length new_line - 1)) in *.
  rewrite Nat.ltb_irrefl. rewrite app_nil_r.
  destruct (Nat.ltb_spec start_diff (length new_line)) as [Hlt|Hge].
  - destruct (Hed Hlt) as [Hb [Hne' Heq']].
    assert (k <= end_diff)%nat.
    { destruct (Nat.le_gt_cases k end_diff); [assumption|].
      exfalso. apply Hne. apply Heq'. lia. }
    destruct (Z.ltb_spec (Z.of_nat end_diff) (max_x - 1)); [lia|].
    now rewrite andb_false_r.
  - exfalso. apply Hne. apply Heq. lia.
Qed.

Lemma addstr_cells t y x text :
  no_newline text ->
  forall r k,
    cells (perform t (AddStr y x text)) r k
    = if (r =? y)%nat && (x <=? k)%nat && (k <? x + length text)%nat
      then nth (k - x) text SPACE
      else cells t r k.
Proof.
  intros Hnl r k. cbn [perform].
  destruct (write_cells text {| cells := cells t; cur_row := y; cur_col := x |}
              Hnl) as [_ [_ H]].
  now rewrite H.
Qed.

Lemma no_newline_slice (l : str) lo hi : no_newline l -> no_newline (slice l lo hi).
Proof.
  intros H Hin. apply H. unfold slice in Hin.
  rewrite <- (firstn_skipn lo l). apply in_or_app. right.
  rewrite <- (firstn_skipn (hi - lo) (skipn lo l)).
  apply in_or_app. now left.
Qed.

Lemma no_newline_spaces n : no_newline (repeat SPACE n).
Proof. intros H. apply repeat_spec in H. discriminate. Qed.

Lemma update_chars_cells t max_width i new_line old_line :
  no_newline new_line ->
  Z.of_nat (length new_line) <= max_width ->
  Z.of_nat (length old_line) <= max_width ->
  (forall k, cells t i k = nth k old_line SPACE) ->
  forall r k,
    cells (perform_all t (update_chars max_width i new_line old_line)) r k
    = if (r =? i)%nat then nth k new_line SPACE else cells t r k.
Proof.
  intros Hnl Hn Ho Hrow r k. unfold update_chars.
  destruct (scans new_line old_line) as [Hsd [Heq Hed]].
  set (min_len := Nat.min (length new_line) (length old_line)) in *.
  set (start_diff := scan_start new_line old_line min_len min_len 0) in *.
  set (end_diff := scan_end new_line old_line start_diff min_len
                            (min_len - 1)) in *.
  unfold perform_all. rewrite fold_left_app.
  set (t1 := fold_left perform _ t).
  assert (H1 : forall r k,
             cells t1 r k
             = if (r =? i)%nat && (start_diff <=? k)%nat
                  && (k <? min_len)%nat && (k <=? end_diff)%nat
               then nth k new_line SPACE else cells t r k).
  { intros r' k'. subst t1.
    destruct (Nat.ltb_spec start_diff min_len) as [Hlt|Hge].
    - destruct (Hed Hlt) as [Hb _].
      destruct (Nat.leb_spec start_diff end_diff); [|lia]. cbn [andb].
      destruct (Z.ltb_spec (Z.of_nat end_diff) max_width); [|lia].
      cbn [fold_left]. rewrite addstr_cells by now apply no_newline_slice.
      rewrite length_slice by lia.
      destruct (r' =? i)%nat; cbn [andb]; [|reflexivity].
      destruct (Nat.leb_spec start_diff k'); cbn [andb]; [|reflexivity].
      destruct (Nat.ltb_spec k' (start_diff + (end_diff + 1 - start_diff)));
        destruct (Nat.ltb_spec k' min_len);
        destruct (Nat.leb_spec k' end_diff); cbn [andb]; try lia;
        try reflexivity.
      rewrite nth_slice by lia. f_equal. lia.
    - cbn [fold_left].
      destruct (r' =? i)%nat; cbn [andb]; [|reflexivity].
      destruct (Nat.leb_spec start_diff k'); cbn [andb]; [|reflexivity].
      destruct (Nat.ltb_spec k' min_len); [lia|reflexivity]. }
  assert (Hcommon : forall k', (k' < min_len)%nat ->
             cells t1 i k' = nth k' new_line SPACE).
  { intros k' Hk'. rewrite H1, Nat.eqb_refl. cbn [andb].
    destruct (Nat.ltb_spec k' min_len); [|lia].
    destruct (Nat.leb_spec start_diff k') as [Hs|Hs]; cbn [andb].
    - destruct (Nat.leb_spec k' end_diff); [reflexivity|].
      rewrite Hrow. symmetry.
      destruct (Hed ltac:(lia)) as [_ [_ Hafter]]. apply Hafter. lia.
    - rewrite Hrow. symmetry. now apply Heq. }
  assert (Hbeyond : forall k', (min_len <= k')%nat ->
             cells t1 i k' = nth k' old_line SPACE).
  { intros k' Hk'. rewrite H1, Nat.eqb_refl. cbn [andb].
    destruct (Nat.ltb_spec k' min_len); [lia|].
    rewrite andb_false_r. cbn [andb]. apply Hrow. }
  assert (Hother : forall r' k', r' <> i -> cells t1 r' k' = cells t r' k').
  { intros r' k' Hr. rewrite H1.
    destruct (Nat.eqb_spec r' i); [contradiction|reflexivity]. }
  clearbody t1. clear H1.
  destruct (Nat.ltb_spec (length old_line) (length new_line)) as [Hlong|Hnl'].
  - (* the new line is longer *)
    replace (Nat.max (length old_line) start_diff) with (length old_line)
      by lia.
    destruct (Nat.ltb_spec (length old_line) (length new_line)); [|lia].
    destruct (Z.ltb_spec (Z.of_nat (length old_line)) max_width); [|lia].
    cbn [andb fold_left].
    rewrite addstr_cells by now apply no_newline_slice.
    replace (Z.to_nat (Z.min max_width (Z.of_nat (length new_line))))
      with (length new_line) by lia.
    rewrite length_slice by lia.
    destruct (Nat.eqb_spec r i) as [->|Hr]; cbn [andb]; [|now apply Hother].
    destruct (Nat.leb_spec (length old_line) k); cbn [andb].
    + destruct (Nat.ltb_spec k (length old_line
                                + (length new_line - length old_line))).
      * rewrite nth_slice by lia. f_equal. lia.
      * rewrite Hbeyond by lia.
        rewrite !nth_overflow by lia. reflexivity.
    + apply Hcommon. lia.
  - destruct (Nat.ltb_spec (length new_line) (length old_line)) as [Hshort|].
    + (* the old line was longer *)
      replace (Z.min (max_width - Z.of_nat (length new_line))
                     (Z.of_nat (length old_line)
                      - Z.of_nat (length new_line)))
        with (Z.of_nat (length old_line - length new_line)) by lia.
      destruct (Z.ltb_spec 0 (Z.of_nat (length old_line - length new_line)));
        [|lia].
      cbn [fold_left]. rewrite Nat2Z.id.
      rewrite addstr_cells by apply no_newline_spaces.
      rewrite repeat_length.
      destruct (Nat.eqb_spec r i) as [->|Hr]; cbn [andb]; [|now apply Hother].
      destruct (Nat.leb_spec (length new_line) k); cbn [andb].
      * destruct (Nat.ltb_spec k (length new_line
                                  + (length old_line - length new_line))).
        -- rewrite (nth_overflow new_line) by lia.
           apply nth_repeat.
        -- rewrite Hbeyond by lia.
           rewrite !nth_overflow by lia. reflexivity.
      * apply Hcommon. lia.
    + (* same length *)
      cbn [fold_left].
      destruct (Nat.eqb_spec r i) as [->|Hr]; [|now apply Hother].
      destruct (Nat.lt_ge_cases k min_len); [now apply Hcommon|].
      rewrite Hbeyond by lia. rewrite !nth_overflow by lia. reflexivity.
Qed.

Lemma attempt_ok calls : attempt (fun _ => false) calls = (calls, true).
Proof.
  induction calls as [|c calls IH]; [reflexivity|].
  cbn [attempt]. now rewrite IH.
Qed.

Lemma update_row_cells t max_x i new_line old_line :
  fits max_x new_line ->
  Z.of_nat (length old_line) <= max_x - 1 ->
  (forall k, cells t i k = nth k old_line SPACE) ->
  forall r k,
    cells (perform_all t (update_row (fun _ => false) max_x i
                                     new_line old_line)) r k
    = if (r =? i)%nat then nth k new_line SPACE else cells t r k.
Proof.
  intros [Hnl Hn] Ho Hrow r k. unfold update_row.
  destruct (str_eqb new_line old_line) eqn:E.
  - apply str_eqb_eq in E. subst old_line. cbn.
    destruct (Nat.eqb_spec r i) as [->|]; [apply Hrow|reflexivity].
  - destruct (_ && _); [|now apply update_chars_cells].
    rewrite attempt_ok.
    destruct new_line as [|c l].
    + cbn. destruct (Nat.eqb_spec r i) as [->|]; cbn [andb]; [|reflexivity].
      now destruct k.
    + unfold perform_all. cbn [app fold_left].
      rewrite addstr_cells by assumption.
      destruct (Nat.eqb_spec r i) as [->|Hr]; cbn [andb].
      * destruct (Nat.ltb_spec k (0 + length (c :: l))).
        -- now rewrite Nat.sub_0_r.
        -- cbn [perform cells cur_row cur_col]. rewrite Nat.eqb_refl.
           cbn [andb Nat.leb]. now rewrite nth_overflow by lia.
      * cbn [perform cells cur_row cur_col].
        destruct (Nat.eqb_spec r i); [contradiction|reflexivity].
Qed.

Lemma perform_all_app t a b :
  perform_all t (a ++ b) = perform_all (perform_all t a) b.
Proof. apply fold_left_app. Qed.

Lemma rows_cells max_x (new_of old_of : nat -> str) :
  (forall i, fits max_x (new_of i)) ->
  (forall i, Z.of_nat (length (old_of i)) <= max_x - 1) ->
  forall m a t,
  (forall r k, (a <= r < a + m)%nat ->
               cells t r k = nth k (old_of r) SPACE) ->
  forall r k,
    cells (perform_all t
             (flat_map (fun i => update_row (fun _ => false) max_x i
                                            (new_of i) (old_of i))
                       (seq a m))) r k
    = if (a <=? r)%nat && (r <? a + m)%nat then nth k (new_of r) SPACE
      else cells t r k.
Proof.
  intros Hnew Hold. induction m as [|m IH]; intros a t Hrows r k.
  - cbn [seq flat_map]. unfold perform_all. cbn [fold_left].
    destruct (Nat.leb_spec a r); cbn [andb]; [|reflexivity].
    destruct (Nat.ltb_spec r (a + 0)); [lia|reflexivity].
  - cbn [seq flat_map]. rewrite perform_all_app.
    set (t1 := perform_all t (update_row _ max_x a (new_of a) (old_of a))).
    assert (H1 : forall r k, cells t1 r k
                             = if (r =? a)%nat then nth k (new_of a) SPACE
                               else cells t r k).
    { apply update_row_cells; auto. intros k'. apply Hrows. lia. }
    rewrite IH.
    + rewrite H1.
      destruct (Nat.eqb_spec r a) as [->|Hr].
      * destruct (Nat.leb_spec (S a) a); [lia|]. cbn [andb].
        destruct (Nat.leb_spec a a); [|lia].
        destruct (Nat.ltb_spec a (a + S m)); [reflexivity|lia].
      * destruct (Nat.leb_spec (S a) r); destruct (Nat.leb_spec a r);
          cbn [andb]; try lia; try reflexivity.
        destruct (Nat.ltb_spec r (S a + m));
          destruct (Nat.ltb_spec r (a + S m)); try lia; reflexivity.
    + intros r' k' Hr'. rewrite H1.
      destruct (Nat.eqb_spec r' a); [lia|]. apply Hrows. lia.
Qed.

Lemma line_or_empty (lines : list str) i :
  (if (i <? length lines)%nat then nth i lines [] else []) = nth i lines [].
Proof.
  destruct (Nat.ltb_spec i (length lines)); [reflexivity|].
  now rewrite nth_overflow.
Qed.

Lemma nth_fits max_x (lines : list str) i :
  1 <= max_x ->
  Forall (fits max_x) lines -> fits max_x (nth i lines []).
Proof.
  intros Hx Hl. destruct (nth_in_or_default i lines []) as [Hin|E].
  - rewrite Forall_forall in Hl. now apply Hl.
  - rewrite E. split; [intros []|simpl; lia].
Qed.

Lemma draw_rows_cells (t : Term) (max_y max_x : Z)
        (frame_lines prev_frame_lines : list str) :
  1 <= max_x ->
  Forall (fits max_x) frame_lines ->
  Forall (fits max_x) prev_frame_lines ->
  Z.of_nat (length frame_lines) <= max_y ->
  Z.of_nat (length prev_frame_lines) <= max_y ->
  (forall r k, cells t r k = grid_of_lines prev_frame_lines r k) ->
  forall r k,
    cells (perform_all t (draw_rows (fun _ => false) max_y max_x
                                    frame_lines prev_frame_lines)) r k
    = grid_of_lines frame_lines r k.
Proof.
  intros Hx Hnew Hold Hny Hoy Hscreen r k. unfold draw_rows.
  rewrite (flat_map_ext _
             (fun i => update_row (fun _ => false) max_x i
                                  (nth i frame_lines [])
                                  (nth i prev_frame_lines [])))
    by (intros i; now rewrite !line_or_empty).
  rewrite (rows_cells max_x (fun i => nth i frame_lines [])
                      (fun i => nth i prev_frame_lines [])).
  - unfold grid_of_lines.
    destruct (Nat.leb_spec 0 r); [|lia]. cbn [andb].
    destruct (Nat.ltb_spec r
                (0 + Z.to_nat
                       (Z.min (Z.of_nat (Nat.max (length frame_lines)
                                                 (length prev_frame_lines)))
                              max_y))) as [|Hout]; [reflexivity|].
    rewrite Hscreen. unfold grid_of_lines.
    rewrite (nth_overflow frame_lines), (nth_overflow prev_frame_lines)
      by lia.
    reflexivity.
  - intros i. now apply nth_fits.
  - intros i. now apply (nth_fits max_x prev_frame_lines i Hx).
  - intros r' k' _. apply Hscreen.
Qed.


Lemma kept_lines (frame_lines : list str) :
  match frame_lines with [] => [] | _ => frame_lines end = frame_lines.
Proof. now destruct frame_lines. Qed.

Lemma curses_rounds_shows (max_y max_x : Z) :
  1 <= max_x ->
  forall rounds prev t,
  Forall (fits_window max_y max_x) rounds ->
  Forall (fits max_x) prev ->
  Z.of_nat (length prev) <= max_y ->
  (forall r k, cells t r k = grid_of_lines prev r k) ->
  forall r k,
    cells (perform_all t (fst (curses_rounds (fun _ => false) prev rounds)))
          r k
    = grid_of_lines (last_drawn prev rounds) r k.
Proof.
  intros Hx. induction rounds as [|rd rounds IH];
    intros prev t Hfit Hprev Hlen Hscreen r k.
  - cbn. apply Hscreen.
  - inversion Hfit as [|? ? Hrd Hrest]; subst.
    cbn [curses_rounds last_drawn]. unfold fits_window in Hrd.
    destruct (dequeued rd) as [[ascii_frame [curr_max_y curr_max_x]]|].
    + destruct Hrd as [E [Hrows Hcols]]. injection E as -> ->.
      rewrite kept_lines.
      assert (Hlines : Forall (fits max_x) (split_lines ascii_frame)).
      { apply Forall_forall. intros l Hl. split.
        - pose proof (split_nl_clean ascii_frame [] (fun H => H)) as Hc.
          rewrite Forall_forall in Hc. now apply Hc.
        - rewrite Forall_forall in Hcols. now apply Hcols. }
      set (t1 := perform_all t
                   (draw_rows (fun _ => false) max_y max_x
                              (split_lines ascii_frame) prev ++ [Refresh])).
      assert (H1 : forall r k, cells t1 r k
                               = grid_of_lines (split_lines ascii_frame) r k).
      { intros r' k'. subst t1. rewrite perform_all_app.
        unfold perform_all at 1. cbn [fold_left perform].
        now apply draw_rows_cells. }
      destruct (key rd =? KEY_Q).
      * cbn [fst]. apply H1.
      * destruct (curses_rounds _ (split_lines ascii_frame) rounds)
          as [later stopped] eqn:El.
        cbn [fst]. rewrite perform_all_app. fold t1.
        specialize (IH (split_lines ascii_frame) t1 Hrest Hlines Hrows H1 r k).
        rewrite El in IH. exact IH.
    + destruct (key rd =? KEY_Q).
      * cbn. apply Hscreen.
      * destruct (curses_rounds _ prev rounds) as [later stopped] eqn:El.
        cbn [fst app].
        specialize (IH prev t Hrest Hprev Hlen Hscreen r k).
        rewrite El in IH. exact IH.
Qed.

(** X24. [render_frames_curses] from an empty window, when every
    frame it takes fits a window of constant size ([max_y] rows, lines
    of at most [max_x - 1] characters) and no call raises: when it
    stops the window shows exactly the lines of the last frame taken
    before [q] was pressed. *)
Theorem curses_run_shows (max_y max_x : Z) (rounds : list Round) :
  1 <= max_x -> 0 <= max_y ->
  Forall (fits_window max_y max_x) rounds ->
  forall r k,
    cells (perform_all fresh_term
             (fst (render_frames_curses (fun _ => false) rounds))) r k
    = grid_of_lines (last_drawn [] rounds) r k.
Proof.
  intros Hx Hy Hfit r k. unfold render_frames_curses.
  pose proof (curses_rounds_shows max_y max_x Hx rounds [] fresh_term Hfit
                (Forall_nil _) Hy) as H.
  destruct (curses_rounds _ [] rounds) as [calls stopped].
  cbn [fst] in *. rewrite perform_all_app.
  unfold perform_all at 1. cbn [fold_left perform].
  apply H. intros r' k'. unfold grid_of_lines. cbn.
  now destruct r', k'.
Qed.

(** X23. Where the frame has fewer lines than the one before, the
    rows it no longer has are blanked (unlike the escape-sequence
    renderer, which leaves them), provided both frames fit the
    window and no call raises. *)
Theorem curses_trailing_rows_blanked (t : Term) (max_y max_x : Z)
        (frame_lines prev_frame_lines : list str) (r k : nat) :
  1 <= max_x ->
  Forall (fits max_x) frame_lines ->
  Forall (fits max_x) prev_frame_lines ->
  Z.of_nat (length frame_lines) <= max_y ->
  Z.of_nat (length prev_frame_lines) <= max_y ->
  (forall r k, cells t r k = grid_of_lines prev_frame_lines r k) ->
  (length frame_lines <= r)%nat ->
  cells (perform_all t (draw_rows (fun _ => false) max_y max_x
                                  frame_lines prev_frame_lines)) r k
  = SPACE.
Proof.
  intros Hx Hnew Hold Hny Hoy Hscreen Hr.
  rewrite (draw_rows_cells t max_y max_x frame_lines prev_frame_lines)
    by assumption.
  unfold grid_of_lines. rewrite (nth_overflow frame_lines) by assumption.
  now destruct k.
Qed.

Import Samples.

Lemma plain_fits max_x (line : str) :
  forallb (fun c => negb (Ascii.eqb c NL)) line = true ->
  Z.of_nat (length line) <= max_x - 1 ->
  fits max_x line.
Proof.
  intros Hc Hl. split; [|exact Hl]. intros Hin.
  rewrite forallb_forall in Hc. specialize (Hc NL Hin).
  now rewrite Ascii.eqb_refl in Hc.
Qed.

Ltac fits_all :=
  repeat first
    [ apply Forall_nil
    | apply Forall_cons; [apply plain_fits; [reflexivity|simpl; lia]|] ].

Lemma writes_inside_window_witness :
  Z.of_nat 0 < 5 /\ s "ab" <> [] /\
  Z.of_nat 0 + Z.of_nat (length (s "ab")) <= 10 - 1.
Proof.
  apply (writes_inside_window (fun _ => false) 5 10 [s "ab"] []
           0%nat 0%nat (s "ab")).
  vm_compute. right. right. left. reflexivity.
Defined.

Lemma wide_row_not_updated_witness :
  s "Xbcd" <> s "abcx" /\
  update_row (fun _ => false) 3 0%nat (s "Xbcd") (s "abcx") = [].
Proof.
  apply (wide_row_not_updated (fun _ => false) 3 0%nat (s "Xbcd") (s "abcx")
           3%nat).
  - reflexivity.
  - simpl. lia.
  - simpl. discriminate.
  - simpl. intros j Hj. lia.
  - simpl. lia.
Defined.

Lemma curses_trailing_rows_blanked_witness :
  cells (perform_all old_screen
           (draw_rows (fun _ => false) 24 80 [s "xbc"] [s "abc"; s "de"]))
        1%nat 0%nat
  = SPACE.
Proof.
  apply (curses_trailing_rows_blanked old_screen 24 80
           [s "xbc"] [s "abc"; s "de"] 1%nat 0%nat).
  - lia.
  - fits_all.
  - fits_all.
  - simpl. lia.
  - simpl. lia.
  - intros r k. reflexivity.
  - simpl. lia.
Defined.

Lemma curses_run_shows_witness :
  cells (perform_all fresh_term
           (fst (render_frames_curses (fun _ => false) two_frames_then_q)))
        0%nat 1%nat
  = "y"%char.
Proof.
  rewrite (curses_run_shows 24 80 two_frames_then_q).
  - reflexivity.
  - lia.
  - lia.
  - repeat constructor; simpl; lia.
Defined.

End CursesFacts.

(** ** The colour curses renderer *)

Module ColorFacts.
Import Py CursesRenderer.
Import ColorRenderer ColorNotions.

Section Curses.
Variables COLORS COLOR_PAIRS A_NORMAL : Z.
Variable color_pair : Z -> Z.
Variable init_pair_error : Z -> Z -> bool.

Lemma combine_snoc (start : nat) (chars : list str) (c : str) :
  combine (seq start (length (chars ++ [c]))) (chars ++ [c])
  = combine (seq start (length chars)) chars
      ++ [((start + length chars)%nat, c)].
Proof.
  revert start. induction chars as [|a chars IH]; intros start.
  - cbn. now rewrite Nat.add_0_r.
  - cbn [app length seq combine]. rewrite IH.
    cbn [app]. rewrite Nat.add_succ_r. reflexivity.
Qed.

Lemma changes_step new_row old_row j n :
  changes new_row old_row j (S n)
  = (if changed new_row old_row j
     then [(j, fst (nth j new_row NO_CELL))] else [])
      ++ changes new_row old_row (S j) n.
Proof.
  unfold changes. cbn [seq filter].
  now destruct (changed new_row old_row j).
Qed.

Lemma get_color_attr_runs st c :
  COLORS <> 0 ->
  exists attr st',
    get_color_attr COLORS COLOR_PAIRS A_NORMAL color_pair init_pair_error
                   st c = Some (attr, st').
Proof.
  intros Hc. unfold get_color_attr.
  destruct (COLORS <? 256); [destruct (Z.eqb_spec COLORS 0); [lia|]|];
    cbn [bind];
    (destruct (color_pair_cache st c); [eauto|]);
    (destruct (COLOR_PAIRS <=? next_pair_number st); [eauto|]);
    (destruct (init_pair_error _ _); eauto).
Qed.

(** What a run of the row loop that ends normally has written. *)
Lemma row_loop_painted i new_row old_row limit :
  forall fuel j mode st calls calls' st',
  (j <= limit)%nat -> ready mode j ->
  row_loop COLORS COLOR_PAIRS A_NORMAL color_pair init_pair_error
           fuel i new_row old_row limit j mode st calls
    = Done (calls', st') ->
  flat_map painted calls'
  = flat_map painted calls ++ pending mode
      ++ changes new_row old_row j (limit - j).
Proof.
  induction fuel as [|fuel IH]; intros j mode st calls calls' st' Hj Hready;
    cbn [row_loop]; [discriminate|].
  destruct mode as [|start current_attr segment_chars].
  - (* between segments *)
    destruct (Nat.ltb_spec j limit) as [Hlt|Hge].
    + replace (limit - j)%nat with (S (limit - S j)) by lia.
      rewrite changes_step. unfold changed at 1.
      destruct (nth_error new_row j) as [n|] eqn:En; [|discriminate].
      destruct (nth_error old_row j) as [o|] eqn:Eo; [|discriminate].
      rewrite (nth_error_nth _ _ _ En), (nth_error_nth _ _ _ Eo).
      destruct (cell_eqb n o); cbn [negb].
      * intros H. apply IH in H; [|lia|exact I]. rewrite H. reflexivity.
      * destruct (get_color_attr _ _ _ _ _ st (snd n)) as [[attr st1]|];
          [|discriminate].
        intros H. apply IH in H; [|lia|cbn; lia]. rewrite H.
        reflexivity.
    + intros H. injection H as <- <-.
      replace (limit - j)%nat with O by lia. cbn. now rewrite app_nil_r.
  - (* inside a segment *)
    cbn [ready] in Hready.
    assert (Hflush : forall rest,
               flat_map painted
                 (calls ++ [AddStr i start segment_chars current_attr])
                 ++ rest
               = flat_map painted calls
                   ++ pending (InSegment start current_attr segment_chars)
                   ++ rest).
    { intros rest. rewrite flat_map_app. cbn [flat_map painted pending].
      now rewrite app_nil_r, <- app_assoc. }
    destruct (Nat.ltb_spec j limit) as [Hlt|Hge].
    + destruct (nth_error new_row j) as [n|] eqn:En; [|discriminate].
      destruct (nth_error old_row j) as [o|] eqn:Eo; [|discriminate].
      destruct (cell_eqb n o) eqn:Ecell.
      * intros H. apply IH in H; [|lia|exact I]. rewrite H.
        cbn [pending app]. apply Hflush.
      * destruct (get_color_attr _ _ _ _ _ st (snd n)) as [[attr st1]|];
          [|discriminate].
        destruct (attr =? current_attr).
        -- intros H.
           apply IH in H; [|lia|cbn; rewrite length_app; cbn; lia].
           rewrite H. cbn [pending]. rewrite combine_snoc, Hready.
           replace (limit - j)%nat with (S (limit - S j)) by lia.
           rewrite changes_step. unfold changed at 1.
           rewrite (nth_error_nth _ _ _ En), (nth_error_nth _ _ _ Eo), Ecell.
           cbn [negb]. now rewrite <- !app_assoc.
        -- intros H. apply IH in H; [|lia|exact I]. rewrite H.
           cbn [pending app]. apply Hflush.
    + intros H. apply IH in H; [|lia|exact I]. rewrite H.
      cbn [pending app]. apply Hflush.
Qed.

(** With the old row long enough and a usable [COLORS], the loop ends
    normally within [cost] rounds. *)
Lemma row_loop_ends i new_row old_row limit :
  COLORS <> 0 ->
  (limit <= length new_row)%nat -> (limit <= length old_row)%nat ->
  forall fuel j mode st calls,
  (cost limit j mode < fuel)%nat ->
  exists calls' st',
    row_loop COLORS COLOR_PAIRS A_NORMAL color_pair init_pair_error
             fuel i new_row old_row limit j mode st calls
    = Done (calls', st').
Proof.
  intros Hc Hn Ho.
  induction fuel as [|fuel IH]; intros j mode st calls Hfuel; [lia|].
  cbn [row_loop]. unfold cost in *.
  destruct mode as [|start current_attr segment_chars].
  - destruct (Nat.ltb_spec j limit) as [Hlt|Hge]; [|eauto].
    destruct (nth_error new_row j) as [n|] eqn:En;
      [|apply nth_error_None in En; lia].
    destruct (nth_error old_row j) as [o|] eqn:Eo;
      [|apply nth_error_None in Eo; lia].
    destruct (cell_eqb n o); [apply IH; lia|].
    destruct (get_color_attr_runs st (snd n) Hc) as [attr [st1 ->]].
    apply IH. lia.
  - destruct (Nat.ltb_spec j limit) as [Hlt|Hge]; [|apply IH; lia].
    destruct (nth_error new_row j) as [n|] eqn:En;
      [|apply nth_error_None in En; lia].
    destruct (nth_error old_row j) as [o|] eqn:Eo;
      [|apply nth_error_None in Eo; lia].
    destruct (cell_eqb n o); [apply IH; lia|].
    destruct (get_color_attr_runs st (snd n) Hc) as [attr [st1 ->]].
    destruct (attr =? current_attr); apply IH; lia.
Qed.

(** With an old row that is too short the loop runs into the
    [IndexError] of [old_row[j]]. *)
Lemma row_loop_raises i new_row old_row limit :
  (length old_row < limit)%nat ->
  forall fuel j mode st calls,
  (j <= length old_row)%nat ->
  (cost limit j mode < fuel)%nat ->
  row_loop COLORS COLOR_PAIRS A_NORMAL color_pair init_pair_error
           fuel i new_row old_row limit j mode st calls
  = Raised.
Proof.
  intros Ho.
  induction fuel as [|fuel IH]; intros j mode st calls Hj Hfuel; [lia|].
  cbn [row_loop]. unfold cost in *.
  destruct mode as [|start current_attr segment_chars].
  - destruct (Nat.ltb_spec j limit) as [Hlt|Hge]; [|lia].
    destruct (nth_error new_row j) as [n|]; [|reflexivity].
    destruct (nth_error old_row j) as [o|] eqn:Eo; [|reflexivity].
    assert (j < length old_row)%nat
      by (apply nth_error_Some; congruence).
    destruct (cell_eqb n o); [apply IH; lia|].
    destruct (get_color_attr _ _ _ _ _ st (snd n)) as [[attr st1]|];
      [|reflexivity].
    apply IH; lia.
  - destruct (Nat.ltb_spec j limit) as [Hlt|Hge]; [|lia].
    destruct (nth_error new_row j) as [n|]; [|reflexivity].
    destruct (nth_error old_row j) as [o|] eqn:Eo; [|reflexivity].
    assert (j < length old_row)%nat
      by (apply nth_error_Some; congruence).
    destruct (cell_eqb n o); [apply IH; lia|].
    destruct (get_color_attr _ _ _ _ _ st (snd n)) as [[attr st1]|];
      [|reflexivity].
    destruct (attr =? current_attr); apply IH; lia.
Qed.

Lemma row_loop_calls i new_row old_row limit :
  forall fuel j mode st calls calls' st',
  Forall (on_row i) calls ->
  match mode with InSegment _ _ chars => chars <> [] | Scanning => True end ->
  row_loop COLORS COLOR_PAIRS A_NORMAL color_pair init_pair_error
           fuel i new_row old_row limit j mode st calls
    = Done (calls', st') ->
  Forall (on_row i) calls'.
Proof.
  induction fuel as [|fuel IH]; intros j mode st calls calls' st' Hcalls Hmode;
    cbn [row_loop]; [discriminate|].
  destruct mode as [|start current_attr segment_chars].
  - destruct (j <? limit)%nat; [|intros H; injection H as <- <-; exact Hcalls].
    destruct (nth_error new_row j) as [n|]; [|discriminate].
    destruct (nth_error old_row j) as [o|]; [|discriminate].
    destruct (cell_eqb n o); [intros H; now apply IH in H|].
    destruct (get_color_attr _ _ _ _ _ st (snd n)) as [[attr st1]|];
      [|discriminate].
    intros H. apply IH in H; [exact H|exact Hcalls|discriminate].
  - assert (Hw : Forall (on_row i)
                   (calls ++ [AddStr i start segment_chars current_attr])).
    { apply Forall_app. split; [exact Hcalls|].
      constructor; [|constructor]. cbn. auto. }
    destruct (j <? limit)%nat; [|intros H; now apply IH in H].
    destruct (nth_error new_row j) as [n|]; [|discriminate].
    destruct (nth_error old_row j) as [o|]; [|discriminate].
    destruct (cell_eqb n o); [intros H; now apply IH in H|].
    destruct (get_color_attr _ _ _ _ _ st (snd n)) as [[attr st1]|];
      [|discriminate].
    destruct (attr =? current_attr); intros H; apply IH in H; auto.
    now destruct segment_chars.
Qed.

(** X25. With a usable [curses.COLORS] and an old row at least as long
    as the part of the new row that is looked at (its first
    [min(len(new_row), max_x)] cells), the row loop ends normally; all
    it does is [addstr] on row [i] with segments that are not empty;
    and, read from left to right, the segments put the character of
    the new row into exactly the columns where the new cell differs
    from the old one, whatever the attributes are. *)
Theorem color_row_paints_changes (max_x : Z) (i : nat) (new_row : list Cell)
        (prev_frame : list (list Cell)) (st : Pairs) :
  let old_row :=
    if (i <? length prev_frame)%nat then nth i prev_frame []
    else repeat NO_CELL (length new_row) in
  let limit := Z.to_nat (Z.min (Z.of_nat (length new_row)) max_x) in
  COLORS <> 0 ->
  (limit <= length old_row)%nat ->
  exists calls st',
    update_color_row COLORS COLOR_PAIRS A_NORMAL color_pair init_pair_error
                     max_x i new_row prev_frame st
      = Done (calls, st') /\
    Forall (on_row i) calls /\
    flat_map painted calls = changes new_row old_row 0 limit.
Proof.
  intros old_row limit Hc Hold. unfold update_color_row.
  fold old_row. fold limit.
  destruct (row_loop_ends i new_row old_row limit Hc ltac:(lia) Hold
              (2 * limit + 1)%nat 0%nat Scanning st [])
    as [calls [st' Hrun]]; [unfold cost; lia|].
  exists calls, st'. split; [exact Hrun|]. split.
  - apply row_loop_calls in Hrun; [exact Hrun|constructor|exact I].
  - apply row_loop_painted in Hrun; [|lia|exact I]. rewrite Hrun.
    cbn [flat_map pending app]. now rewrite Nat.sub_0_r.
Qed.

(** X26. When the row kept from the previous frame is shorter than
    the part of the new row that is looked at, the loop ends in an
    exception that nothing catches: the [IndexError] of [old_row[j]],
    if [color_index % curses.COLORS] has not raised before. *)
Theorem color_row_index_error (max_x : Z) (i : nat) (new_row : list Cell)
        (prev_frame : list (list Cell)) (st : Pairs) :
  (i < length prev_frame)%nat ->
  Z.of_nat (length (nth i prev_frame []))
    < Z.min (Z.of_nat (length new_row)) max_x ->
  update_color_row COLORS COLOR_PAIRS A_NORMAL color_pair init_pair_error
                   max_x i new_row prev_frame st
  = Raised.
Proof.
  intros Hi Hshort. unfold update_color_row.
  destruct (Nat.ltb_spec i (length prev_frame)); [|lia].
  apply row_loop_raises; [lia|lia|unfold cost; lia].
Qed.

(** X27. [get_color_attr] keeps the cache in order: pair numbers are
    at least 1, below [next_pair_number] and below
    [curses.COLOR_PAIRS], and no two colours share one; a colour that
    has a pair keeps it; and the attribute returned is either
    [A_NORMAL] with the cache untouched, or the pair the cache now
    holds for the colour asked for. *)
Theorem get_color_attr_keeps (st st' : Pairs) (color_index attr : Z) :
  pairs_ok COLOR_PAIRS st ->
  get_color_attr COLORS COLOR_PAIRS A_NORMAL color_pair init_pair_error
                 st color_index = Some (attr, st') ->
  pairs_ok COLOR_PAIRS st' /\
  (forall c n, color_pair_cache st c = Some n ->
               color_pair_cache st' c = Some n) /\
  (attr = A_NORMAL /\ st' = st
   \/ exists n, color_pair_cache st' color_index = Some n /\
                attr = color_pair n).
Proof.
  intros [Hnext [Hrange Hinj]]. unfold get_color_attr.
  destruct (if COLORS <? 256 then _ else _) as [mapped_color|];
    cbn [bind]; [|discriminate].
  destruct (color_pair_cache st color_index) as [n|] eqn:Ecache.
  - intros H. injection H as <- <-. split; [now split|]. split; [auto|].
    right. eauto.
  - destruct (Z.leb_spec COLOR_PAIRS (next_pair_number st)) as [Hfull|Hfree].
    { intros H. injection H as <- <-. split; [now split|]. auto. }
    destruct (init_pair_error _ _).
    { intros H. injection H as <- <-. split; [now split|]. auto. }
    intros H. injection H as <- <-. unfold pairs_ok.
    cbn [color_pair_cache next_pair_number].
    split; [|split].
    + split; [lia|]. split.
      * intros c n. destruct (Z.eqb_spec c color_index) as [->|_].
        -- intros E. injection E as <-. lia.
        -- intros E. destruct (Hrange c n E). lia.
      * intros c1 c2 n.
        destruct (Z.eqb_spec c1 color_index) as [->|N1];
          destruct (Z.eqb_spec c2 color_index) as [->|N2]; intros E1 E2.
        -- reflexivity.
        -- injection E1 as <-. destruct (Hrange _ _ E2). lia.
        -- injection E2 as <-. destruct (Hrange _ _ E1). lia.
        -- exact (Hinj _ _ _ E1 E2).
    + intros c n E. destruct (Z.eqb_spec c color_index) as [->|_];
        [congruence|exact E].
    + right. exists (next_pair_number st). now rewrite Z.eqb_refl.
Qed.

Lemma cell_eqb_refl (c : Cell) : cell_eqb c c = true.
Proof.
  unfold cell_eqb. rewrite Z.eqb_refl, andb_true_r.
  induction (fst c) as [|a l IH]; [reflexivity|].
  cbn [str_eqb]. now rewrite Ascii.eqb_refl.
Qed.

Lemma row_loop_same i row limit :
  (limit <= length row)%nat ->
  forall fuel j st calls,
  (2 * (limit - j) < fuel)%nat ->
  row_loop COLORS COLOR_PAIRS A_NORMAL color_pair init_pair_error
           fuel i row row limit j Scanning st calls
  = Done (calls, st).
Proof.
  intros Hl. induction fuel as [|fuel IH]; intros j st calls Hf; [lia|].
  cbn [row_loop]. destruct (Nat.ltb_spec j limit); [|reflexivity].
  destruct (nth_error row j) as [n|] eqn:En;
    [|apply nth_error_None in En; lia].
  rewrite cell_eqb_refl. apply IH. lia.
Qed.

Lemma color_rows_same max_x frame st :
  forall rows calls,
  Forall (fun i => (i < length frame)%nat) rows ->
  color_rows COLORS COLOR_PAIRS A_NORMAL color_pair init_pair_error
             max_x frame frame rows st calls
  = Done (calls, st).
Proof.
  induction rows as [|i rows IH]; intros calls Hrows; [reflexivity|].
  inversion Hrows as [|? ? Hi Hrest]; subst.
  cbn [color_rows]. unfold update_color_row.
  destruct (Nat.ltb_spec i (length frame)); [|lia].
  rewrite row_loop_same by lia.
  rewrite app_nil_r. now apply IH.
Qed.

(** X28. A frame equal to the previous one, in a window that kept
    its size, is handled with [refresh] as the only call: nothing is
    written, no colour pair is asked for, and the state stays as it
    is. *)
Theorem unchanged_color_frame (v : View) :
  draw_color_frame COLORS COLOR_PAIRS A_NORMAL color_pair init_pair_error
                   v (max_y v, max_x v) (prev_frame v)
  = Done ([Refresh], v).
Proof.
  unfold draw_color_frame. rewrite !Z.eqb_refl. cbn [negb orb].
  rewrite color_rows_same.
  - now destruct v.
  - apply Forall_forall. intros i Hi. apply in_seq in Hi. lia.
Qed.

End Curses.

Lemma color_row_paints_changes_witness :
  exists calls st',
    update_color_row 256 256 0 shifted (fun _ _ => false)
                     80 0 new_cells [old_cells] no_pairs
      = Done (calls, st') /\
    Forall (on_row 0) calls /\
    flat_map painted calls = [(1%nat, s "b"); (2%nat, s "c")].
Proof.
  destruct (color_row_paints_changes 256 256 0 shifted (fun _ _ => false)
              80 0%nat new_cells [old_cells] no_pairs)
    as [calls [st' [Hrun [Hrow Hpaint]]]].
  - discriminate.
  - simpl. lia.
  - exists calls, st'. split; [exact Hrun|]. split; [exact Hrow|].
    exact Hpaint.
Defined.

Lemma color_row_index_error_witness :
  update_color_row 256 256 0 shifted (fun _ _ => false)
                   80 0 new_cells [[(s "a", 16)]] no_pairs
  = Raised.
Proof.
  apply (color_row_index_error 256 256 0 shifted (fun _ _ => false)
           80 0%nat new_cells [[(s "a", 16)]] no_pairs).
  - simpl. lia.
  - simpl. lia.
Defined.

Lemma get_color_attr_keeps_witness :
  exists st',
    get_color_attr 256 256 0 shifted (fun _ _ => false) no_pairs 16
      = Some (256, st') /\
    pairs_ok 256 st' /\
    color_pair_cache st' 16 = Some 1.
Proof.
  exists {| color_pair_cache := fun c => if c =? 16 then Some 1 else None;
            next_pair_number := 2 |}.
  split; [reflexivity|].
  destruct (get_color_attr_keeps 256 256 0 shifted (fun _ _ => false)
              no_pairs
              {| color_pair_cache := fun c => if c =? 16 then Some 1 else None;
                 next_pair_number := 2 |}
              16 256) as [Hok _].
  - split; [cbn; lia|]. split; intros; discriminate.
  - reflexivity.
  - split; [exact Hok|reflexivity].
Defined.

End ColorFacts.

(** ** Extractor and converter together *)

Module ChainFacts.
Import Py Pipeline PipelineFacts Notions StageFacts.

Section Chain.

Variables Frame Ascii : Type.
Variable conversion_function : Frame * Z -> option Ascii.
Variable new_width : Z.

(** X29. The two stages in a row. When the source opens, [fps] is
    positive, the converter is handed the queue the extractor filled
    (whatever time-outs fall between the items), the batch size is at
    least one and no conversion raises, the converter ends with
    [stop_event] set and [ascii_queue] holds the conversion of every
    frame the extractor read, once each and in capture order. *)
Theorem extractor_feeds_converter (elapsed : nat -> float) (k fps : Z)
        (frames : list Frame) (interrupt : option nat)
        (g : list (Got Frame)) (fuel : nat) (afs : list Ascii) :
  1 <= k ->
  0 < fps ->
  items g
  = raw_queue (extract_frames {| isOpened := true; stream := frames |}
                              fps interrupt []) ->
  (length g < fuel)%nat ->
  pool_map conversion_function
           (batch_of new_width
                     (firstn (match interrupt with
                              | Some n => n
                              | None => length frames
                              end) frames)) = Some afs ->
  exists st',
    convert_frames conversion_function new_width elapsed k fuel g = Some st' /\
    enqueued st' = afs /\
    stop_event st' = true.
Proof.
  intros Hk Hfps Hitems Hfuel Hconv.
  unfold extract_frames in Hitems. cbn [isOpened negb stream] in Hitems.
  destruct (Z.eqb_spec fps 0); [lia|].
  rewrite read_loop_prefix in Hitems by assumption.
  cbn [raw_queue app] in Hitems.
  set (taken := firstn _ frames) in *.
  destruct (convert_loop_ends Frame Ascii conversion_function new_width
              elapsed k Hk fuel
              {| gets := g; stop_event := false; trace := [];
                 batch_no := O |} taken eq_refl Hitems Hfuel)
    as [st' [Hrun [done [rest [afs' [H1 [H2 [H3 H4]]]]]]]].
  exists st'. split; [exact Hrun|].
  destruct H4 as [[-> Hstop]|[Hnone _]]; [|congruence].
  rewrite app_nil_r in H1. subst done.
  split; [|exact Hstop].
  rewrite H3. cbn. congruence.
Qed.

End Chain.

Import Samples.

Lemma extractor_feeds_converter_witness :
  exists st',
    convert_frames to_curses 2 half_second 1 4
                   [Item (Some square_frame); Empty; Item None] = Some st' /\
    enqueued st' = [s "nn"] /\
    stop_event st' = true.
Proof.
  apply (extractor_feeds_converter Converter.Image str to_curses 2
           half_second 1 10 [square_frame] None
           [Item (Some square_frame); Empty; Item None] 4 [s "nn"]).
  - lia.
  - lia.
  - reflexivity.
  - simpl. lia.
  - vm_compute. reflexivity.
Defined.

End ChainFacts.
